(** * kconfig-merge: a shallow embedding of [kconfig-merge.py]

    The tool copies a set of Kconfig files (and every file they reference with
    a [source] directive) into a mirrored tree next to a generated root file,
    rewriting the directives on the way.

    The development has four layers:
    - text helpers (Python [str] operations used by the program),
    - [posixpath]: the [os.path] functions the program calls, written after
      CPython's [posixpath.py] / [genericpath.py],
    - a file-system model with Python's buffered text files,
    - the class [KconfigMerge] and [main], in a state-and-exception monad.

    Modelling conventions.
    - A text is a [string]; a character is a code point below 256.
    - File contents are the text as Python's text layer presents it (newline
      translation happens below this model).
    - A file is identified by the normalised absolute path ([os.path.abspath]),
      so [..] is resolved lexically and there are no symbolic links; this is
      also what the program's own use of [os.path.relpath] assumes.
    - A file opened with mode ['w'] is truncated at once; what is written to
      it stays in the file object's buffer and reaches the file when the
      object is closed (outputs are smaller than the I/O buffer).
    - Unbounded recursion is cut by a fuel argument; running out of fuel is the
      outcome [OutOfFuel] (Python's recursion limit). *)

From Stdlib Require Import Ascii String.
From stdpp Require Import base option list gmap strings pretty.



(** ** Text helpers *)

Definition DQ : ascii := "034"%char.   (* the double quote *)
Definition NL : ascii := "010"%char.   (* the line feed *)
Definition SEP : ascii := "/"%char.    (* posixpath.sep *)

Definition dq : string := String DQ EmptyString.
Definition nl : string := String NL EmptyString.
Definition sep : string := String SEP EmptyString.
Definition curdir : string := ".".
Definition pardir : string := "..".

Definition is_empty (s : string) : bool :=
  match s with EmptyString => true | String _ _ => false end.

(** [s.startswith(pre)], returning the rest of [s] on success. *)
Fixpoint strip_prefix (pre s : string) : option string :=
  match pre with
  | EmptyString => Some s
  | String a pre' =>
      match s with
      | EmptyString => None
      | String b s' => if Ascii.eqb a b then strip_prefix pre' s' else None
      end
  end.

Definition startswith (pre s : string) : bool :=
  match strip_prefix pre s with Some _ => true | None => false end.

(** [s.endswith("/")] *)
Fixpoint endswith_sep (s : string) : bool :=
  match s with
  | EmptyString => false
  | String c EmptyString => Ascii.eqb c SEP
  | String _ r => endswith_sep r
  end.

(** [s == "/" * len(s)] *)
Fixpoint all_sep (s : string) : bool :=
  match s with
  | EmptyString => true
  | String c r => Ascii.eqb c SEP && all_sep r
  end.

(** [s.rstrip("/")] *)
Fixpoint rstrip_sep (s : string) : string :=
  match s with
  | EmptyString => EmptyString
  | String c r =>
      let t := rstrip_sep r in
      if Ascii.eqb c SEP && is_empty t then EmptyString else String c t
  end.

(** [s[: s.rfind("/") + 1]] *)
Fixpoint upto_last_sep (s : string) : string :=
  match s with
  | EmptyString => EmptyString
  | String c r =>
      let h := upto_last_sep r in
      if Ascii.eqb c SEP || negb (is_empty h) then String c h else EmptyString
  end.

(** [s[s.rfind("/") + 1 :]] *)
Fixpoint after_last_sep (s : string) : string :=
  match s with
  | EmptyString => EmptyString
  | String c r =>
      if Ascii.eqb c SEP || negb (is_empty (upto_last_sep r))
      then after_last_sep r else s
  end.

(** [s.split("/")] *)
Fixpoint split_sep (s : string) : list string :=
  match s with
  | EmptyString => [EmptyString]
  | String c r =>
      if Ascii.eqb c SEP then EmptyString :: split_sep r
      else match split_sep r with
           | x :: xs => String c x :: xs
           | [] => [String c EmptyString]
           end
  end.

(** ["/".join(l)] *)
Fixpoint join_sep (l : list string) : string :=
  match l with
  | [] => EmptyString
  | [x] => x
  | x :: r => x +:+ sep +:+ join_sep r
  end.

(** ["/" * n] *)
Fixpoint seps (n : nat) : string :=
  match n with 0 => EmptyString | S m => String SEP (seps m) end.

(** The lines a text file yields when iterated: each keeps its line feed; a
    last line without one is yielded as it is. *)
Fixpoint readlines (s : string) : list string :=
  match s with
  | EmptyString => []
  | String c r =>
      if Ascii.eqb c NL then nl :: readlines r
      else match readlines r with
           | [] => [String c EmptyString]
           | l :: ls => String c l :: ls
           end
  end.

(** Python's order on lists of strings ([list.__lt__]). *)
Fixpoint list_ltb (a b : list string) : bool :=
  match a, b with
  | [], [] => false
  | [], _ :: _ => true
  | _ :: _, [] => false
  | x :: a', y :: b' => if String.eqb x y then list_ltb a' b' else String.ltb x y
  end.

(** [min(m)] / [max(m)] on a non-empty list [x :: m]: the first extremal one. *)
Definition list_min (x : list string) (m : list (list string)) : list string :=
  fold_left (fun acc y => if list_ltb y acc then y else acc) m x.
Definition list_max (x : list string) (m : list (list string)) : list string :=
  fold_left (fun acc y => if list_ltb acc y then y else acc) m x.

(** ** Outcomes of a computation *)

Inductive exn : Type :=
| ValueError (msg : string)
| IndexError
| FileNotFoundError (path : string)
| IsADirectoryError (path : string)
| NotADirectoryError (path : string)
| FileExistsError (path : string)
| Exception (msg : string).

Inductive result (A : Type) : Type :=
| Ok (a : A)
| Raise (e : exn)
| OutOfFuel.
Arguments Ok {A} a.
Arguments Raise {A} e.
Arguments OutOfFuel {A}.

(** ** [os.path] for POSIX *)

Module posixpath.

Definition isabs (s : string) : bool := startswith sep s.

(** [os.path.split]: everything up to the last slash (trailing slashes
    stripped unless it is all slashes) and what follows the last slash. *)
Definition split (p : string) : string * string :=
  let head := upto_last_sep p in
  let tail := after_last_sep p in
  (if negb (is_empty head) && negb (all_sep head) then rstrip_sep head else head,
   tail).

Definition dirname (p : string) : string := fst (split p).
(** One round of the loop of [os.path.join(a, *p)]. *)
Definition join (path b : string) : string :=
  if startswith sep b then b
  else if is_empty path || endswith_sep path then path +:+ b
  else path +:+ sep +:+ b.

Definition join_all (a : string) (p : list string) : string :=
  fold_left join p a.

Definition initial_slashes (path : string) : nat :=
  if negb (startswith sep path) then 0
  else if startswith (sep +:+ sep) path && negb (startswith (sep +:+ sep +:+ sep) path)
       then 2 else 1.

(** The loop of [normpath]; [new_comps] is kept in reverse (its head is the
    component appended last). *)
Fixpoint norm_loop (slashes : nat) (comps new_comps : list string) : list string :=
  match comps with
  | [] => new_comps
  | comp :: rest =>
      if String.eqb comp EmptyString || String.eqb comp curdir
      then norm_loop slashes rest new_comps
      else if negb (String.eqb comp pardir)
              || (Nat.eqb slashes 0 && match new_comps with [] => true | _ => false end)
              || match new_comps with c :: _ => String.eqb c pardir | [] => false end
           then norm_loop slashes rest (comp :: new_comps)
           else match new_comps with
                | _ :: popped => norm_loop slashes rest popped
                | [] => norm_loop slashes rest new_comps
                end
  end.

Definition normpath (path : string) : string :=
  if is_empty path then curdir
  else
    let slashes := initial_slashes path in
    let comps := rev (norm_loop slashes (split_sep path) []) in
    let p := seps slashes +:+ join_sep comps in
    if is_empty p then curdir else p.

(** [cwd] stands for [os.getcwd()]. *)
Definition abspath (cwd path : string) : string :=
  normpath (if isabs path then path else join cwd path).

(** The loop of [commonprefix] / [commonpath]: [s1[:i]] at the first index
    where [s1[i] != s2[i]], the whole of [s1] without one. *)
Fixpoint common_loop (s1 s2 : list string) : result (list string) :=
  match s1 with
  | [] => Ok []
  | c :: r1 =>
      match s2 with
      | [] => Raise IndexError
      | c2 :: r2 =>
          if String.eqb c c2
          then match common_loop r1 r2 with
               | Ok l => Ok (c :: l)
               | other => other
               end
          else Ok []
      end
  end.

(** [genericpath.commonprefix([a, b])] on two lists. *)
Definition commonprefix2 (a b : list string) : result (list string) :=
  common_loop (list_min a [b]) (list_max a [b]).

Definition nonempty_comps (p : string) : list string :=
  filter (fun x => x ≠ EmptyString) (split_sep p).

Definition relpath (cwd path start : string) : result string :=
  if is_empty path then Raise (ValueError "no path specified")
  else
    let start_list := nonempty_comps (abspath cwd start) in
    let path_list := nonempty_comps (abspath cwd path) in
    match commonprefix2 start_list path_list with
    | Ok pre =>
        let i := length pre in
        let rel_list := (repeat pardir (length start_list - i) ++ drop i path_list) in
        match rel_list with
        | [] => Ok curdir
        | a :: p => Ok (join_all a p)
        end
    | Raise e => Raise e
    | OutOfFuel => OutOfFuel
    end.

Definition commonpath (paths : list string) : result string :=
  match paths with
  | [] => Raise (ValueError "commonpath() arg is an empty sequence")
  | p0 :: ps =>
      if negb (forallb (fun p => Bool.eqb (isabs p) (isabs p0)) ps)
      then Raise (ValueError "Can't mix absolute and relative paths")
      else
        let keep (s : string) :=
          filter (fun c => c ≠ EmptyString ∧ c ≠ curdir) (split_sep s) in
        let s1 := list_min (keep p0) (map keep ps) in
        let s2 := list_max (keep p0) (map keep ps) in
        match common_loop s1 s2 with
        | Ok common => Ok ((if isabs p0 then sep else EmptyString) +:+ join_sep common)
        | Raise e => Raise e
        | OutOfFuel => OutOfFuel
        end
  end.

End posixpath.

(** ** The directive pattern

    [_parse_kconfig] gives [re.match] a pattern made of, in this order: the
    anchor [^], the keyword [source], [\s] starred (any run of white space),
    a double quote, a group holding the starred class of every character but
    the double quote (group 1, the longest such run), and a double quote.
    The pattern has no end anchor: nothing is required of what follows. *)

(** [\s] on a [str] pattern, for code points below 256. *)
Definition is_space (c : ascii) : bool :=
  let n := nat_of_ascii c in
  (Nat.leb 9 n && Nat.leb n 13) || (Nat.leb 28 n && Nat.leb n 31)
  || Nat.eqb n 32 || Nat.eqb n 133 || Nat.eqb n 160.

Fixpoint skip_spaces (s : string) : string :=
  match s with
  | EmptyString => EmptyString
  | String c r => if is_space c then skip_spaces r else s
  end.

(** The group and the closing quote: group 1 when a closing quote is found. *)
Fixpoint until_quote (s : string) : option string :=
  match s with
  | EmptyString => None
  | String c r => if Ascii.eqb c DQ then Some EmptyString
                  else String c <$> until_quote r
  end.

(** The match object's [group(1)], or [None] when the pattern does not match. *)
Definition match_source (line : string) : option string :=
  match strip_prefix "source" line with
  | None => None
  | Some r =>
      match skip_spaces r with
      | String c r2 => if Ascii.eqb c DQ then until_quote r2 else None
      | EmptyString => None
      end
  end.

(** [match and match.group(1)]: the captured path when the line is handled as
    a reference directive. *)
Definition directive (line : string) : option string :=
  match match_source line with
  | Some p => if is_empty p then None else Some p
  | None => None
  end.

(** The line written for a directive: [source Q%sQ] and a line feed, with the
    relative path for [%s]. *)
Definition source_line (relpath : string) : string :=
  "source " +:+ dq +:+ relpath +:+ dq +:+ nl.

(** ** The file system and Python's file objects *)

Inductive node : Type :=
| File (content : string)
| Dir.

(** A file is known by the components of its absolute normalised path; the
    empty list is the root directory. *)
Abbreviation key := (list string).

Fixpoint key_eqb (a b : key) : bool :=
  match a, b with
  | [], [] => true
  | x :: a', y :: b' => String.eqb x y && key_eqb a' b'
  | _, _ => false
  end.

(** What is on disk: a list of entries in which a key is bound at most once.
    A new key is added at the end, a bound key is rebound in place, and there
    is no removal, which the program never does. (A list and not a [gmap],
    so that a run of the program on a sample file system evaluates within the
    kernel.) *)
Record fsmap : Type := FS { entries : list (key * node) }.

Fixpoint entries_lookup (k : key) (l : list (key * node)) : option node :=
  match l with
  | [] => None
  | (k', v) :: r => if key_eqb k' k then Some v else entries_lookup k r
  end.

Fixpoint entries_insert (k : key) (v : node) (l : list (key * node))
  : list (key * node) :=
  match l with
  | [] => [(k, v)]
  | (k', v') :: r =>
      if key_eqb k' k then (k, v) :: r else (k', v') :: entries_insert k v r
  end.

#[global] Instance fsmap_lookup : Lookup key node fsmap :=
  fun k m => entries_lookup k (entries m).

#[global] Instance fsmap_insert : Insert key node fsmap :=
  fun k v m => FS (entries_insert k v (entries m)).

#[global] Arguments fsmap_lookup : simpl never.
#[global] Arguments fsmap_insert : simpl never.

Record OS : Type := mkOS {
  cwd : string;                      (* os.getcwd() *)
  fs : fsmap;                (* what is on disk *)
  handles : list (key * string)      (* files open in mode 'w' with their
                                        unflushed text, innermost first *)
}.

Definition set_fs (f : fsmap) (o : OS) : OS :=
  mkOS (cwd o) f (handles o).
Definition set_handles (h : list (key * string)) (o : OS) : OS :=
  mkOS (cwd o) (fs o) h.

Definition key_of (o : OS) (path : string) : key :=
  posixpath.nonempty_comps (posixpath.abspath (cwd o) path).

Definition lookup_key (f : fsmap) (k : key) : option node :=
  match k with
  | [] => Some Dir
  | _ => f !! k
  end.

(** What [os.stat(path)] finds. *)
Definition node_at (o : OS) (path : string) : option node :=
  if is_empty path then None else lookup_key (fs o) (key_of o path).

Definition exists_ (o : OS) (path : string) : bool :=
  match node_at o path with Some _ => true | None => false end.
Definition isfile (o : OS) (path : string) : bool :=
  match node_at o path with Some (File _) => true | _ => false end.
Definition isdir (o : OS) (path : string) : bool :=
  match node_at o path with Some Dir => true | _ => false end.

(** [os.mkdir(name)] *)
Definition mkdir (name : string) (o : OS) : result unit * OS :=
  match node_at o name with
  | Some _ => (Raise (if is_empty name then FileNotFoundError name
                      else FileExistsError name), o)
  | None =>
      if is_empty name then (Raise (FileNotFoundError name), o)
      else
        let k := key_of o name in
        match lookup_key (fs o) (removelast k) with
        | Some Dir => (Ok tt, set_fs (<[k := Dir]> (fs o)) o)
        | Some (File _) => (Raise (NotADirectoryError name), o)
        | None => (Raise (FileNotFoundError name), o)
        end
  end.

(** The [try: mkdir(name) except OSError: ...] at the end of [makedirs] with
    [exist_ok=True]: an error is swallowed when the directory is there. *)
Definition mkdir_exist_ok (name : string) (o : OS) : result unit * OS :=
  match mkdir name o with
  | (Raise e, o2) => if isdir o2 name then (Ok tt, o2) else (Raise e, o2)
  | other => other
  end.

(** The [head, tail] that [makedirs] works with. *)
Definition makedirs_split (name : string) : string * string :=
  let '(head, tail) := posixpath.split name in
  if is_empty tail then posixpath.split head else (head, tail).

(** [os.makedirs(name, exist_ok=True)]. Each recursive call is on a strictly
    shorter name, so [String.length name] rounds are enough; [n] counts them
    (the branch for no round left is never reached from [makedirs]). *)
Fixpoint makedirs_rec (n : nat) (name : string) (o : OS) : result unit * OS :=
  let '(head, tail) := makedirs_split name in
  if negb (is_empty head) && negb (is_empty tail) && negb (exists_ o head) then
    match n with
    | 0 => mkdir_exist_ok name o
    | S n' =>
        match makedirs_rec n' head o with
        | (Ok _, o1) | (Raise (FileExistsError _), o1) =>
            if String.eqb tail curdir then (Ok tt, o1) else mkdir_exist_ok name o1
        | other => other
        end
    end
  else mkdir_exist_ok name o.

Definition makedirs (name : string) (o : OS) : result unit * OS :=
  makedirs_rec (String.length name) name o.

(** [open(path, 'r')]: the file must be there; its text is read when the
    iteration over the file object starts. *)
Definition open_r (path : string) (o : OS) : result unit * OS :=
  match node_at o path with
  | Some (File _) => (Ok tt, o)
  | Some Dir => (Raise (IsADirectoryError path), o)
  | None => (Raise (FileNotFoundError path), o)
  end.

Definition read_text (path : string) (o : OS) : string :=
  match node_at o path with
  | Some (File c) => c
  | _ => EmptyString
  end.

(** [open(path, 'w')]: creates or truncates the file and pushes a file object
    with an empty buffer. *)
Definition open_w (path : string) (o : OS) : result unit * OS :=
  let k := key_of o path in
  let opened := mkOS (cwd o) (<[k := File EmptyString]> (fs o)) ((k, EmptyString) :: handles o) in
  match node_at o path with
  | Some Dir => (Raise (IsADirectoryError path), o)
  | Some (File _) => (Ok tt, opened)
  | None =>
      if is_empty path then (Raise (FileNotFoundError path), o)
      else match lookup_key (fs o) (removelast k) with
           | Some Dir => (Ok tt, opened)
           | Some (File _) => (Raise (NotADirectoryError path), o)
           | None => (Raise (FileNotFoundError path), o)
           end
  end.

(** [f.write(text)] on the innermost open file. *)
Definition write_top (text : string) (o : OS) : OS :=
  match handles o with
  | (k, buf) :: hs => set_handles ((k, buf +:+ text) :: hs) o
  | [] => o
  end.

(** Flushing a buffer writes it from offset 0 of the file: it replaces the
    first [length buf] characters of what the file holds by then. *)
Fixpoint string_drop (n : nat) (s : string) : string :=
  match n, s with
  | S m, String _ r => string_drop m r
  | _, _ => s
  end.

Definition overlay (buf old : string) : string :=
  buf +:+ string_drop (String.length buf) old.

(** [f.close()] on the innermost open file. *)
Definition close_top (o : OS) : OS :=
  match handles o with
  | (k, buf) :: hs =>
      let old := match fs o !! k with Some (File c) => c | _ => EmptyString end in
      mkOS (cwd o) (<[k := File (overlay buf old)]> (fs o)) hs
  | [] => o
  end.

(** ** The class [KconfigMerge] *)

Record KconfigMerge : Type := mkKconfigMerge {
  title : string;
  kconfig_root : string;
  sources : list string;
  parent_dir : string;
  common_dir : string;
  overwrite : string;
  kconfig_sources : list (gset string);
  headers : list string
}.

(** The state a method runs in: the object, the operating system, and the
    arguments of every call of [_parse_kconfig] so far. The last field is not
    in the program; no definition reads it, and it only serves to state how
    often the method was called. *)
Record State : Type := mkState {
  self : KconfigMerge;
  os : OS;
  calls : list string
}.

Definition set_os (o : OS) (st : State) : State := mkState (self st) o (calls st).
Definition set_self (k : KconfigMerge) (st : State) : State := mkState k (os st) (calls st).

(** Computations that read and change the state and may raise. *)
Definition M (A : Type) : Type := State → result A * State.

Definition ret {A} (a : A) : M A := fun st => (Ok a, st).
Definition raise {A} (e : exn) : M A := fun st => (Raise e, st).
Definition bind {A B} (m : M A) (k : A → M B) : M B := fun st =>
  match m st with
  | (Ok a, st') => k a st'
  | (Raise e, st') => (Raise e, st')
  | (OutOfFuel, st') => (OutOfFuel, st')
  end.

Notation "'let*' x ':=' m 'in' k" := (bind m (fun x => k))
  (at level 10, x name, m at level 100, k at level 200).
Notation "m ';;' k" := (bind m (fun _ => k))
  (at level 100, k at level 200, right associativity).

(** A pure function of [os.path] that may raise. *)
Definition lift_result {A} (r : result A) : M A := fun st => (r, st).

(** A system call. *)
Definition sys {A} (f : OS → result A * OS) : M A := fun st =>
  let '(r, o) := f (os st) in (r, set_os o st).

Definition write (text : string) : M unit := fun st =>
  (Ok tt, set_os (write_top text (os st)) st).

(** [with open(path, 'w') as f: body]: the file is closed on every way out
    of the body. *)
Definition with_open_w {A} (path : string) (body : M A) : M A := fun st =>
  match sys (open_w path) st with
  | (Ok _, st1) => let '(r, st2) := body st1 in (r, set_os (close_top (os st2)) st2)
  | (Raise e, st1) => (Raise e, st1)
  | (OutOfFuel, st1) => (OutOfFuel, st1)
  end.

(** [self.kconfig_sources.append({a, b})]: the record is a Python set of the
    two strings. *)
Definition append_source (a b : string) : M unit := fun st =>
  let k := self st in
  (Ok tt,
   set_self (mkKconfigMerge (title k) (kconfig_root k) (sources k) (parent_dir k)
               (common_dir k) (overwrite k)
               (kconfig_sources k ++ [ ({[ a ]} ∪ {[ b ]} : gset string) ])%list
               (headers k)) st).

Definition set_common_dir (c : string) : M unit := fun st =>
  let k := self st in
  (Ok tt,
   set_self (mkKconfigMerge (title k) (kconfig_root k) (sources k) (parent_dir k)
               c (overwrite k) (kconfig_sources k) (headers k)) st).

Definition called (kconfig_source : string) : M unit := fun st =>
  (Ok tt, mkState (self st) (os st) (calls st ++ [kconfig_source])%list).

(** [KconfigMerge.__init__] *)
Definition __init__ (title kconfig_root overwrite : string) (o : OS)
  : result KconfigMerge * OS :=
  let parent_dir := posixpath.dirname kconfig_root in
  match makedirs parent_dir o with
  | (Ok _, o') =>
      (Ok (mkKconfigMerge title kconfig_root [] parent_dir EmptyString overwrite []
             ["# AUTOGENERATED FILE. DO NOT MODIFY"]), o')
  | (Raise e, o') => (Raise e, o')
  | (OutOfFuel, o') => (OutOfFuel, o')
  end.

Definition _get_source_relpath (source_path : string) : M string := fun st =>
  (posixpath.relpath (cwd (os st)) source_path (common_dir (self st)), st).

Definition _get_parent_relpath (source_path : string) : M string :=
  let* rel := _get_source_relpath source_path in
  fun st =>
    let parent_relpath := posixpath.join (parent_dir (self st)) rel in
    (sys (makedirs (posixpath.dirname parent_relpath)) ;; ret parent_relpath) st.

(** The body of the loop over the lines of the source file; [rec] is
    [self._parse_kconfig]. *)
Definition parse_line (rec : string → M string) (kconfig_source_dirname : string)
    (f_source_line : string) : M unit :=
  match directive f_source_line with
  | Some group1 =>
      let source_abspath := posixpath.join kconfig_source_dirname group1 in
      let* source_relpath := rec source_abspath in
      write (source_line source_relpath)
  | None => write f_source_line
  end.

Fixpoint parse_lines (rec : string → M string) (kconfig_source_dirname : string)
    (lines : list string) : M unit :=
  match lines with
  | [] => ret tt
  | f_source_line :: rest =>
      parse_line rec kconfig_source_dirname f_source_line ;;
      parse_lines rec kconfig_source_dirname rest
  end.

Fixpoint _parse_kconfig (fuel : nat) (kconfig_source : string) : M string :=
  match fuel with
  | 0 => fun st => (OutOfFuel, st)
  | S fuel' =>
      called kconfig_source ;;
      let* kconfig_source_relpath := _get_source_relpath kconfig_source in
      let* kconfig_parent_relpath := _get_parent_relpath kconfig_source in
      let kconfig_source_dirname := posixpath.dirname kconfig_source in
      append_source kconfig_source kconfig_parent_relpath ;;
      sys (open_r kconfig_source) ;;
      with_open_w kconfig_parent_relpath
        (fun st =>
           parse_lines (_parse_kconfig fuel') kconfig_source_dirname
             (readlines (read_text kconfig_source (os st))) st) ;;
      ret kconfig_source_relpath
  end.

Fixpoint write_headers (hs : list string) : M unit :=
  match hs with
  | [] => ret tt
  | header :: rest => write (header +:+ nl) ;; write_headers rest
  end.

Fixpoint import_loop (fuel : nat) (sources : list string) : M unit :=
  match sources with
  | [] => ret tt
  | source :: rest =>
      let* relpath := _parse_kconfig fuel source in
      write (source_line relpath) ;;
      import_loop fuel rest
  end.

Definition mainmenu_line (title : string) : string :=
  "mainmenu " +:+ dq +:+ title +:+ " Configuration" +:+ dq +:+ nl.

Definition import_sources (fuel : nat) (sources : list string) : M unit :=
  let* c := lift_result (posixpath.commonpath sources) in
  set_common_dir c ;;
  fun st =>
    with_open_w (kconfig_root (self st))
      (write_headers (headers (self st)) ;;
       write (mainmenu_line (title (self st))) ;;
       import_loop fuel sources) st.

(** The two messages [summary] hands to the logger. *)
Definition summary (k : KconfigMerge) : list string :=
  [ "Imported " +:+ pretty (length (kconfig_sources k)) +:+ " kconfig sources";
    "Generator Kconfig at " +:+ kconfig_root k ].

(** ** [main], after the command line is parsed *)

(** The loop that makes every source absolute and checks it. *)
Definition absolute (o : OS) (source : string) : string :=
  if posixpath.isabs source then source else posixpath.abspath (cwd o) source.

Fixpoint check_sources (o : OS) (sources kconfig_sources : list string)
  : result (list string) :=
  match sources with
  | [] => Ok kconfig_sources
  | source :: rest =>
      let source := absolute o source in
      if negb (exists_ o source) then Raise (Exception ("Could not find file: " +:+ source))
      else if negb (isfile o source) then Raise (Exception ("Not a file: " +:+ source))
      else check_sources o rest (kconfig_sources ++ [source])%list
  end.

(** [main] with the parsed arguments [--kconfig], [--title] and [--sources];
    it returns the state [summary] is called in. *)
Definition main (fuel : nat) (kconfig title_ : string) (sources_ : list string) (o : OS)
  : result State * OS :=
  match check_sources o sources_ [] with
  | Ok kconfig_sources_ =>
      match __init__ title_ kconfig "always" o with
      | (Ok obj, o1) =>
          let '(r, st) := import_sources fuel kconfig_sources_ (mkState obj o1 []) in
          (match r with Ok _ => Ok st | Raise e => Raise e | OutOfFuel => OutOfFuel end,
           os st)
      | (Raise e, o1) => (Raise e, o1)
      | (OutOfFuel, o1) => (OutOfFuel, o1)
      end
  | Raise e => (Raise e, o)
  | OutOfFuel => (OutOfFuel, o)
  end.

(** ** Notions used to state the properties *)

Fixpoint all_space (s : string) : bool :=
  match s with
  | EmptyString => true
  | String c r => is_space c && all_space r
  end.

Fixpoint has_dq (s : string) : bool :=
  match s with
  | EmptyString => false
  | String c r => Ascii.eqb c DQ || has_dq r
  end.

(** What follows the first double quote of [s]. *)
Fixpoint after_quote (s : string) : string :=
  match s with
  | EmptyString => EmptyString
  | String c r => if Ascii.eqb c DQ then r else after_quote r
  end.

(** The directive pattern as the specification words it: optional white space
    before the keyword, the keyword and a blank, one pair of double quotes
    around a non-empty path, and no further double quote on the line. *)
Definition spec_directive (line : string) : bool :=
  match strip_prefix "source " (skip_spaces line) with
  | Some (String c r) =>
      Ascii.eqb c DQ
      && match until_quote r with
         | Some p => negb (is_empty p) && negb (has_dq (after_quote r))
         | None => false
         end
  | _ => false
  end.

(** The destination [_get_parent_relpath] maps a source to (without the
    directory creation). *)
Definition destination (st : State) (source_path : string) : option string :=
  match posixpath.relpath (cwd (os st)) source_path (common_dir (self st)) with
  | Ok rel => Some (posixpath.join (parent_dir (self st)) rel)
  | _ => None
  end.

(** The line the transformer writes for a line of the file [kconfig_source],
    when the referenced file can be mapped. *)
Definition rewrite_line (st : State) (kconfig_source line : string) : option string :=
  match directive line with
  | Some p =>
      match posixpath.relpath (cwd (os st))
              (posixpath.join (posixpath.dirname kconfig_source) p)
              (common_dir (self st)) with
      | Ok rel => Some (source_line rel)
      | _ => None
      end
  | None => Some line
  end.

Fixpoint concat_lines (l : list string) : string :=
  match l with
  | [] => EmptyString
  | x :: r => x +:+ concat_lines r
  end.

(** The reference graph of a file system: [f] holds a directive that resolves
    to [g]. *)
Definition refers (o : OS) (f g : string) : Prop :=
  ∃ line p, line ∈ readlines (read_text f o) ∧ directive line = Some p
            ∧ g = posixpath.join (posixpath.dirname f) p.

(** The text of the file at a key. *)
Definition text_at (o : OS) (k : key) : option string :=
  match fs o !! k with
  | Some (File c) => Some c
  | _ => None
  end.

Definition banner : string := "# AUTOGENERATED FILE. DO NOT MODIFY".

(** The root file the specification describes for the relative paths [rels]. *)
Definition root_text (title : string) (rels : list string) : string :=
  banner +:+ nl +:+ mainmenu_line title +:+ concat_lines (map source_line rels).

Definition set_overwrite (ov : string) (st : State) : State :=
  let k := self st in
  set_self (mkKconfigMerge (title k) (kconfig_root k) (sources k) (parent_dir k)
              (common_dir k) ov (kconfig_sources k) (headers k)) st.

(** A fresh object in a state, as [main] builds it. *)
Definition fresh (k : KconfigMerge) (o : OS) : State := mkState k o [].

(** The steps of [_parse_kconfig] before the two files are opened for the
    copy: the path mapping, the record, and the opening of the source. *)
Definition prelude (kconfig_source : string) : M (string * string) :=
  called kconfig_source ;;
  let* kconfig_source_relpath := _get_source_relpath kconfig_source in
  let* kconfig_parent_relpath := _get_parent_relpath kconfig_source in
  append_source kconfig_source kconfig_parent_relpath ;;
  sys (open_r kconfig_source) ;;
  ret (kconfig_source_relpath, kconfig_parent_relpath).

(** The copy loop of [_parse_kconfig] on an open destination. *)
Definition copy_body (rec : string → M string) (kconfig_source : string) : M unit :=
  fun st =>
    parse_lines rec (posixpath.dirname kconfig_source)
      (readlines (read_text kconfig_source (os st))) st.

(** What no method changes: the working directory and the parameters of the
    job. *)
Definition same_config (st st' : State) : Prop :=
  cwd (os st') = cwd (os st)
  ∧ title (self st') = title (self st)
  ∧ kconfig_root (self st') = kconfig_root (self st)
  ∧ sources (self st') = sources (self st)
  ∧ parent_dir (self st') = parent_dir (self st)
  ∧ common_dir (self st') = common_dir (self st)
  ∧ overwrite (self st') = overwrite (self st)
  ∧ headers (self st') = headers (self st).

(** At key [k] the file system [f'] holds what [f] holds, or a directory that
    was created. *)
Definition kept (f f' : fsmap) (k : key) : Prop :=
  f' !! k = f !! k ∨ (f !! k = None ∧ f' !! k = Some Dir).

(** Two stacks of open files hold the same files, and differ at most in the
    text buffered for the innermost one. *)
Definition same_files (h h' : list (key * string)) : Prop :=
  match h, h' with
  | [], [] => True
  | (k, _) :: t, (k', _) :: t' => k = k' ∧ t = t'
  | _, _ => False
  end.

(** The key of the file a source is copied to. *)
Definition destination_key (st : State) (source_path : string) : option key :=
  key_of (os st) <$> destination st source_path.

(** What a run of the transformer does to a state, for the list [cs] of the
    calls of [_parse_kconfig] it makes: the calls are logged, at most one
    record is appended per call, and the file system changes only at the
    destinations of these calls (and by new directories). *)
Definition effect (st : State) (cs : list string) (st' : State) : Prop :=
  calls st' = (calls st ++ cs)%list
  ∧ (∃ recs, kconfig_sources (self st') = (kconfig_sources (self st) ++ recs)%list
             ∧ length recs ≤ length cs)
  ∧ ∀ k, (∀ s, s ∈ cs → destination_key st s ≠ Some k) →
         kept (fs (os st)) (fs (os st')) k.

(** Between two states, as many records were appended as calls were made. *)
Definition balanced (st st' : State) : Prop :=
  ∃ recs cs,
    kconfig_sources (self st') = (kconfig_sources (self st) ++ recs)%list
    ∧ calls st' = (calls st ++ cs)%list
    ∧ length recs = length cs.

(** The record [_parse_kconfig] appends for a source: the Python set of the
    source and its destination. *)
Definition record_of (st : State) (source_path : string) : option (gset string) :=
  (fun dest => ({[ source_path ]} ∪ {[ dest ]} : gset string))
    <$> destination st source_path.

(** Between two states, the records appended are those of the calls made, in
    the order of the calls. *)
Definition recorded (st st' : State) : Prop :=
  ∃ recs cs,
    kconfig_sources (self st') = (kconfig_sources (self st) ++ recs)%list
    ∧ calls st' = (calls st ++ cs)%list
    ∧ Forall2 (fun s r => record_of st s = Some r) cs recs.

(** The text of the header lines. *)
Definition headers_text (hs : list string) : string :=
  concat_lines (map (fun header => header +:+ nl) hs).

(** The state [import_sources] opens the root file in. *)
Definition with_common_dir (c : string) (st : State) : State :=
  let k := self st in
  set_self (mkKconfigMerge (title k) (kconfig_root k) (sources k) (parent_dir k)
              c (overwrite k) (kconfig_sources k) (headers k)) st.

(** The state in which the body of a [with open(path, 'w')] starts. *)
Definition opened_w (path : string) (st : State) : State :=
  set_os (mkOS (cwd (os st))
            (<[key_of (os st) path := File EmptyString]> (fs (os st)))
            ((key_of (os st) path, EmptyString) :: handles (os st))) st.

(** ** Sample worlds *)

(** A source tree [/src] with two top-level files, one of which references a
    third file twice, and an output directory [/out]. *)
Definition demo_fs : fsmap :=
  FS [
    (["out"], Dir); (["src"], Dir); (["src"; "a"], Dir); (["src"; "a"; "sub"], Dir); (["src"; "b"], Dir);
    (["src"; "a"; "Kconfig"],
     File ("config A" +:+ nl +:+ source_line "sub/x.kconfig"
           +:+ "source" +:+ dq +:+ "sub/x.kconfig" +:+ dq +:+ " # again" +:+ nl));
    (["src"; "a"; "sub"; "x.kconfig"], File ("config X" +:+ nl));
    (["src"; "b"; "Kconfig"], File ("config B" +:+ nl)) ].

Definition demo_os : OS := mkOS "/work" demo_fs [].

(** The object [main] builds for [--kconfig /out/Kconfig --title Demo], once
    [import_sources] has set the common directory of the two top-level
    files. *)
Definition demo_job : KconfigMerge :=
  mkKconfigMerge "Demo" "/out/Kconfig" [] "/out" "/src" "always" [] [banner].

(** A project whose only configuration file is rewritten in place: the root
    file is generated into the common directory. *)
Definition inplace_os : OS :=
  mkOS "/work"
    (FS [ (["p"], Dir); (["p"; "a"], Dir);
                   (["p"; "a"; "Kconfig"], File ("config FOO" +:+ nl)) ]) [].

Definition inplace_job : KconfigMerge :=
  mkKconfigMerge "Demo" "/p/Kconfig" [] "/p" "/p" "always" [] [banner].

(** A project whose top-level file has the name of the generated root file:
    with the common directory [/src] and the root file [/out/Kconfig], the
    file [/src/Kconfig] is mapped to the root file. *)
Definition clash_top : string :=
  "config TOP" +:+ nl +:+ "    bool" +:+ nl
  +:+ "    prompt Enable the top level feature of the sample project" +:+ nl
  +:+ "    default y" +:+ nl +:+ "    help" +:+ nl
  +:+ "      This help text makes the file longer than the generated root file." +:+ nl.

Definition clash_os : OS :=
  mkOS "/work"
    (FS [ (["out"], Dir); (["src"], Dir); (["src"; "a"], Dir);
          (["src"; "Kconfig"], File clash_top);
          (["src"; "a"; "Kconfig"], File ("config A" +:+ nl)) ]) [].

Definition clash_sources : list string := ["/src/Kconfig"; "/src/a/Kconfig"].

(** A project in which [/src/b/Kconfig] references a file that is not
    there. *)
Definition broken_os : OS :=
  mkOS "/work"
    (FS [ (["out"], Dir); (["src"], Dir); (["src"; "a"], Dir); (["src"; "b"], Dir);
          (["src"; "a"; "Kconfig"], File ("config A" +:+ nl));
          (["src"; "b"; "Kconfig"],
           File ("config B" +:+ nl +:+ source_line "gone.kconfig")) ]) [].

(** The exceptions that are an [OSError] in Python. *)
Definition os_error (e : exn) : bool :=
  match e with
  | FileNotFoundError _ | IsADirectoryError _ | NotADirectoryError _
  | FileExistsError _ => true
  | _ => false
  end.

(** The message of the exception [main] raises for a source that is no
    regular file. *)
Definition rejection (o : OS) (source : string) : exn :=
  Exception ((if exists_ o (absolute o source) then "Not a file: "
              else "Could not find file: ") +:+ absolute o source).

(** A computation that neither reads nor writes the overwrite policy. *)
Definition ignores_overwrite {A} (m : M A) : Prop :=
  ∀ ov st, m (set_overwrite ov st) = (fst (m st), set_overwrite ov (snd (m st))).

(** A project [/p] whose output directory [/p/b] lies inside it. The file
    [/p/d/K] references [/p/K]; [/p/b/d/K] is an empty file in the output
    directory. No file references itself, directly or not. *)
Definition loop_fs : fsmap :=
  FS [
    (["p"], Dir); (["p"; "d"], Dir); (["p"; "b"], Dir); (["p"; "b"; "d"], Dir);
    (["p"; "d"; "K"], File (source_line "../K"));
    (["p"; "K"], File EmptyString);
    (["p"; "b"; "d"; "K"], File EmptyString) ].

Definition loop_os : OS := mkOS "/work" loop_fs [].

(** The object built for [--kconfig /p/b/root --title Demo]. *)
Definition loop_job : KconfigMerge :=
  mkKconfigMerge "Demo" "/p/b/root" [] "/p/b" EmptyString "always" [] [banner].

Definition loop_sources : list string := ["/p/d/K"; "/p/b/d/K"].

(** The files of that project the import can reach, and their height in the
    reference graph. *)
Definition loop_reach (f : string) : Prop :=
  f ∈ ["/p/d/K"; "/p/d/../K"; "/p/b/d/K"].

Definition loop_rank (f : string) : nat :=
  if String.eqb f "/p/d/K" then 1 else 0.

(** The file system when the transformer is called on [/p/b/d/K]: the copy
    of [/p/d/K] has been written over that file, and in it the rewritten
    directive names the file itself. *)
Definition loop_fs0 : fsmap :=
  FS [
    (["p"], Dir); (["p"; "d"], Dir); (["p"; "b"], Dir); (["p"; "b"; "d"], Dir);
    (["p"; "d"; "K"], File (source_line "../K"));
    (["p"; "K"], File EmptyString);
    (["p"; "b"; "d"; "K"], File (source_line "K"));
    (["p"; "b"; "root"], File EmptyString);
    (["p"; "b"; "K"], File EmptyString) ].

(** The file system from the second call on [/p/b/d/K] onwards. *)
Definition loop_fs1 : fsmap :=
  FS [
    (["p"], Dir); (["p"; "d"], Dir); (["p"; "b"], Dir); (["p"; "b"; "d"], Dir);
    (["p"; "d"; "K"], File (source_line "../K"));
    (["p"; "K"], File EmptyString);
    (["p"; "b"; "d"; "K"], File (source_line "K"));
    (["p"; "b"; "root"], File EmptyString);
    (["p"; "b"; "K"], File EmptyString);
    (["p"; "b"; "b"], Dir); (["p"; "b"; "b"; "d"], Dir);
    (["p"; "b"; "b"; "d"; "K"], File EmptyString) ].

Definition looping (st : State) : Prop :=
  cwd (os st) = "/work"
  ∧ parent_dir (self st) = "/p/b"
  ∧ common_dir (self st) = "/p"
  ∧ (fs (os st) = loop_fs0 ∨ fs (os st) = loop_fs1).

(** [loop_fs0] with the directories made for the destination of
    [/p/b/d/K]. *)
Definition loop_fs_dirs : fsmap :=
  FS [
    (["p"], Dir); (["p"; "d"], Dir); (["p"; "b"], Dir); (["p"; "b"; "d"], Dir);
    (["p"; "d"; "K"], File (source_line "../K"));
    (["p"; "K"], File EmptyString);
    (["p"; "b"; "d"; "K"], File (source_line "K"));
    (["p"; "b"; "root"], File EmptyString);
    (["p"; "b"; "K"], File EmptyString);
    (["p"; "b"; "b"], Dir); (["p"; "b"; "b"; "d"], Dir) ].

(** In the state [st], the files of [R] reference nothing they did not
    reference in the file system [o0]. *)
Definition reads_within (R : string → Prop) (o0 : OS) (st : State) : Prop :=
  ∀ f g, R f → refers (os st) f g → refers o0 f g.

(** Every path reads in [o'] what it reads in [o], or nothing. *)
Definition reads_less (o o' : OS) : Prop :=
  ∀ p, read_text p o' = read_text p o ∨ read_text p o' = EmptyString.

(** A bound on the heights of the sources. *)
Definition max_rank (rank : string → nat) (srcs : list string) : nat :=
  foldr Nat.max 0 (map rank srcs).

(** The state in which [import_sources] starts its loop over the sources:
    the common directory is [c], the root file is open and holds the header
    lines and the [mainmenu] line in its buffer. *)
Definition root_opened (c : string) (st : State) : State :=
  set_os (write_top (headers_text (headers (self st)) +:+ mainmenu_line (title (self st)))
            (os (opened_w (kconfig_root (self st)) (with_common_dir c st))))
    (opened_w (kconfig_root (self st)) (with_common_dir c st)).

(** The files the import of the two top-level files of the sample tree
    reaches, and their height in the reference graph. *)
Definition demo_reach (f : string) : Prop :=
  f ∈ ["/src/a/Kconfig"; "/src/a/sub/x.kconfig"; "/src/b/Kconfig"].

Definition demo_rank (f : string) : nat :=
  if String.eqb f "/src/a/Kconfig" then 1 else 0.

(** ** Notions used to reason about paths *)

Fixpoint has_sep (s : string) : bool :=
  match s with
  | EmptyString => false
  | String c r => Ascii.eqb c SEP || has_sep r
  end.

(** The components [os.path.commonpath] keeps of a path. *)
Definition comps_of (s : string) : list string :=
  filter (fun c => c ≠ EmptyString ∧ c ≠ curdir) (split_sep s).

(** The components of a path made absolute. *)
Definition abs_comps (o : OS) (path : string) : list string :=
  if posixpath.isabs path then comps_of path
  else comps_of (cwd o) ++ comps_of path.

(** A component of a normalised path. *)
Definition plain (c : string) : Prop := c ≠ EmptyString ∧ has_sep c = false.

(** * Properties *)

(** Closes an equation between closed terms by evaluation. *)
Ltac computed :=
  lazymatch goal with
  | |- ?a = ?b => vm_cast_no_check (@eq_refl _ b)
  end.

(** ** Text *)

Lemma sapp_cons c (s t : string) : String c s +:+ t = String c (s +:+ t).
Proof. reflexivity. Qed.

Lemma sapp_nil_l (s : string) : EmptyString +:+ s = s.
Proof. reflexivity. Qed.

Lemma sapp_nil_r (s : string) : s +:+ EmptyString = s.
Proof. induction s as [|c s IH]; [done|]. by rewrite sapp_cons, IH. Qed.

Lemma sapp_assoc (s t u : string) : (s +:+ t) +:+ u = s +:+ t +:+ u.
Proof. induction s as [|c s IH]; [done|]. by rewrite !sapp_cons, IH. Qed.

Lemma is_empty_true s : is_empty s = true ↔ s = EmptyString.
Proof. by destruct s. Qed.

Lemma is_empty_false s : is_empty s = false ↔ s ≠ EmptyString.
Proof. by destruct s. Qed.

Lemma ascii_eqb_refl c : Ascii.eqb c c = true.
Proof. by apply Ascii.eqb_eq. Qed.

Lemma strip_prefix_Some pre s r : strip_prefix pre s = Some r ↔ s = pre +:+ r.
Proof.
  revert s. induction pre as [|a pre IH]; intros s; simpl.
  - rewrite sapp_nil_l. split; congruence.
  - destruct s as [|b s]; [done|]. rewrite sapp_cons.
    destruct (Ascii.eqb a b) eqn:E.
    + apply Ascii.eqb_eq in E as ->. rewrite IH. split; congruence.
    + apply Ascii.eqb_neq in E. split; [done|]. congruence.
Qed.

Lemma strip_prefix_app pre r : strip_prefix pre (pre +:+ r) = Some r.
Proof. by apply strip_prefix_Some. Qed.

Lemma skip_spaces_app ws c r :
  all_space ws = true → is_space c = false →
  skip_spaces (ws +:+ String c r) = String c r.
Proof.
  intros Hws Hc. induction ws as [|a ws IH].
  - rewrite sapp_nil_l. simpl. by rewrite Hc.
  - simpl in Hws. apply andb_prop in Hws as [Ha Hws].
    rewrite sapp_cons. simpl. rewrite Ha. auto.
Qed.

Lemma skip_spaces_split s :
  ∃ ws, s = ws +:+ skip_spaces s ∧ all_space ws = true.
Proof.
  induction s as [|c s [ws [IH1 IH2]]]; simpl.
  - by exists EmptyString.
  - destruct (is_space c) eqn:E.
    + exists (String c ws). rewrite sapp_cons, <- IH1. simpl. by rewrite E.
    + by exists EmptyString.
Qed.

Lemma until_quote_Some s p :
  until_quote s = Some p ↔ has_dq p = false ∧ ∃ rest, s = p +:+ dq +:+ rest.
Proof.
  revert p. induction s as [|c s IH]; intros p; simpl.
  - split; [done|]. intros [_ [rest H]]. destruct p; discriminate.
  - destruct (Ascii.eqb c DQ) eqn:E.
    + apply Ascii.eqb_eq in E as ->. split.
      * intros [= <-]. split; [done|]. by exists s.
      * intros [Hp [rest H]]. destruct p as [|a p]; [done|].
        rewrite sapp_cons in H. injection H as Ha _. subst a. discriminate Hp.
    + split.
      * destruct (until_quote s) as [q|] eqn:Hq; [|done]. intros [= <-].
        destruct (proj1 (IH q) eq_refl) as [Hq' [rest ->]].
        simpl. rewrite E. split; [done|].
        by exists rest.
      * intros [Hp [rest H]]. destruct p as [|a p].
        { rewrite sapp_nil_l in H. injection H as Hc _. subst c. discriminate E. }
        rewrite sapp_cons in H. injection H as Ha Hs. subst a s. simpl in Hp.
        rewrite E in Hp. simpl in Hp.
        assert (until_quote (p +:+ dq +:+ rest) = Some p) as ->; [|done].
        apply IH. eauto.
Qed.

(** The pattern of the program, spelled out. *)
Lemma match_source_Some line p :
  match_source line = Some p ↔
  has_dq p = false
  ∧ ∃ ws rest, all_space ws = true ∧ line = "source" +:+ ws +:+ dq +:+ p +:+ dq +:+ rest.
Proof.
  unfold match_source. split.
  - destruct (strip_prefix "source" line) as [r|] eqn:Hr; [|done].
    apply strip_prefix_Some in Hr as ->.
    destruct (skip_spaces_split r) as [ws [Hr Hws]].
    destruct (skip_spaces r) as [|c r2]; [done|].
    destruct (Ascii.eqb c DQ) eqn:E; [|done]. apply Ascii.eqb_eq in E as ->.
    intros [Hp [rest ->]]%until_quote_Some. split; [done|].
    exists ws, rest. split; [done|]. by rewrite Hr.
  - intros [Hp [ws [rest [Hws ->]]]]. rewrite strip_prefix_app.
    unfold dq at 1. rewrite sapp_cons, sapp_nil_l.
    rewrite skip_spaces_app by done. rewrite ascii_eqb_refl.
    apply until_quote_Some. eauto.
Qed.

Lemma directive_Some line p :
  directive line = Some p ↔
  p ≠ EmptyString ∧ has_dq p = false
  ∧ ∃ ws rest, all_space ws = true ∧ line = "source" +:+ ws +:+ dq +:+ p +:+ dq +:+ rest.
Proof.
  unfold directive. split.
  - destruct (match_source line) as [q|] eqn:Hq; [|done].
    destruct (is_empty q) eqn:E; [done|]. intros [= <-].
    apply is_empty_false in E. by apply match_source_Some in Hq as [? ?].
  - intros [Hne [Hp H]]. assert (match_source line = Some p) as ->.
    { apply match_source_Some. eauto. }
    apply is_empty_false in Hne. by rewrite Hne.
Qed.

(** A line that is no directive is written as it is, and nothing else
    happens. *)
Lemma parse_line_plain rec dir line st :
  directive line = None →
  parse_line rec dir line st = (Ok tt, set_os (write_top line (os st)) st).
Proof. intros H. unfold parse_line. by rewrite H. Qed.

(** A directive line makes one recursive call and writes the rewritten
    line. *)
Lemma parse_line_directive rec dir line p st rel st1 :
  directive line = Some p →
  rec (posixpath.join dir p) st = (Ok rel, st1) →
  parse_line rec dir line st
  = (Ok tt, set_os (write_top (source_line rel) (os st1)) st1).
Proof. intros H Hrec. unfold parse_line, bind. by rewrite H, Hrec. Qed.

(** C2, as the specification states it, fails: an indented directive matches
    the specification's pattern, and for the program it is no directive but
    a line to be copied unchanged. *)
Lemma directive_not_spec_pattern :
  let line := "  source " +:+ dq +:+ "a" +:+ dq +:+ nl in
  spec_directive line = true
  ∧ directive line = None
  ∧ (∀ rec dir st,
       parse_line rec dir line st = (Ok tt, set_os (write_top line (os st)) st))
  ∧ ¬ (∀ l, is_Some (directive l) ↔ spec_directive l = true).
Proof.
  assert (directive ("  source " +:+ dq +:+ "a" +:+ dq +:+ nl) = None) as E
    by reflexivity.
  cbn zeta. split; [reflexivity|]. split; [exact E|]. split.
  - intros rec dir st. by apply parse_line_plain.
  - intros H. destruct (H ("  source " +:+ dq +:+ "a" +:+ dq +:+ nl)) as [_ H2].
    destruct H2 as [p Hp]; [reflexivity|]. rewrite E in Hp. discriminate.
Qed.

(** C2 (amended): a line is a reference directive exactly when it starts with
    the keyword [source], followed by any run of white space, a double quote, a
    non-empty path without double quote, and a closing double quote; what
    follows is free. Every other line is written to the destination unchanged
    and raises nothing. *)
Theorem directive_iff_pattern line :
  (∀ p, directive line = Some p ↔
        p ≠ EmptyString ∧ has_dq p = false
        ∧ ∃ ws rest, all_space ws = true
                     ∧ line = "source" +:+ ws +:+ dq +:+ p +:+ dq +:+ rest)
  ∧ (directive line = None →
     ∀ rec dir st,
       parse_line rec dir line st = (Ok tt, set_os (write_top line (os st)) st)).
Proof.
  split.
  - intros p. apply directive_Some.
  - intros H rec dir st. by apply parse_line_plain.
Qed.

Lemma directive_iff_pattern_witness :
  let line := "source " +:+ dq +:+ dq +:+ nl in
  directive line = None
  ∧ ∀ rec dir st,
      parse_line rec dir line st = (Ok tt, set_os (write_top line (os st)) st).
Proof.
  split; [reflexivity|].
  apply (proj2 (directive_iff_pattern ("source " +:+ dq +:+ dq +:+ nl))).
  reflexivity.
Defined.

(** C9: a line that starts with [source], a blank and a quoted non-empty path
    is a directive whatever follows the closing quote, and what follows is
    dropped: the line written is the rewritten directive and a line feed. *)
Theorem directive_suffix_dropped p suffix :
  p ≠ EmptyString → has_dq p = false →
  let line := "source " +:+ dq +:+ p +:+ dq +:+ suffix in
  directive line = Some p
  ∧ ∀ rec dir st rel st1,
      rec (posixpath.join dir p) st = (Ok rel, st1) →
      parse_line rec dir line st
      = (Ok tt, set_os (write_top ("source " +:+ dq +:+ rel +:+ dq +:+ nl) (os st1)) st1).
Proof.
  intros Hne Hp line.
  assert (directive line = Some p) as Hd.
  { apply directive_Some. split; [done|]. split; [done|].
    exists " ", suffix. split; [reflexivity|]. reflexivity. }
  split; [done|]. intros rec dir st rel st1 Hrec.
  by apply parse_line_directive with (p := p).
Qed.

Lemma directive_suffix_dropped_witness :
  directive ("source " +:+ dq +:+ "lib/Kconfig" +:+ dq +:+ " # vendor tree" +:+ nl)
  = Some "lib/Kconfig".
Proof.
  apply (directive_suffix_dropped "lib/Kconfig" (" # vendor tree" +:+ nl)).
  - discriminate.
  - reflexivity.
Defined.

(** ** The file system *)

Lemma key_eqb_eq a b : key_eqb a b = true ↔ a = b.
Proof.
  revert b. induction a as [|x a IH]; intros [|y b]; simpl; try done.
  rewrite andb_true_iff, IH, String.eqb_eq. split; [by intros [-> ->]|].
  by intros [= -> ->].
Qed.

Lemma fs_lookup_insert_eq (m : fsmap) k v : <[k := v]> m !! k = Some v.
Proof.
  destruct m as [l]. unfold lookup, insert, fsmap_lookup, fsmap_insert. cbn [entries].
  induction l as [|[k' v'] l IH]; cbn [entries_insert entries_lookup].
  - by rewrite (proj2 (key_eqb_eq k k) eq_refl).
  - destruct (key_eqb k' k) eqn:E; cbn [entries_lookup].
    + by rewrite (proj2 (key_eqb_eq k k) eq_refl).
    + by rewrite E.
Qed.

Lemma fs_lookup_insert_ne (m : fsmap) k k' v : k ≠ k' → <[k := v]> m !! k' = m !! k'.
Proof.
  intros Hne. destruct m as [l].
  unfold lookup, insert, fsmap_lookup, fsmap_insert. cbn [entries].
  assert (key_eqb k k' = false) as Hk.
  { destruct (key_eqb k k') eqn:E; [|done]. by apply key_eqb_eq in E. }
  induction l as [|[k0 v0] l IH]; cbn [entries_insert entries_lookup].
  - by rewrite Hk.
  - destruct (key_eqb k0 k) eqn:E; cbn [entries_lookup].
    + apply key_eqb_eq in E as ->. by rewrite Hk.
    + by rewrite IH.
Qed.

Lemma kept_refl f k : kept f f k.
Proof. by left. Qed.

Lemma kept_trans f1 f2 f3 k : kept f1 f2 k → kept f2 f3 k → kept f1 f3 k.
Proof.
  intros [H1|[H1 H1']] [H2|[H2 H2']].
  - left. congruence.
  - right. split; congruence.
  - right. split; congruence.
  - congruence.
Qed.

Lemma kept_file f f' k c : kept f f' k → f !! k = Some (File c) → f' !! k = Some (File c).
Proof. intros [H|[H _]] Hk; congruence. Qed.

Lemma kept_file_inv f f' k c : kept f f' k → f' !! k = Some (File c) → f !! k = Some (File c).
Proof. intros [H|[_ H]] Hk; congruence. Qed.

Lemma kept_lookup_key_file f f' k c :
  kept f f' k → lookup_key f' k = Some (File c) ↔ lookup_key f k = Some (File c).
Proof.
  intros H. destruct k as [|x k]; [done|]. simpl. split.
  - by apply kept_file_inv.
  - by apply kept_file.
Qed.

Lemma lookup_key_insert_ne f k k' v :
  k ≠ k' → lookup_key (<[k := v]> f) k' = lookup_key f k'.
Proof.
  intros H. destruct k'; [done|]. cbn [lookup_key]. by rewrite fs_lookup_insert_ne.
Qed.

Lemma node_at_None_lookup o name :
  is_empty name = false → node_at o name = None → fs o !! key_of o name = None.
Proof.
  unfold node_at. intros -> H. destruct (key_of o name); [done|]. apply H.
Qed.

Lemma mkdir_effect name o r o' :
  mkdir name o = (r, o') →
  cwd o' = cwd o ∧ handles o' = handles o ∧ ∀ k, kept (fs o) (fs o') k.
Proof.
  unfold mkdir. intros H.
  destruct (node_at o name) as [nd|] eqn:Hn.
  { injection H as _ <-. auto using kept_refl. }
  destruct (is_empty name) eqn:He.
  { injection H as _ <-. auto using kept_refl. }
  destruct (lookup_key (fs o) (removelast (key_of o name))) as [[c|]|];
    injection H as _ <-; auto using kept_refl.
  simpl. split; [done|]. split; [done|]. intros k.
  destruct (decide (k = key_of o name)) as [->|Hk].
  - right. split; [by apply node_at_None_lookup|]. by rewrite fs_lookup_insert_eq.
  - left. by rewrite fs_lookup_insert_ne.
Qed.

Lemma mkdir_exist_ok_effect name o r o' :
  mkdir_exist_ok name o = (r, o') →
  cwd o' = cwd o ∧ handles o' = handles o ∧ (∀ k, kept (fs o) (fs o') k)
  ∧ r ≠ OutOfFuel.
Proof.
  unfold mkdir_exist_ok. destruct (mkdir name o) as [[u|e|] o2] eqn:Hm.
  - intros [= <- <-]. apply mkdir_effect in Hm as (? & ? & ?). auto.
  - apply mkdir_effect in Hm as (? & ? & ?).
    destruct (isdir o2 name); intros [= <- <-]; auto.
  - exfalso. revert Hm. unfold mkdir.
    destruct (node_at o name); [done|]. destruct (is_empty name); [done|].
    by destruct (lookup_key (fs o) (removelast (key_of o name))) as [[c|]|].
Qed.

Lemma makedirs_rec_effect n name o r o' :
  makedirs_rec n name o = (r, o') →
  cwd o' = cwd o ∧ handles o' = handles o ∧ (∀ k, kept (fs o) (fs o') k)
  ∧ r ≠ OutOfFuel.
Proof.
  revert name o r o'. induction n as [|n IH]; intros name o r o';
    cbn [makedirs_rec]; destruct (makedirs_split name) as [h t];
    destruct (negb (is_empty h) && negb (is_empty t) && negb (exists_ o h));
    try apply mkdir_exist_ok_effect.
  destruct (makedirs_rec n h o) as [r1 o1] eqn:Hrec.
  apply IH in Hrec as (Hc1 & Hh1 & Hk1 & Hr1).
  assert (∀ r2 o2,
            (if String.eqb t curdir then (Ok tt, o1) else mkdir_exist_ok name o1)
            = (r2, o2) →
            cwd o2 = cwd o ∧ handles o2 = handles o ∧ (∀ k, kept (fs o) (fs o2) k)
            ∧ r2 ≠ OutOfFuel) as Hfin.
  { intros r2 o2. destruct (String.eqb t curdir).
    - by intros [= <- <-].
    - intros (Hc & Hh & Hk & Hr)%mkdir_exist_ok_effect.
      split; [congruence|]. split; [congruence|]. split; [|done].
      intros k. eapply kept_trans; eauto. }
  destruct r1 as [u|e|]; [apply Hfin| |done].
  destruct e; try (by intros [= <- <-]); apply Hfin.
Qed.

Lemma makedirs_effect name o r o' :
  makedirs name o = (r, o') →
  cwd o' = cwd o ∧ handles o' = handles o ∧ (∀ k, kept (fs o) (fs o') k)
  ∧ r ≠ OutOfFuel.
Proof. apply makedirs_rec_effect. Qed.

Lemma open_r_effect path o r o' : open_r path o = (r, o') → o' = o ∧ r ≠ OutOfFuel.
Proof.
  unfold open_r. destruct (node_at o path) as [[c|]|]; by intros [= <- <-].
Qed.

Lemma open_r_ok path o u o' :
  open_r path o = (Ok u, o') → o' = o ∧ isfile o path = true.
Proof.
  unfold open_r, isfile. destruct (node_at o path) as [[c|]|]; intros [=]; by subst.
Qed.

(** Opening for writing: either it fails and nothing changes, or the file is
    empty afterwards and its file object is the innermost one. *)
Lemma open_w_cases path o r o' :
  open_w path o = (r, o') →
  (∃ e, r = Raise e ∧ o' = o)
  ∨ (r = Ok tt
     ∧ o' = mkOS (cwd o) (<[key_of o path := File EmptyString]> (fs o))
              ((key_of o path, EmptyString) :: handles o)
     ∧ ∀ k, k ≠ key_of o path → kept (fs o) (fs o') k).
Proof.
  unfold open_w. intros H.
  assert (∀ k, k ≠ key_of o path →
               kept (fs o) (<[key_of o path := File EmptyString]> (fs o)) k) as Hk.
  { intros k Hne. left. by rewrite fs_lookup_insert_ne. }
  destruct (node_at o path) as [[c|]|].
  - injection H as <- <-. right. eauto.
  - injection H as <- <-. left. eauto.
  - destruct (is_empty path).
    { injection H as <- <-. left. eauto. }
    destruct (lookup_key (fs o) (removelast (key_of o path))) as [[c|]|];
      injection H as <- <-; eauto.
Qed.

(** ** Paths *)

Lemma common_loop_not_out_of_fuel s1 s2 : posixpath.common_loop s1 s2 ≠ OutOfFuel.
Proof.
  revert s2. induction s1 as [|c r1 IH]; intros s2; simpl; [done|].
  destruct s2 as [|c2 r2]; [done|]. destruct (String.eqb c c2); [|done].
  specialize (IH r2). by destruct (posixpath.common_loop r1 r2).
Qed.

Lemma relpath_not_out_of_fuel cwd path start :
  posixpath.relpath cwd path start ≠ OutOfFuel.
Proof.
  unfold posixpath.relpath, posixpath.commonprefix2.
  destruct (is_empty path); [done|].
  match goal with |- context [posixpath.common_loop ?a ?b] =>
    pose proof (common_loop_not_out_of_fuel a b) as H;
    destruct (posixpath.common_loop a b) as [pre|e|]
  end; [|done|done].
  by match goal with |- context [match ?l with [] => _ | _ :: _ => _ end] =>
    destruct l end.
Qed.

Lemma commonpath_not_out_of_fuel paths : posixpath.commonpath paths ≠ OutOfFuel.
Proof.
  unfold posixpath.commonpath. destruct paths as [|p0 ps]; [done|].
  match goal with |- context [if ?b then _ else _] => destruct b end; [done|].
  cbn zeta.
  match goal with |- context [posixpath.common_loop ?a ?b] =>
    pose proof (common_loop_not_out_of_fuel a b) as H;
    by destruct (posixpath.common_loop a b) as [pre|e|]
  end.
Qed.

(** ** The monad *)

Lemma bind_inv {A B} (m : M A) (k : A → M B) st r st' :
  bind m k st = (r, st') →
  (∃ a st1, m st = (Ok a, st1) ∧ k a st1 = (r, st'))
  ∨ (∃ e, m st = (Raise e, st') ∧ r = Raise e)
  ∨ (m st = (OutOfFuel, st') ∧ r = OutOfFuel).
Proof.
  unfold bind. destruct (m st) as [[a|e|] st1].
  - intros H. left. eauto.
  - intros [= <- <-]. right. left. eauto.
  - intros [= <- <-]. right. right. eauto.
Qed.

(** ** Configuration and open files *)

Lemma same_config_refl st : same_config st st.
Proof. by repeat split. Qed.

Lemma same_config_trans st1 st2 st3 :
  same_config st1 st2 → same_config st2 st3 → same_config st1 st3.
Proof.
  unfold same_config. intros (?&?&?&?&?&?&?&?) (?&?&?&?&?&?&?&?).
  repeat split; congruence.
Qed.

Lemma same_config_set_os o st :
  cwd o = cwd (os st) → same_config st (set_os o st).
Proof. intros H. by repeat split. Qed.

Lemma same_files_refl h : same_files h h.
Proof. by destruct h as [|[k b] t]. Qed.

Lemma same_files_trans h1 h2 h3 :
  same_files h1 h2 → same_files h2 h3 → same_files h1 h3.
Proof.
  destruct h1 as [|[k1 b1] t1], h2 as [|[k2 b2] t2], h3 as [|[k3 b3] t3];
    simpl; try done. intros [-> ->] [-> ->]. done.
Qed.

Lemma same_files_write text o : same_files (handles o) (handles (write_top text o)).
Proof.
  unfold write_top. destruct (handles o) as [|[k b] t] eqn:E; simpl; by rewrite ?E.
Qed.

Lemma write_top_cwd text o : cwd (write_top text o) = cwd o.
Proof. unfold write_top. by destruct (handles o) as [|[k b] t]. Qed.

Lemma write_top_fs text o : fs (write_top text o) = fs o.
Proof. unfold write_top. by destruct (handles o) as [|[k b] t]. Qed.

Lemma close_top_cwd o : cwd (close_top o) = cwd o.
Proof. unfold close_top. by destruct (handles o) as [|[k b] t]. Qed.

Lemma with_open_w_inv {A} dest (body : M A) st r st' :
  with_open_w dest body st = (r, st') →
  (∃ e, r = Raise e ∧ st' = st)
  ∨ (∃ st2,
       body (set_os (mkOS (cwd (os st))
                       (<[key_of (os st) dest := File EmptyString]> (fs (os st)))
                       ((key_of (os st) dest, EmptyString) :: handles (os st))) st)
       = (r, st2)
       ∧ st' = set_os (close_top (os st2)) st2).
Proof.
  unfold with_open_w, sys. destruct (open_w dest (os st)) as [ro o1] eqn:Ho.
  apply open_w_cases in Ho as [(e & -> & ->)|(-> & -> & _)].
  - intros [= <- <-]. left. exists e. by destruct st.
  - destruct (body _) as [rb st2] eqn:Hb. intros [= <- <-]. right. eauto.
Qed.

(** [_parse_kconfig] with fuel left, in two stages. *)
Lemma parse_kconfig_S n f st :
  _parse_kconfig (S n) f st =
  match prelude f st with
  | (Ok (rel, dest), st1) =>
      match with_open_w dest (copy_body (_parse_kconfig n) f) st1 with
      | (Ok _, st2) => (Ok rel, st2)
      | (Raise e, st2) => (Raise e, st2)
      | (OutOfFuel, st2) => (OutOfFuel, st2)
      end
  | (Raise e, st1) => (Raise e, st1)
  | (OutOfFuel, st1) => (OutOfFuel, st1)
  end.
Proof.
  cbn [_parse_kconfig]. unfold prelude, bind, ret. cbn beta.
  destruct (called f st) as [[u|e|] st0]; [|done|done].
  destruct (_get_source_relpath f st0) as [[rel|e|] st1]; [|done|done].
  destruct (_get_parent_relpath f st1) as [[dest|e|] st2]; [|done|done].
  destruct (append_source f dest st2) as [[u2|e|] st3]; [|done|done].
  destruct (sys (open_r f) st3) as [[u3|e|] st4]; [|done|done].
  fold (copy_body (_parse_kconfig n) f).
  by destruct (with_open_w dest (copy_body (_parse_kconfig n) f) st4) as [[u4|e|] st5].
Qed.

Lemma prelude_effect f st r st1 :
  prelude f st = (r, st1) →
  same_config st st1
  ∧ handles (os st1) = handles (os st)
  ∧ calls st1 = (calls st ++ [f])%list
  ∧ (∀ k, kept (fs (os st)) (fs (os st1)) k)
  ∧ match r with
    | Ok (rel, dest) =>
        posixpath.relpath (cwd (os st)) f (common_dir (self st)) = Ok rel
        ∧ dest = posixpath.join (parent_dir (self st)) rel
        ∧ kconfig_sources (self st1)
          = (kconfig_sources (self st) ++ [ {[ f ]} ∪ {[ dest ]} ])%list
        ∧ isfile (os st1) f = true
    | Raise _ =>
        ∃ recs, kconfig_sources (self st1) = (kconfig_sources (self st) ++ recs)%list
                ∧ length recs ≤ 1
    | OutOfFuel => False
    end.
Proof.
  unfold prelude, bind, called, _get_parent_relpath, _get_source_relpath, bind,
    append_source, sys, ret. cbn beta iota. cbn [os self calls set_os set_self].
  destruct (posixpath.relpath (cwd (os st)) f (common_dir (self st)))
    as [rel|e|] eqn:Hrel.
  - destruct (makedirs (posixpath.dirname
                (posixpath.join (parent_dir (self st)) rel)) (os st))
      as [rm o1] eqn:Hm. cbn [os self calls set_os set_self].
    apply makedirs_effect in Hm as (Hc & Hh & Hk & Hne).
    destruct rm as [u|e|]; [| |done].
    + cbn [os self calls set_os set_self].
      destruct (open_r f o1) as [ro o2] eqn:Ho.
      pose proof (open_r_effect _ _ _ _ Ho) as [-> Hro].
      destruct ro as [u2|e|]; [| |done].
      * intros [= <- <-]. cbn. apply open_r_ok in Ho as [_ Ho].
        repeat split; try done.
      * intros [= <- <-]. cbn. repeat split; try done.
        exists [ {[ f ]} ∪ {[ posixpath.join (parent_dir (self st)) rel ]} ].
        split; [done|]. simpl. lia.
    + intros [= <- <-]. cbn. repeat split; try done.
      exists []. split; [by rewrite app_nil_r|]. simpl. lia.
  - intros [= <- <-]. cbn. repeat split; auto using kept_refl.
    exists []. split; [by rewrite app_nil_r|]. simpl. lia.
  - by apply relpath_not_out_of_fuel in Hrel.
Qed.

Lemma close_top_handles o k b hs :
  handles o = (k, b) :: hs → handles (close_top o) = hs.
Proof. unfold close_top. by intros ->. Qed.

Lemma same_files_top k b hs h :
  same_files ((k, b) :: hs) h → ∃ b', h = (k, b') :: hs.
Proof. destruct h as [|[k' b'] t]; [done|]. intros [-> ->]. eauto. Qed.

Lemma write_config text st :
  same_config st (set_os (write_top text (os st)) st).
Proof. apply same_config_set_os, write_top_cwd. Qed.

Section config.

Variable rec : string → M string.
Hypothesis rec_config : ∀ f st r st',
  rec f st = (r, st') → same_config st st' ∧ handles (os st') = handles (os st).

Lemma parse_line_config dir line st r st' :
  parse_line rec dir line st = (r, st') →
  same_config st st' ∧ same_files (handles (os st)) (handles (os st')).
Proof.
  unfold parse_line. destruct (directive line) as [p|].
  - intros [(rel & st1 & Hrec & Hw)|[(e & Hrec & ->)|[Hrec ->]]]%bind_inv.
    + apply rec_config in Hrec as [Hc Hh]. injection Hw as <- <-.
      split; [eapply same_config_trans; [done|apply write_config]|].
      cbn. rewrite <- Hh. apply same_files_write.
    + apply rec_config in Hrec as [Hc Hh]. split; [done|].
      rewrite Hh. apply same_files_refl.
    + apply rec_config in Hrec as [Hc Hh]. split; [done|].
      rewrite Hh. apply same_files_refl.
  - intros [= <- <-]. split; [apply write_config|]. apply same_files_write.
Qed.

Lemma parse_lines_config dir lines st r st' :
  parse_lines rec dir lines st = (r, st') →
  same_config st st' ∧ same_files (handles (os st)) (handles (os st')).
Proof.
  revert st. induction lines as [|line lines IH]; intros st; cbn [parse_lines].
  - intros [= <- <-]. split; [apply same_config_refl|apply same_files_refl].
  - intros [(u & st1 & Hl & Hrest)|[(e & Hl & ->)|[Hl ->]]]%bind_inv.
    + apply parse_line_config in Hl as [Hc Hh]. apply IH in Hrest as [Hc' Hh'].
      split; [by eapply same_config_trans|by eapply same_files_trans].
    + by apply parse_line_config in Hl.
    + by apply parse_line_config in Hl.
Qed.

End config.

(** [_parse_kconfig] leaves the configuration and the stack of open files as
    it found them, whatever the outcome. *)
Lemma parse_kconfig_config n f st r st' :
  _parse_kconfig n f st = (r, st') →
  same_config st st' ∧ handles (os st') = handles (os st).
Proof.
  revert f st r st'. induction n as [|n IH]; intros f st r st'.
  { intros [= <- <-]. split; [apply same_config_refl|done]. }
  rewrite parse_kconfig_S. destruct (prelude f st) as [rp st1] eqn:Hp.
  apply prelude_effect in Hp as (Hc1 & Hh1 & _ & _ & Hr).
  destruct rp as [[rel dest]|e|]; [| by intros [= <- <-] | done].
  destruct (with_open_w dest (copy_body (_parse_kconfig n) f) st1) as [rb st2] eqn:Hb.
  intros Hres. assert (st' = st2) as -> by (destruct rb; congruence). clear Hres.
  apply with_open_w_inv in Hb as [(e & -> & ->)|(st3 & Hb & ->)]; [done|].
  unfold copy_body in Hb.
  apply (parse_lines_config _ IH) in Hb as [Hc3 Hh3].
  cbn [handles os set_os] in Hh3.
  apply same_files_top in Hh3 as [b' Hh3].
  split.
  - eapply same_config_trans; [apply Hc1|].
    eapply same_config_trans; [|eapply same_config_trans; [apply Hc3|]].
    + by apply same_config_set_os.
    + apply same_config_set_os, close_top_cwd.
  - cbn. by rewrite (close_top_handles _ _ _ _ Hh3).
Qed.

(** What [_parse_kconfig] returns is the path of its argument relative to the
    common directory. *)
Lemma parse_kconfig_result n f st rel st' :
  _parse_kconfig n f st = (Ok rel, st') →
  posixpath.relpath (cwd (os st)) f (common_dir (self st)) = Ok rel.
Proof.
  destruct n as [|n]; [done|]. rewrite parse_kconfig_S.
  destruct (prelude f st) as [rp st1] eqn:Hp.
  apply prelude_effect in Hp as (_ & _ & _ & _ & Hr).
  destruct rp as [[rel' dest]|e|]; [|done|done]. destruct Hr as (Hr & _).
  destruct (with_open_w dest (copy_body (_parse_kconfig n) f) st1) as [[u|e|] st2];
    [|done|done].
  by intros [= <- <-].
Qed.

(** ** Calls, records and the frame of the file system *)

Lemma destination_same_config st st' s :
  same_config st st' → destination st' s = destination st s.
Proof.
  intros (Hc & _ & _ & _ & Hp & Hd & _). unfold destination.
  by rewrite Hc, Hp, Hd.
Qed.

Lemma destination_key_same_config st st' s :
  same_config st st' → destination_key st' s = destination_key st s.
Proof.
  intros H. unfold destination_key. rewrite (destination_same_config _ _ _ H).
  destruct H as (Hc & _). unfold key_of. by rewrite Hc.
Qed.

Lemma effect_refl st : effect st [] st.
Proof.
  split; [by rewrite app_nil_r|]. split.
  - exists []. by rewrite app_nil_r.
  - intros k _. apply kept_refl.
Qed.

Lemma effect_trans st cs1 st1 cs2 st2 :
  same_config st st1 → effect st cs1 st1 → effect st1 cs2 st2 →
  effect st (cs1 ++ cs2) st2.
Proof.
  intros Hc (Hc1 & (r1 & Hr1 & Hl1) & Hk1) (Hc2 & (r2 & Hr2 & Hl2) & Hk2).
  split; [by rewrite Hc2, Hc1, app_assoc|]. split.
  - exists (r1 ++ r2). rewrite Hr2, Hr1, app_assoc. split; [done|].
    rewrite !length_app. lia.
  - intros k Hk. eapply kept_trans.
    + apply Hk1. intros s Hs. apply Hk. apply elem_of_app. by left.
    + apply Hk2. intros s Hs. rewrite (destination_key_same_config _ _ _ Hc).
      apply Hk. apply elem_of_app. by right.
Qed.

(** Writing to the innermost open file changes no file, call or record. *)
Lemma effect_write text st : effect st [] (set_os (write_top text (os st)) st).
Proof.
  split; [by rewrite app_nil_r|]. split.
  - exists []. by rewrite app_nil_r.
  - intros k _. cbn. rewrite write_top_fs. apply kept_refl.
Qed.

Lemma close_top_kept o k b hs k' :
  handles o = (k, b) :: hs → k' ≠ k → kept (fs o) (fs (close_top o)) k'.
Proof.
  intros Hh Hne. unfold close_top. rewrite Hh. cbn. left.
  by rewrite fs_lookup_insert_ne.
Qed.

Section effect.

Variable rec : string → M string.
Hypothesis rec_config : ∀ f st r st',
  rec f st = (r, st') → same_config st st' ∧ handles (os st') = handles (os st).
Hypothesis rec_effect : ∀ f st r st',
  rec f st = (r, st') → ∃ cs, effect st cs st'.

Lemma parse_line_effect dir line st r st' :
  parse_line rec dir line st = (r, st') → ∃ cs, effect st cs st'.
Proof.
  unfold parse_line. destruct (directive line) as [p|].
  - intros [(rel & st1 & Hrec & Hw)|[(e & Hrec & ->)|[Hrec ->]]]%bind_inv;
      [|by eapply rec_effect..].
    pose proof (rec_config _ _ _ _ Hrec) as [Hc _].
    apply rec_effect in Hrec as [cs He]. injection Hw as <- <-.
    exists (cs ++ []). eapply effect_trans; [done..|apply effect_write].
  - intros [= <- <-]. exists []. apply effect_write.
Qed.

Lemma parse_lines_effect dir lines st r st' :
  parse_lines rec dir lines st = (r, st') → ∃ cs, effect st cs st'.
Proof.
  revert st. induction lines as [|line lines IH]; intros st; cbn [parse_lines].
  - intros [= <- <-]. exists []. apply effect_refl.
  - intros [(u & st1 & Hl & Hrest)|[(e & Hl & ->)|[Hl ->]]]%bind_inv;
      [|by eapply parse_line_effect..].
    pose proof (parse_line_config _ rec_config _ _ _ _ _ Hl) as [Hc _].
    apply parse_line_effect in Hl as [cs1 H1]. apply IH in Hrest as [cs2 H2].
    exists (cs1 ++ cs2). by eapply effect_trans.
Qed.

End effect.

Lemma prelude_destination f st rel dest st1 :
  prelude f st = (Ok (rel, dest), st1) → destination st f = Some dest.
Proof.
  intros (_ & _ & _ & _ & Hrel & -> & _)%prelude_effect.
  unfold destination. by rewrite Hrel.
Qed.

(** The effect of the prelude: one call, at most one record, only new
    directories. *)
Lemma prelude_is_effect f st r st1 :
  prelude f st = (r, st1) → effect st [f] st1.
Proof.
  intros (_ & _ & Hcalls & Hk & Hr)%prelude_effect.
  split; [done|]. split; [|by intros k _].
  destruct r as [[rel dest]|e|]; [|done|done].
  destruct Hr as (_ & _ & -> & _). exists [ {[ f ]} ∪ {[ dest ]} ]. split; [done|].
  simpl. lia.
Qed.

Lemma parse_kconfig_effect n f st r st' :
  _parse_kconfig n f st = (r, st') → ∃ cs, effect st cs st'.
Proof.
  revert f st r st'. induction n as [|n IH]; intros f st r st'.
  { intros [= <- <-]. exists []. apply effect_refl. }
  rewrite parse_kconfig_S. destruct (prelude f st) as [rp st1] eqn:Hp.
  pose proof (prelude_is_effect _ _ _ _ Hp) as He1.
  pose proof (prelude_effect _ _ _ _ Hp) as (Hc1 & Hh1 & _ & _ & Hr).
  destruct rp as [[rel dest]|e|]; [| intros [= <- <-]; eauto | done].
  apply prelude_destination in Hp.
  destruct (with_open_w dest (copy_body (_parse_kconfig n) f) st1) as [rb st2] eqn:Hb.
  intros Hres. assert (st' = st2) as -> by (destruct rb; congruence). clear Hres.
  apply with_open_w_inv in Hb as [(e & -> & ->)|(st3 & Hb & ->)]; [eauto|].
  unfold copy_body in Hb.
  pose proof (parse_lines_config _ (parse_kconfig_config n) _ _ _ _ _ Hb) as [Hc3 Hh3].
  cbn [handles os set_os] in Hh3. apply same_files_top in Hh3 as [b' Hh3].
  apply (parse_lines_effect _ (parse_kconfig_config n) IH) in Hb
    as (cs & Hcs & (recs & Hrecs & Hlen) & Hk).
  destruct He1 as (Hcalls1 & (recs1 & Hrecs1 & Hlen1) & Hk1).
  assert (same_config st
            (set_os (mkOS (cwd (os st1))
                       (<[key_of (os st1) dest := File EmptyString]> (fs (os st1)))
                       ((key_of (os st1) dest, EmptyString) :: handles (os st1))) st1))
    as Hc2.
  { eapply same_config_trans; [apply Hc1|]. by apply same_config_set_os. }
  assert (destination_key st f = Some (key_of (os st1) dest)) as Hdk.
  { unfold destination_key. rewrite Hp. cbn. f_equal. unfold key_of.
    by destruct Hc1 as [-> _]. }
  exists (f :: cs). split; [|split].
  - cbn [calls set_os]. rewrite Hcs. cbn [calls set_os]. rewrite Hcalls1.
    by rewrite <- app_assoc.
  - exists (recs1 ++ recs). cbn [self set_os]. rewrite Hrecs. cbn [self set_os].
    rewrite Hrecs1, <- app_assoc. split; [done|].
    rewrite length_app. simpl in *. lia.
  - intros k Hne.
    assert (k ≠ key_of (os st1) dest) as Hkd.
    { intros ->. apply (Hne f); [by left|done]. }
    cbn [os set_os fs]. eapply kept_trans.
    { apply Hk1. intros s' Hs'. apply Hne. apply list_elem_of_singleton in Hs'.
      subst s'. by left. }
    eapply kept_trans; [|eapply kept_trans].
    + left. apply (fs_lookup_insert_ne (fs (os st1))). exact (not_eq_sym Hkd).
    + apply Hk. intros s' Hs'. rewrite (destination_key_same_config _ _ _ Hc2).
      apply Hne. by right.
    + by eapply close_top_kept.
Qed.

(** ** One record per call *)

Lemma balanced_refl st : balanced st st.
Proof. exists [], []. by rewrite !app_nil_r. Qed.

Lemma balanced_trans st1 st2 st3 :
  balanced st1 st2 → balanced st2 st3 → balanced st1 st3.
Proof.
  intros (r1 & c1 & Hr1 & Hc1 & Hl1) (r2 & c2 & Hr2 & Hc2 & Hl2).
  exists (r1 ++ r2), (c1 ++ c2). rewrite Hr2, Hr1, Hc2, Hc1, !app_assoc.
  split; [done|]. split; [done|]. rewrite !length_app. lia.
Qed.

Lemma balanced_set_os o st : balanced st (set_os o st).
Proof. exists [], []. cbn. by rewrite !app_nil_r. Qed.

Section records.

Variable rec : string → M string.
Hypothesis rec_balanced : ∀ f st rel st',
  rec f st = (Ok rel, st') → balanced st st'.

Lemma parse_line_balanced dir line st st' :
  parse_line rec dir line st = (Ok tt, st') → balanced st st'.
Proof.
  unfold parse_line. destruct (directive line) as [p|].
  - intros [(rel & st1 & Hrec & Hw)|[(e & _ & ?)|[_ ?]]]%bind_inv; [|done..].
    injection Hw as <-. eapply balanced_trans; [by eapply rec_balanced|].
    apply balanced_set_os.
  - intros [= <-]. apply balanced_set_os.
Qed.

Lemma parse_lines_balanced dir lines st st' :
  parse_lines rec dir lines st = (Ok tt, st') → balanced st st'.
Proof.
  revert st. induction lines as [|line lines IH]; intros st; cbn [parse_lines].
  - intros [= <-]. apply balanced_refl.
  - intros [([] & st1 & Hl & Hrest)|[(e & _ & ?)|[_ ?]]]%bind_inv; [|done..].
    eapply balanced_trans; [by eapply parse_line_balanced|by apply IH].
Qed.

End records.

(** A call that returns has appended its own record, of the source and its
    destination, before the records of the calls it made, and as many records
    as calls in all. *)
Lemma parse_kconfig_records n f st rel st' :
  _parse_kconfig n f st = (Ok rel, st') →
  ∃ dest recs cs,
    destination st f = Some dest
    ∧ kconfig_sources (self st')
      = (kconfig_sources (self st) ++ ({[ f ]} ∪ {[ dest ]}) :: recs)%list
    ∧ calls st' = (calls st ++ f :: cs)%list
    ∧ length recs = length cs.
Proof.
  revert f st rel st'. induction n as [|n IH]; intros f st rel st'; [done|].
  rewrite parse_kconfig_S. destruct (prelude f st) as [rp st1] eqn:Hp.
  pose proof (prelude_effect _ _ _ _ Hp) as (_ & _ & Hcalls & _ & Hr).
  destruct rp as [[rel' dest]|e|]; [|done|done].
  apply prelude_destination in Hp. destruct Hr as (_ & _ & Hrecs & _).
  destruct (with_open_w dest (copy_body (_parse_kconfig n) f) st1)
    as [[u|e|] st2] eqn:Hb; [|done|done].
  intros [= <- <-].
  apply with_open_w_inv in Hb as [(e & ? & _)|(st3 & Hb & ->)]; [done|].
  unfold copy_body in Hb. destruct u.
  apply parse_lines_balanced in Hb as (recs & cs & Hr3 & Hc3 & Hlen).
  - exists dest, recs, cs. cbn [self calls set_os] in *.
    rewrite Hr3, Hc3, Hrecs, Hcalls, <- !app_assoc. done.
  - intros g s r s' (d & rs & cs' & _ & Hr' & Hc' & Hl')%IH.
    exists (({[ g ]} ∪ {[ d ]}) :: rs), (g :: cs'). simpl. auto.
Qed.

Lemma parse_kconfig_balanced n f st rel st' :
  _parse_kconfig n f st = (Ok rel, st') → balanced st st'.
Proof.
  intros (d & rs & cs & _ & Hr & Hc & Hl)%parse_kconfig_records.
  exists (({[ f ]} ∪ {[ d ]}) :: rs), (f :: cs). simpl. auto.
Qed.

Lemma write_top_nil o : write_top EmptyString o = o.
Proof.
  unfold write_top, set_handles. destruct o as [w f [|[k b] t]]; cbn; [done|].
  by rewrite sapp_nil_r.
Qed.

Lemma write_top_twice t1 t2 o :
  write_top t2 (write_top t1 o) = write_top (t1 +:+ t2) o.
Proof.
  unfold write_top, set_handles. destruct o as [w f [|[k b] t]]; cbn; [done|].
  by rewrite sapp_assoc.
Qed.

Lemma set_os_twice o1 o2 st : set_os o2 (set_os o1 st) = set_os o2 st.
Proof. done. Qed.

Lemma set_os_same st : set_os (os st) st = st.
Proof. by destruct st. Qed.

Lemma write_headers_state hs st :
  write_headers hs st = (Ok tt, set_os (write_top (headers_text hs) (os st)) st).
Proof.
  revert st. induction hs as [|h hs IH]; intros st; cbn [write_headers].
  - unfold ret, headers_text. cbn. by rewrite write_top_nil, set_os_same.
  - unfold bind, write at 1. rewrite IH. cbn [os set_os].
    by rewrite write_top_twice, set_os_twice.
Qed.

(** [import_sources] in stages: the common directory, then the root file
    around the header lines and the loop over the sources. *)
Lemma import_sources_unfold n srcs st :
  import_sources n srcs st =
  match posixpath.commonpath srcs with
  | Ok c =>
      with_open_w (kconfig_root (self st))
        (fun s =>
           import_loop n srcs
             (set_os (write_top (headers_text (headers (self st))
                                 +:+ mainmenu_line (title (self st))) (os s)) s))
        (with_common_dir c st)
  | Raise e => (Raise e, st)
  | OutOfFuel => (OutOfFuel, st)
  end.
Proof.
  unfold import_sources, bind, lift_result, set_common_dir.
  destruct (posixpath.commonpath srcs) as [c|e|]; [|done|done].
  fold (with_common_dir c st). cbn [self set_self with_common_dir kconfig_root].
  unfold with_open_w. destruct (sys _ _) as [[u|e|] st1] eqn:Ho; [|done|done].
  rewrite write_headers_state. unfold write. cbn [os set_os].
  by rewrite write_top_twice, set_os_twice.
Qed.

Lemma import_loop_balanced n srcs st st' :
  import_loop n srcs st = (Ok tt, st') → balanced st st'.
Proof.
  revert st. induction srcs as [|s srcs IH]; intros st; cbn [import_loop].
  - intros [= <-]. apply balanced_refl.
  - intros [(rel & st1 & Hs & Hrest)|[(e & _ & ?)|[_ ?]]]%bind_inv; [|done..].
    apply bind_inv in Hrest as [(u & st2 & Hw & Hrest)|[(e & _ & ?)|[_ ?]]]; [|done..].
    destruct u. injection Hw as <-. apply IH in Hrest.
    eapply balanced_trans; [by eapply parse_kconfig_balanced|].
    eapply balanced_trans; [apply balanced_set_os|done].
Qed.

Lemma import_sources_balanced n srcs st st' :
  import_sources n srcs st = (Ok tt, st') → balanced st st'.
Proof.
  rewrite import_sources_unfold.
  destruct (posixpath.commonpath srcs) as [c|e|]; [|done|done].
  intros [(e & ? & _)|(st3 & Hb & ->)]%with_open_w_inv; [done|].
  apply import_loop_balanced in Hb as (recs & cs & Hr & Hc & Hl).
  exists recs, cs. by cbn in *.
Qed.

(** ** What the copy loop writes *)

Lemma rewrite_line_same_config st st' f line :
  same_config st st' → rewrite_line st' f line = rewrite_line st f line.
Proof.
  intros (Hc & _ & _ & _ & _ & Hd & _). unfold rewrite_line. by rewrite Hc, Hd.
Qed.

Lemma write_top_handles text o k b hs :
  handles o = (k, b) :: hs → handles (write_top text o) = (k, b +:+ text) :: hs.
Proof. unfold write_top. by intros ->. Qed.

Lemma parse_lines_output n f lines st st' k b hs :
  parse_lines (_parse_kconfig n) (posixpath.dirname f) lines st = (Ok tt, st') →
  handles (os st) = (k, b) :: hs →
  ∃ outs,
    Forall2 (fun line out => rewrite_line st f line = Some out) lines outs
    ∧ handles (os st') = (k, b +:+ concat_lines outs) :: hs.
Proof.
  revert st b. induction lines as [|line lines IH]; intros st b; cbn [parse_lines].
  - intros [= <-] Hh. exists []. split; [constructor|]. cbn. by rewrite sapp_nil_r.
  - intros [([] & st1 & Hl & Hrest)|[(e & _ & ?)|[_ ?]]]%bind_inv Hh; [|done..].
    assert (∃ out, rewrite_line st f line = Some out
                   ∧ handles (os st1) = (k, b +:+ out) :: hs
                   ∧ same_config st st1) as (out & Hout & Hh1 & Hc1).
    { revert Hl. unfold parse_line, rewrite_line.
      destruct (directive line) as [p|].
      - intros [(rel & st0 & Hrec & Hw)|[(e & _ & ?)|[_ ?]]]%bind_inv; [|done..].
        injection Hw as <-.
        pose proof (parse_kconfig_result _ _ _ _ _ Hrec) as ->.
        apply parse_kconfig_config in Hrec as [Hc0 Hh0].
        exists (source_line rel). split; [done|]. split.
        + cbn [os set_os]. apply write_top_handles. by rewrite Hh0.
        + eapply same_config_trans; [done|apply write_config].
      - intros [= <-]. exists line. split; [done|]. split.
        + cbn [os set_os]. by apply write_top_handles.
        + apply write_config. }
    destruct (IH _ _ Hrest Hh1) as (outs & Houts & Hh').
    exists (out :: outs). split.
    + constructor; [done|]. eapply Forall2_impl; [exact Houts|].
      intros l o' Ho. cbn beta in Ho. by rewrite (rewrite_line_same_config _ _ _ _ Hc1) in Ho.
    + rewrite Hh'. cbn [concat_lines]. by rewrite sapp_assoc.
Qed.

Lemma overlay_nil_r buf : overlay buf EmptyString = buf.
Proof.
  unfold overlay. assert (string_drop (String.length buf) EmptyString = EmptyString) as ->.
  { by destruct (String.length buf). }
  apply sapp_nil_r.
Qed.

Lemma read_text_eq o o' f :
  cwd o' = cwd o →
  lookup_key (fs o') (key_of o f) = lookup_key (fs o) (key_of o f) →
  read_text f o' = read_text f o.
Proof.
  intros Hc Hk. unfold read_text, node_at, key_of in *. rewrite Hc.
  destruct (is_empty f); [done|]. by rewrite Hk.
Qed.

Lemma isfile_lookup o f :
  isfile o f = true → ∃ c, lookup_key (fs o) (key_of o f) = Some (File c).
Proof.
  unfold isfile, node_at. destruct (is_empty f); [done|].
  destruct (lookup_key (fs o) (key_of o f)) as [[c|]|]; [eauto|done..].
Qed.


Lemma key_of_same_cwd o o' p : cwd o' = cwd o → key_of o' p = key_of o p.
Proof. unfold key_of. by intros ->. Qed.

Lemma drop_app_length' {A} (l1 l2 : list A) n :
  n = length l1 → drop n (l1 ++ l2) = l2.
Proof. intros ->. apply drop_app_length. Qed.





(** ** Validation of the sources in [main] *)

Lemma check_sources_rejects o srcs acc :
  (∃ s, s ∈ srcs ∧ isfile o (absolute o s) = false) →
  ∃ s, s ∈ srcs ∧ isfile o (absolute o s) = false
       ∧ check_sources o srcs acc = Raise (rejection o s).
Proof.
  revert acc. induction srcs as [|s srcs IH]; intros acc [x [Hx Hbad]].
  { by apply elem_of_nil in Hx. }
  cbn [check_sources]. unfold rejection.
  destruct (exists_ o (absolute o s)) eqn:He; cbn [negb].
  - destruct (isfile o (absolute o s)) eqn:Hf; cbn [negb].
    + apply elem_of_cons in Hx as [->|Hx]; [congruence|].
      destruct (IH (acc ++ [absolute o s]) (ex_intro _ x (conj Hx Hbad)))
        as (y & Hy & Hyb & Hcheck).
      exists y. split; [by right|]. done.
    + exists s. split; [by left|]. split; [done|]. by rewrite He.
  - exists s. split; [by left|]. rewrite He. split; [|done].
    revert He. unfold exists_, isfile. by destruct (node_at o (absolute o s)).
Qed.



(** ** The overwrite policy *)

Lemma ignores_ret {A} (a : A) : ignores_overwrite (ret a).
Proof. done. Qed.

Lemma ignores_bind {A B} (m : M A) (k : A → M B) :
  ignores_overwrite m → (∀ a, ignores_overwrite (k a)) → ignores_overwrite (bind m k).
Proof.
  intros Hm Hk ov st. unfold bind. rewrite Hm.
  destruct (m st) as [[a|e|] st1]; cbn [fst snd]; [apply Hk|done..].
Qed.

Lemma ignores_sys {A} (f : OS → result A * OS) : ignores_overwrite (sys f).
Proof. intros ov st. unfold sys. cbn. by destruct (f (os st)). Qed.

Lemma ignores_write text : ignores_overwrite (write text).
Proof. done. Qed.

Lemma ignores_called f : ignores_overwrite (called f).
Proof. done. Qed.

Lemma ignores_append_source a b : ignores_overwrite (append_source a b).
Proof. done. Qed.

Lemma ignores_set_common_dir c : ignores_overwrite (set_common_dir c).
Proof. done. Qed.

Lemma ignores_lift_result {A} (r : result A) : ignores_overwrite (lift_result r).
Proof. done. Qed.

Lemma ignores_get_source_relpath f : ignores_overwrite (_get_source_relpath f).
Proof. done. Qed.

Lemma ignores_get_parent_relpath f : ignores_overwrite (_get_parent_relpath f).
Proof.
  apply ignores_bind; [apply ignores_get_source_relpath|]. intros rel ov st.
  cbn [set_overwrite self set_self parent_dir].
  apply (ignores_bind _ _ (ignores_sys _) (fun _ => ignores_ret _)).
Qed.

Lemma ignores_with_open_w {A} path (body : M A) :
  ignores_overwrite body → ignores_overwrite (with_open_w path body).
Proof.
  intros Hb ov st. unfold with_open_w. rewrite (ignores_sys (open_w path)).
  destruct (sys (open_w path) st) as [[u|e|] st1]; cbn [fst snd]; [|done..].
  rewrite Hb. by destruct (body st1).
Qed.

Lemma ignores_parse_lines rec dir lines :
  (∀ f, ignores_overwrite (rec f)) → ignores_overwrite (parse_lines rec dir lines).
Proof.
  intros Hrec. induction lines as [|line lines IH]; cbn [parse_lines].
  - apply ignores_ret.
  - apply ignores_bind; [|done]. unfold parse_line.
    destruct (directive line) as [p|]; [|apply ignores_write].
    apply ignores_bind; [apply Hrec|]. intros rel. apply ignores_write.
Qed.

Lemma ignores_parse_kconfig n f : ignores_overwrite (_parse_kconfig n f).
Proof.
  revert f. induction n as [|n IH]; intros f; [done|]. cbn [_parse_kconfig].
  apply ignores_bind; [apply ignores_called|]. intros _.
  apply ignores_bind; [apply ignores_get_source_relpath|]. intros rel.
  apply ignores_bind; [apply ignores_get_parent_relpath|]. intros dest.
  apply ignores_bind; [apply ignores_append_source|]. intros _.
  apply ignores_bind; [apply ignores_sys|]. intros _.
  apply ignores_bind; [|intros _; apply ignores_ret].
  apply ignores_with_open_w. intros ov st.
  cbn [set_overwrite os set_self]. by apply ignores_parse_lines.
Qed.

Lemma ignores_write_headers hs : ignores_overwrite (write_headers hs).
Proof.
  induction hs as [|h hs IH]; cbn [write_headers]; [apply ignores_ret|].
  by apply ignores_bind; [apply ignores_write|].
Qed.

Lemma ignores_import_loop n srcs : ignores_overwrite (import_loop n srcs).
Proof.
  induction srcs as [|s srcs IH]; cbn [import_loop]; [apply ignores_ret|].
  apply ignores_bind; [apply ignores_parse_kconfig|]. intros rel.
  by apply ignores_bind; [apply ignores_write|].
Qed.

Lemma ignores_import_sources n srcs : ignores_overwrite (import_sources n srcs).
Proof.
  unfold import_sources.
  apply ignores_bind; [apply ignores_lift_result|]. intros c.
  apply ignores_bind; [apply ignores_set_common_dir|]. intros _ ov st.
  cbn [set_overwrite self set_self kconfig_root headers title].
  apply ignores_with_open_w.
  apply ignores_bind; [apply ignores_write_headers|]. intros _.
  apply ignores_bind; [apply ignores_write|]. intros _. apply ignores_import_loop.
Qed.

(** C8: the overwrite policy is stored and never consulted. Two objects built
    from the same arguments but for the overwrite policy see the same outcome
    of construction, and importing the same sources with either gives the same
    outcome, the same operating-system state (root file and copied tree
    included), the same records, the same calls and the same summary. *)
Theorem overwrite_never_consulted fuel title_ kconfig srcs o ov1 ov2 :
  match __init__ title_ kconfig ov1 o, __init__ title_ kconfig ov2 o with
  | (Ok k1, o1), (Ok k2, o2) =>
      o1 = o2
      ∧ fst (import_sources fuel srcs (fresh k1 o1))
        = fst (import_sources fuel srcs (fresh k2 o2))
      ∧ os (snd (import_sources fuel srcs (fresh k1 o1)))
        = os (snd (import_sources fuel srcs (fresh k2 o2)))
      ∧ kconfig_sources (self (snd (import_sources fuel srcs (fresh k1 o1))))
        = kconfig_sources (self (snd (import_sources fuel srcs (fresh k2 o2))))
      ∧ calls (snd (import_sources fuel srcs (fresh k1 o1)))
        = calls (snd (import_sources fuel srcs (fresh k2 o2)))
      ∧ summary (self (snd (import_sources fuel srcs (fresh k1 o1))))
        = summary (self (snd (import_sources fuel srcs (fresh k2 o2))))
  | (Raise e1, o1), (Raise e2, o2) => e1 = e2 ∧ o1 = o2
  | (OutOfFuel, o1), (OutOfFuel, o2) => o1 = o2
  | _, _ => False
  end.
Proof.
  unfold __init__. destruct (makedirs (posixpath.dirname kconfig) o) as [[u|e|] o1];
    [|done..].
  split; [done|].
  set (k1 := mkKconfigMerge title_ kconfig [] (posixpath.dirname kconfig) EmptyString ov1
               [] ["# AUTOGENERATED FILE. DO NOT MODIFY"]).
  change (fresh (mkKconfigMerge title_ kconfig [] (posixpath.dirname kconfig) EmptyString
                   ov2 [] ["# AUTOGENERATED FILE. DO NOT MODIFY"]) o1)
    with (set_overwrite ov2 (fresh k1 o1)).
  rewrite (ignores_import_sources fuel srcs ov2 (fresh k1 o1)). cbn [fst snd].
  by destruct (import_sources fuel srcs (fresh k1 o1)) as [r [k' o' c']].
Qed.

(** ** The common directory *)

Lemma import_loop_config n srcs st r st' :
  import_loop n srcs st = (r, st') →
  same_config st st' ∧ same_files (handles (os st)) (handles (os st')).
Proof.
  revert st. induction srcs as [|s srcs IH]; intros st; cbn [import_loop].
  - intros [= <- <-]. split; [apply same_config_refl|apply same_files_refl].
  - intros [(rel & st1 & Hs & Hrest)|[(e & Hs & ->)|[Hs ->]]]%bind_inv.
    + apply parse_kconfig_config in Hs as [Hc Hh].
      apply bind_inv in Hrest as [(u & st2 & Hw & Hrest)|[(e & Hw & ->)|[Hw ->]]];
        [|done..].
      injection Hw as _ <-. apply IH in Hrest as [Hc' Hh']. split.
      * eapply same_config_trans; [done|].
        eapply same_config_trans; [apply write_config|exact Hc'].
      * rewrite <- Hh. eapply same_files_trans; [apply same_files_write|exact Hh'].
    + apply parse_kconfig_config in Hs as [Hc Hh]. split; [done|].
      rewrite Hh. apply same_files_refl.
    + apply parse_kconfig_config in Hs as [Hc Hh]. split; [done|].
      rewrite Hh. apply same_files_refl.
Qed.

(** After [import_sources], the common directory of the object is what
    [os.path.commonpath] returns for the sources. *)
Lemma import_sources_common_dir n srcs st c :
  posixpath.commonpath srcs = Ok c →
  common_dir (self (snd (import_sources n srcs st))) = c.
Proof.
  intros Hc. rewrite import_sources_unfold, Hc.
  destruct (with_open_w _ _ _) as [r st'] eqn:Hw. cbn [snd].
  apply with_open_w_inv in Hw as [(e & _ & ->)|(st2 & Hb & ->)]; [done|].
  apply import_loop_config in Hb as [(_ & _ & _ & _ & _ & Hd & _) _].
  cbn [self set_os] in *. by rewrite Hd.
Qed.

(** C4 at the failing input: for the single source [/a/b/x.kconfig], the
    common directory [import_sources] computes is the path of the file, not
    the directory [/a/b] that holds it; for the three sample paths of the
    specification it is [/a]. *)
Theorem common_dir_of_single_source :
  (∀ n st, common_dir (self (snd (import_sources n ["/a/b/x.kconfig"] st)))
           = "/a/b/x.kconfig")
  ∧ posixpath.dirname "/a/b/x.kconfig" = "/a/b"
  ∧ (∀ n st,
       common_dir (self (snd (import_sources n
          ["/a/b/x.kconfig"; "/a/b/c/y.kconfig"; "/a/d/z.kconfig"] st))) = "/a").
Proof.
  split; [|split].
  - intros n st. apply import_sources_common_dir. computed.
  - computed.
  - intros n st. apply import_sources_common_dir. computed.
Qed.

(** ** A single source *)

(** With one existing top-level source, the import raises as soon as it
    opens the destination of that source, which is the output directory
    itself; the root file is left with the banner and the [mainmenu] line and
    not one [source] line. *)
Theorem single_source_import_raises fuel :
  fst (main (S fuel) "/out/Kconfig" "Demo" ["/src/b/Kconfig"] demo_os)
  = Raise (IsADirectoryError "/out/.")
  ∧ text_at (snd (main (S fuel) "/out/Kconfig" "Demo" ["/src/b/Kconfig"] demo_os))
      ["out"; "Kconfig"]
    = Some (root_text "Demo" []).
Proof. vm_compute. split; reflexivity. Qed.

(** C6 at the failing input: the tree generated from two sources is there,
    and importing its root file as the only source raises in the same way, so
    that no second tree is produced. *)
Theorem reimport_of_root_file_raises fuel :
  let first := main 3 "/out/Kconfig" "Demo" ["/src/a/Kconfig"; "/src/b/Kconfig"] demo_os in
  (match fst first with Ok _ => True | _ => False end)
  ∧ text_at (snd first) ["out"; "Kconfig"] = Some (root_text "Demo" ["a/Kconfig"; "b/Kconfig"])
  ∧ fst (main (S fuel) "/again/Kconfig" "Demo" ["/out/Kconfig"] (snd first))
    = Raise (IsADirectoryError "/again/.").
Proof. vm_compute. split; [exact I|]. split; reflexivity. Qed.

(** ** An output directory inside the source tree *)

Lemma with_open_w_run {A} path (body : M A) st :
  fst (open_w path (os st)) = Ok tt →
  with_open_w path body st
  = (fst (body (opened_w path st)),
     set_os (close_top (os (snd (body (opened_w path st)))))
       (snd (body (opened_w path st)))).
Proof.
  unfold with_open_w, sys. destruct (open_w path (os st)) as [ro o1] eqn:Ho.
  cbn [fst]. intros ->.
  apply open_w_cases in Ho as [(e & ? & _)|(_ & -> & _)]; [done|].
  fold (opened_w path st). by destruct (body (opened_w path st)).
Qed.

(** One round of the transformer on [/p/b/d/K], once the copy of [/p/d/K]
    has been written over it: the only line of the file is a directive that
    names the file itself, and the call made for it starts in the same
    situation. *)
Lemma loop_round j t kr ss ov recs hd f h cs :
  f = loop_fs0 ∨ f = loop_fs1 →
  (∀ st, looping st → fst (_parse_kconfig j "/p/b/d/K" st) = OutOfFuel) →
  fst (_parse_kconfig (S j) "/p/b/d/K"
         (mkState (mkKconfigMerge t kr ss "/p/b" "/p" ov recs hd)
            (mkOS "/work" f h) cs))
  = OutOfFuel.
Proof.
  intros Hf IH. rewrite parse_kconfig_S.
  set (st1 := fun f' =>
         mkState
           (mkKconfigMerge t kr ss "/p/b" "/p" ov
              (recs ++ [ {[ "/p/b/d/K" ]} ∪ {[ "/p/b/b/d/K" ]} ]) hd)
           (mkOS "/work" f' h) (cs ++ ["/p/b/d/K"])).
  assert (∃ f', (f' = loop_fs_dirs ∨ f' = loop_fs1)
                ∧ prelude "/p/b/d/K"
                    (mkState (mkKconfigMerge t kr ss "/p/b" "/p" ov recs hd)
                       (mkOS "/work" f h) cs)
                  = (Ok ("b/d/K", "/p/b/b/d/K"), st1 f')) as (f' & Hf' & ->).
  { destruct Hf as [-> | ->].
    - exists loop_fs_dirs. split; [by left|]. computed.
    - exists loop_fs1. split; [by right|]. computed. }
  rewrite with_open_w_run by (destruct Hf' as [-> | ->]; computed).
  assert (looping (opened_w "/p/b/b/d/K" (st1 f'))) as Hloop.
  { split; [done|]. split; [done|]. split; [done|]. right.
    destruct Hf' as [-> | ->]; computed. }
  unfold copy_body.
  assert (readlines (read_text "/p/b/d/K" (os (opened_w "/p/b/b/d/K" (st1 f'))))
          = [source_line "K"]) as ->
    by (destruct Hf' as [-> | ->]; computed).
  cbn [parse_lines]. unfold parse_line.
  assert (directive (source_line "K") = Some "K") as -> by computed.
  assert (posixpath.join (posixpath.dirname "/p/b/d/K") "K" = "/p/b/d/K") as ->
    by computed.
  specialize (IH _ Hloop). unfold bind.
  destruct (_parse_kconfig j "/p/b/d/K" (opened_w "/p/b/b/d/K" (st1 f'))) as [r s].
  cbn [fst] in IH. subst r. reflexivity.
Qed.

Lemma loop_forever j st :
  looping st → fst (_parse_kconfig j "/p/b/d/K" st) = OutOfFuel.
Proof.
  revert st. induction j as [|j IH]; intros st; [done|].
  destruct st as [[t kr ss pd cd ov recs hd] [w f h] cs].
  intros (Hw & Hp & Hc & Hf). cbn in Hw, Hp, Hc, Hf. subst w pd cd.
  by apply loop_round.
Qed.

Lemma bind_fst_ok {A B} (m : M A) (k : A → M B) st a :
  fst (m st) = Ok a → bind m k st = k a (snd (m st)).
Proof. unfold bind. destruct (m st) as [r s]. cbn. by intros ->. Qed.

Lemma bind_fst_out_of_fuel {A B} (m : M A) (k : A → M B) st :
  fst (m st) = OutOfFuel → fst (bind m k st) = OutOfFuel.
Proof. unfold bind. destruct (m st) as [r s]. cbn. by intros ->. Qed.

(** An import of two sources runs out of fuel when the transformer returns
    on the first and runs out on the second. *)
Lemma import_two_sources_runs_out m s1 s2 st c rel :
  posixpath.commonpath [s1; s2] = Ok c →
  fst (open_w (kconfig_root (self st)) (os st)) = Ok tt →
  fst (_parse_kconfig m s1 (root_opened c st)) = Ok rel →
  fst (_parse_kconfig m s2
         (set_os (write_top (source_line rel)
                    (os (snd (_parse_kconfig m s1 (root_opened c st)))))
            (snd (_parse_kconfig m s1 (root_opened c st)))))
  = OutOfFuel →
  fst (import_sources m [s1; s2] st) = OutOfFuel.
Proof.
  intros Hc Ho H1 H2. rewrite import_sources_unfold, Hc.
  rewrite with_open_w_run by exact Ho. cbn [fst import_loop].
  fold (root_opened c st). rewrite (bind_fst_ok _ _ _ _ H1).
  unfold write at 1. unfold bind at 1. by apply bind_fst_out_of_fuel.
Qed.

Lemma loop_import_runs_out m :
  fst (import_sources m loop_sources (fresh loop_job loop_os)) = OutOfFuel.
Proof.
  destruct m as [|[|k]]; [computed..|].
  apply import_two_sources_runs_out with (c := "/p") (rel := "d/K");
    [computed..|].
  apply loop_forever. split; [|split; [|split; [|left]]]; computed.
Qed.

Lemma loop_graph_is_acyclic f g :
  loop_reach f → refers (os (fresh loop_job loop_os)) f g →
  loop_reach g ∧ loop_rank g < loop_rank f.
Proof.
  unfold loop_reach. intros Hf (line & p & Hline & Hd & ->).
  apply list_elem_of_In in Hf. simpl in Hf.
  destruct Hf as [<-|[<-|[<-|[]]]].
  - assert (readlines (read_text "/p/d/K" (os (fresh loop_job loop_os)))
            = [source_line "../K"]) as E by computed.
    rewrite E in Hline. apply list_elem_of_singleton in Hline. subst line.
    assert (directive (source_line "../K") = Some "../K") as E2
      by computed.
    rewrite E2 in Hd. injection Hd as <-.
    assert (posixpath.join (posixpath.dirname "/p/d/K") "../K" = "/p/d/../K") as ->
      by computed.
    split; [|vm_compute; lia]. apply list_elem_of_In. simpl. auto.
  - assert (readlines (read_text "/p/d/../K" (os (fresh loop_job loop_os))) = [])
      as E by computed.
    rewrite E in Hline. by apply elem_of_nil in Hline.
  - assert (readlines (read_text "/p/b/d/K" (os (fresh loop_job loop_os))) = [])
      as E by computed.
    rewrite E in Hline. by apply elem_of_nil in Hline.
Qed.

(** C10, as written, fails: the reference graph of the sample project is
    finite and acyclic (every reference goes to a file of smaller height),
    and the import runs out of any amount of fuel, because the transformer
    writes a file that references itself, inside the tree it reads. *)
Lemma import_loops_on_an_acyclic_graph :
  (∀ s, s ∈ loop_sources → loop_reach s)
  ∧ (∀ f g, loop_reach f → refers loop_os f g → loop_reach g ∧ loop_rank g < loop_rank f)
  ∧ (∀ m, fst (import_sources m loop_sources (fresh loop_job loop_os)) = OutOfFuel)
  ∧ ¬ (∀ (R : string → Prop) (rank : string → nat) srcs st,
         (∀ s, s ∈ srcs → R s) →
         (∀ f g, R f → refers (os st) f g → R g ∧ rank g < rank f) →
         ∃ n, ∀ m, n ≤ m → fst (import_sources m srcs st) ≠ OutOfFuel).
Proof.
  assert (∀ s, s ∈ loop_sources → loop_reach s) as Hsrcs.
  { intros s Hs. unfold loop_reach. apply list_elem_of_In in Hs.
    apply list_elem_of_In. simpl in *. tauto. }
  split; [exact Hsrcs|]. split; [apply loop_graph_is_acyclic|].
  split; [apply loop_import_runs_out|]. intros H.
  destruct (H loop_reach loop_rank loop_sources (fresh loop_job loop_os)) as [n Hn].
  - exact Hsrcs.
  - apply loop_graph_is_acyclic.
  - apply (Hn n); [lia|]. apply loop_import_runs_out.
Qed.

(** ** Termination on an acyclic graph apart from the output tree *)

Lemma reads_less_trans o1 o2 o3 : reads_less o1 o2 → reads_less o2 o3 → reads_less o1 o3.
Proof.
  intros H12 H23 p. destruct (H23 p) as [H|H]; [|by right].
  rewrite H. apply H12.
Qed.

Lemma refers_reads_less o o' f g : reads_less o o' → refers o' f g → refers o f g.
Proof.
  intros H (line & p & Hline & Hd & ->). destruct (H f) as [E|E]; rewrite E in Hline.
  - by exists line, p.
  - by apply elem_of_nil in Hline.
Qed.

Lemma read_text_kept o o' p :
  cwd o' = cwd o → kept (fs o) (fs o') (key_of o p) →
  read_text p o' = read_text p o ∨ read_text p o' = EmptyString.
Proof.
  intros Hc Hk. unfold read_text, node_at. rewrite (key_of_same_cwd _ _ p Hc).
  destruct (is_empty p); [by left|].
  destruct (key_of o p) as [|x k] eqn:E; [by left|]. cbn [lookup_key].
  destruct Hk as [->|[_ ->]]; [by left|by right].
Qed.

Lemma reads_less_kept o o' :
  cwd o' = cwd o → (∀ k, kept (fs o) (fs o') k) → reads_less o o'.
Proof. intros Hc Hk p. by apply read_text_kept. Qed.

(** Truncating a file leaves every path with what it read, or nothing. *)
Lemma reads_less_truncate o k h :
  reads_less o (mkOS (cwd o) (<[k := File EmptyString]> (fs o)) h).
Proof.
  intros p. unfold read_text, node_at, key_of. cbn [cwd fs].
  destruct (is_empty p); [by left|]. fold (key_of o p).
  destruct (decide (k = key_of o p)) as [->|Hne].
  - destruct (key_of o p) as [|x k'] eqn:E; [by left|]. cbn [lookup_key].
    rewrite fs_lookup_insert_eq. by right.
  - rewrite lookup_key_insert_ne by done. by left.
Qed.

Lemma reads_less_write text o : reads_less o (write_top text o).
Proof.
  intros p. left. unfold read_text, node_at, key_of.
  by rewrite write_top_fs, write_top_cwd.
Qed.

Lemma reads_within_less R o0 st st' :
  reads_less (os st) (os st') → reads_within R o0 st → reads_within R o0 st'.
Proof.
  intros Hl Hw f g Hf Href. apply Hw; [done|]. by eapply refers_reads_less.
Qed.

Lemma max_rank_bound rank srcs s : s ∈ srcs → rank s ≤ max_rank rank srcs.
Proof.
  unfold max_rank. induction srcs as [|x srcs IH]; intros Hs.
  - by apply elem_of_nil in Hs.
  - apply elem_of_cons in Hs as [->|Hs]; cbn [map foldr]; [lia|].
    specialize (IH Hs). lia.
Qed.

Section termination.

Variable R : string → Prop.
Variable rank : string → nat.
Variable o0 : OS.          (* the file system the graph is read from *)
Variable cfg : State.      (* the configuration the import runs with *)

Hypothesis acyclic : ∀ f g, R f → refers o0 f g → R g ∧ rank g < rank f.
Hypothesis apart : ∀ f f',
  R f → R f' → destination_key cfg f ≠ Some (key_of (os cfg) f').

(** A run that only calls the transformer on files of [R] leaves the files
    of [R] as they are. *)
Lemma reads_within_effect st1 cs st2 :
  same_config cfg st1 → same_config st1 st2 → effect st1 cs st2 →
  (∀ s, s ∈ cs → R s) →
  reads_within R o0 st1 → reads_within R o0 st2.
Proof.
  intros Hc1 Hc2 (_ & _ & Hk) Hcs Hw f g Hf Href. apply Hw; [done|].
  destruct Href as (line & p & Hline & Hd & ->).
  destruct (read_text_kept (os st1) (os st2) f) as [E|E].
  - by destruct Hc2 as [-> _].
  - apply Hk. intros s Hs. rewrite (destination_key_same_config _ _ _ Hc1).
    rewrite (key_of_same_cwd (os cfg) (os st1)) by (by destruct Hc1 as [-> _]).
    apply apart; auto.
  - rewrite E in Hline. by exists line, p.
  - rewrite E in Hline. by apply elem_of_nil in Hline.
Qed.

Section lines.

Variable n : nat.
Hypothesis rec_terminates : ∀ g st1,
  R g → rank g < n → same_config cfg st1 → reads_within R o0 st1 →
  ∃ cs, fst (_parse_kconfig n g st1) ≠ OutOfFuel
        ∧ calls (snd (_parse_kconfig n g st1)) = (calls st1 ++ cs)%list
        ∧ ∀ s, s ∈ cs → R s.

Lemma parse_lines_terminates dir lines st1 :
  (∀ line p, line ∈ lines → directive line = Some p →
             R (posixpath.join dir p) ∧ rank (posixpath.join dir p) < n) →
  same_config cfg st1 → reads_within R o0 st1 →
  ∃ cs, fst (parse_lines (_parse_kconfig n) dir lines st1) ≠ OutOfFuel
        ∧ calls (snd (parse_lines (_parse_kconfig n) dir lines st1))
          = (calls st1 ++ cs)%list
        ∧ ∀ s, s ∈ cs → R s.
Proof.
  revert st1. induction lines as [|line lines IH]; intros st1 Hlines Hc Hw.
  { exists []. cbn. split; [done|]. split; [by rewrite app_nil_r|].
    intros s Hs. by apply elem_of_nil in Hs. }
  cbn [parse_lines]. unfold bind.
  assert (∃ cs1, fst (parse_line (_parse_kconfig n) dir line st1) ≠ OutOfFuel
                 ∧ calls (snd (parse_line (_parse_kconfig n) dir line st1))
                   = (calls st1 ++ cs1)%list
                 ∧ (∀ s, s ∈ cs1 → R s)
                 ∧ same_config cfg (snd (parse_line (_parse_kconfig n) dir line st1))
                 ∧ reads_within R o0 (snd (parse_line (_parse_kconfig n) dir line st1)))
    as (cs1 & Hne1 & Hcalls1 & HR1 & Hc1 & Hw1).
  { unfold parse_line. destruct (directive line) as [p|] eqn:Hd.
    - destruct (Hlines line p) as [HRg Hrank]; [by left|done|].
      destruct (rec_terminates _ st1 HRg Hrank Hc Hw) as (cs & Hne & Hcalls & HR).
      unfold bind.
      destruct (_parse_kconfig n (posixpath.join dir p) st1) as [r st2] eqn:E.
      cbn [fst snd] in Hne, Hcalls.
      pose proof (parse_kconfig_config _ _ _ _ _ E) as [Hc2 _].
      pose proof (parse_kconfig_effect _ _ _ _ _ E) as [cs' He].
      assert (cs' = cs) as ->.
      { destruct He as (Hcs' & _). rewrite Hcalls in Hcs'.
        by apply app_inv_head in Hcs'. }
      pose proof (reads_within_effect _ _ _ Hc Hc2 He HR Hw) as Hw2.
      assert (same_config cfg st2) as Hcfg2 by (by eapply same_config_trans).
      exists cs. destruct r as [rel|e|]; cbn [fst snd]; [|done|done].
      split; [done|]. split; [done|]. split; [done|]. split.
      + eapply same_config_trans; [done|apply write_config].
      + eapply reads_within_less; [|exact Hw2]. apply reads_less_write.
    - exists []. cbn [fst snd calls set_os]. split; [done|].
      split; [by rewrite app_nil_r|]. split.
      { intros s Hs. by apply elem_of_nil in Hs. }
      split.
      + eapply same_config_trans; [done|apply write_config].
      + eapply reads_within_less; [|exact Hw]. apply reads_less_write. }
  destruct (parse_line (_parse_kconfig n) dir line st1) as [r st2].
  cbn [fst snd] in *. destruct r as [[]|e|]; cbn beta iota; [| |done].
  - destruct (IH st2) as (cs2 & Hne2 & Hcalls2 & HR2); [|done|done|].
    { intros l p Hl. apply Hlines. by right. }
    exists (cs1 ++ cs2). split; [done|]. split.
    + by rewrite Hcalls2, Hcalls1, app_assoc.
    + intros s [Hs|Hs]%elem_of_app; auto.
  - exists cs1. cbn [fst snd]. done.
Qed.

End lines.

Lemma parse_kconfig_terminates n g st1 :
  R g → rank g < n → same_config cfg st1 → reads_within R o0 st1 →
  ∃ cs, fst (_parse_kconfig n g st1) ≠ OutOfFuel
        ∧ calls (snd (_parse_kconfig n g st1)) = (calls st1 ++ cs)%list
        ∧ ∀ s, s ∈ cs → R s.
Proof.
  revert g st1. induction n as [|n IH]; intros g st1 HRg Hrank Hc Hw; [lia|].
  rewrite parse_kconfig_S. destruct (prelude g st1) as [rp st2] eqn:Hp.
  pose proof (prelude_effect _ _ _ _ Hp) as (Hc2 & _ & Hcalls2 & Hk2 & Hr).
  assert (∀ s, s ∈ [g] → R s) as HRg'.
  { intros s Hs. apply list_elem_of_singleton in Hs. by subst. }
  destruct rp as [[rel dest]|e|]; [| by exists [g] | done].
  destruct (with_open_w dest (copy_body (_parse_kconfig n) g) st2) as [rb st3] eqn:Hb.
  apply with_open_w_inv in Hb as [(e & -> & ->)|(st4 & Hb & ->)]; [by exists [g]|].
  fold (opened_w dest st2) in Hb. unfold copy_body in Hb.
  assert (same_config cfg (opened_w dest st2)) as Hc3.
  { eapply same_config_trans; [done|]. eapply same_config_trans; [done|].
    by apply same_config_set_os. }
  assert (reads_less (os st1) (os (opened_w dest st2))) as Hless.
  { eapply reads_less_trans; [|apply reads_less_truncate].
    apply reads_less_kept; [by destruct Hc2 as [-> _]|done]. }
  assert (reads_within R o0 (opened_w dest st2)) as Hw3.
  { by eapply reads_within_less. }
  destruct (parse_lines_terminates n IH (posixpath.dirname g)
              (readlines (read_text g (os (opened_w dest st2)))) (opened_w dest st2))
    as (cs & Hne & Hcalls & HR); [|done|done|].
  { intros line p Hline Hd.
    destruct (acyclic g (posixpath.join (posixpath.dirname g) p)) as [HRp Hlt].
    - done.
    - apply Hw3; [done|]. by exists line, p.
    - split; [done|]. lia. }
  rewrite Hb in Hne, Hcalls. cbn [fst snd] in Hne, Hcalls.
  exists (g :: cs). split; [by destruct rb|]. split.
  - assert (calls (snd (match rb with
                        | Ok _ => (Ok rel, set_os (close_top (os st4)) st4)
                        | Raise e => (Raise e, set_os (close_top (os st4)) st4)
                        | OutOfFuel => (OutOfFuel, set_os (close_top (os st4)) st4)
                        end)) = calls st4) as -> by (by destruct rb).
    rewrite Hcalls. cbn [calls opened_w set_os]. rewrite Hcalls2.
    by rewrite <- app_assoc.
  - intros s [->|Hs]%elem_of_cons; auto.
Qed.

Lemma import_loop_terminates m srcs st1 :
  (∀ s, s ∈ srcs → R s ∧ rank s < m) →
  same_config cfg st1 → reads_within R o0 st1 →
  fst (import_loop m srcs st1) ≠ OutOfFuel.
Proof.
  revert st1. induction srcs as [|s srcs IH]; intros st1 Hs Hc Hw; [done|].
  cbn [import_loop]. unfold bind at 1.
  destruct (Hs s) as [HRs Hrank]; [by left|].
  destruct (parse_kconfig_terminates m s st1 HRs Hrank Hc Hw) as (cs & Hne & Hcalls & HR).
  destruct (_parse_kconfig m s st1) as [r st2] eqn:E. cbn [fst snd] in Hne, Hcalls.
  destruct r as [rel|e|]; [|done|done].
  pose proof (parse_kconfig_config _ _ _ _ _ E) as [Hc2 _].
  pose proof (parse_kconfig_effect _ _ _ _ _ E) as [cs' He].
  assert (cs' = cs) as ->.
  { destruct He as (Hcs' & _). rewrite Hcalls in Hcs'. by apply app_inv_head in Hcs'. }
  pose proof (reads_within_effect _ _ _ Hc Hc2 He HR Hw) as Hw2.
  unfold bind, write. apply IH.
  - intros s' Hs'. apply Hs. by right.
  - eapply same_config_trans; [|apply write_config]. by eapply same_config_trans.
  - eapply reads_within_less; [|exact Hw2]. apply reads_less_write.
Qed.

End termination.

(** C10 (amended): when every reference from a reachable file goes to a
    reachable file of smaller height (the reference graph is finite and
    acyclic) and no reachable file is the destination of a reachable file
    (the output tree lies apart from the files that are read), the import
    terminates: from some amount of fuel on it never runs out. *)
Theorem import_terminates (R : string → Prop) (rank : string → nat) srcs st :
  (∀ s, s ∈ srcs → R s) →
  (∀ f g, R f → refers (os st) f g → R g ∧ rank g < rank f) →
  (∀ c f f', posixpath.commonpath srcs = Ok c → R f → R f' →
             destination_key (with_common_dir c st) f ≠ Some (key_of (os st) f')) →
  ∃ n, ∀ m, n ≤ m → fst (import_sources m srcs st) ≠ OutOfFuel.
Proof.
  intros Hsrcs Hacyclic Hapart. exists (S (max_rank rank srcs)). intros m Hm.
  rewrite import_sources_unfold.
  destruct (posixpath.commonpath srcs) as [c|e|] eqn:Hc; [|done|].
  2: { by apply commonpath_not_out_of_fuel in Hc. }
  destruct (with_open_w _ _ _) as [r st'] eqn:Hw. cbn [fst].
  apply with_open_w_inv in Hw as [(e & -> & _)|(st2 & Hb & _)]; [done|].
  cbn [self set_self with_common_dir kconfig_root os set_os] in Hb.
  match type of Hb with import_loop m srcs ?s = _ =>
    pose proof (import_loop_terminates R rank (os st) (with_common_dir c st)
                  Hacyclic (fun f f' => Hapart c f f' eq_refl) m srcs s) as Ht
  end.
  rewrite Hb in Ht. apply Ht.
  - intros s Hs. split; [auto|]. pose proof (max_rank_bound rank srcs s Hs). lia.
  - eapply same_config_trans; [|apply write_config]. by apply same_config_set_os.
  - eapply reads_within_less.
    + cbn [os set_os]. eapply reads_less_trans; [|apply reads_less_write].
      apply reads_less_truncate.
    + intros f g _ Href. exact Href.
Qed.

Lemma demo_graph_is_acyclic f g :
  demo_reach f → refers (os (fresh demo_job demo_os)) f g →
  demo_reach g ∧ demo_rank g < demo_rank f.
Proof.
  unfold demo_reach. intros Hf (line & p & Hline & Hd & ->).
  apply list_elem_of_In in Hf. simpl in Hf.
  destruct Hf as [<-|[<-|[<-|[]]]].
  - assert (readlines (read_text "/src/a/Kconfig" (os (fresh demo_job demo_os)))
            = [ "config A" +:+ nl; source_line "sub/x.kconfig";
                "source" +:+ dq +:+ "sub/x.kconfig" +:+ dq +:+ " # again" +:+ nl ])
      as E by computed.
    rewrite E in Hline. clear E.
    assert (posixpath.join (posixpath.dirname "/src/a/Kconfig") "sub/x.kconfig"
            = "/src/a/sub/x.kconfig") as Ej by computed.
    assert (p = "sub/x.kconfig") as ->.
    { apply list_elem_of_In in Hline. simpl in Hline.
      destruct Hline as [<-|[<-|[<-|[]]]].
      - assert (directive ("config A" +:+ nl) = None) as E by computed.
        rewrite E in Hd. discriminate.
      - assert (directive (source_line "sub/x.kconfig") = Some "sub/x.kconfig")
          as E by computed.
        rewrite E in Hd. by injection Hd.
      - assert (directive ("source" +:+ dq +:+ "sub/x.kconfig" +:+ dq +:+ " # again" +:+ nl)
                = Some "sub/x.kconfig") as E by computed.
        rewrite E in Hd. by injection Hd. }
    rewrite Ej. split; [|vm_compute; lia]. apply list_elem_of_In. simpl. auto.
  - assert (readlines (read_text "/src/a/sub/x.kconfig" (os (fresh demo_job demo_os)))
            = ["config X" +:+ nl]) as E by computed.
    rewrite E in Hline. apply list_elem_of_singleton in Hline. subst line.
    assert (directive ("config X" +:+ nl) = None) as E2 by computed.
    rewrite E2 in Hd. discriminate.
  - assert (readlines (read_text "/src/b/Kconfig" (os (fresh demo_job demo_os)))
            = ["config B" +:+ nl]) as E by computed.
    rewrite E in Hline. apply list_elem_of_singleton in Hline. subst line.
    assert (directive ("config B" +:+ nl) = None) as E2 by computed.
    rewrite E2 in Hd. discriminate.
Qed.

Lemma import_terminates_witness :
  ∃ n, ∀ m, n ≤ m →
    fst (import_sources m ["/src/a/Kconfig"; "/src/b/Kconfig"] (fresh demo_job demo_os))
    ≠ OutOfFuel.
Proof.
  apply (import_terminates demo_reach demo_rank).
  - intros s Hs. unfold demo_reach. apply list_elem_of_In in Hs.
    apply list_elem_of_In. simpl in *. tauto.
  - apply demo_graph_is_acyclic.
  - intros c f f' Hc Hf Hf'.
    assert (posixpath.commonpath ["/src/a/Kconfig"; "/src/b/Kconfig"] = Ok "/src")
      as E by computed.
    rewrite E in Hc. injection Hc as <-.
    unfold demo_reach in Hf, Hf'. apply list_elem_of_In in Hf, Hf'.
    simpl in Hf, Hf'.
    destruct Hf as [<-|[<-|[<-|[]]]]; destruct Hf' as [<-|[<-|[<-|[]]]];
      vm_compute; discriminate.
Defined.

(** ** The root file of an import that returns *)

Lemma import_loop_effect n srcs st r st' :
  import_loop n srcs st = (r, st') → ∃ cs, effect st cs st'.
Proof.
  revert st. induction srcs as [|s srcs IH]; intros st; cbn [import_loop].
  - intros [= <- <-]. exists []. apply effect_refl.
  - intros [(rel & st1 & Hs & Hrest)|[(e & Hs & ->)|[Hs ->]]]%bind_inv;
      [|by eapply parse_kconfig_effect..].
    pose proof (parse_kconfig_config _ _ _ _ _ Hs) as [Hc _].
    apply parse_kconfig_effect in Hs as [cs1 H1].
    apply bind_inv in Hrest as [(u & st2 & Hw & Hrest)|[(e & Hw & ->)|[Hw ->]]];
      [|done..].
    injection Hw as _ <-. apply IH in Hrest as [cs2 H2].
    exists (cs1 ++ [] ++ cs2). eapply effect_trans; [done..|].
    eapply effect_trans; [apply write_config|apply effect_write|done].
Qed.

Lemma import_loop_output n srcs st st' k b hs :
  import_loop n srcs st = (Ok tt, st') →
  handles (os st) = (k, b) :: hs →
  ∃ rels,
    Forall2 (fun s rel =>
               posixpath.relpath (cwd (os st)) s (common_dir (self st)) = Ok rel)
      srcs rels
    ∧ handles (os st') = (k, b +:+ concat_lines (map source_line rels)) :: hs.
Proof.
  revert st b. induction srcs as [|s srcs IH]; intros st b; cbn [import_loop].
  - intros [= <-] Hh. exists []. split; [constructor|]. cbn. by rewrite sapp_nil_r.
  - intros [(rel & st1 & Hs & Hrest)|[(e & _ & ?)|[_ ?]]]%bind_inv Hh; [|done..].
    apply bind_inv in Hrest as [([] & st2 & Hw & Hrest)|[(e & _ & ?)|[_ ?]]]; [|done..].
    injection Hw as <-.
    pose proof (parse_kconfig_result _ _ _ _ _ Hs) as Hrel.
    apply parse_kconfig_config in Hs as [Hc Hh1].
    destruct (IH _ (b +:+ source_line rel) Hrest) as (rels & Hrels & Hh').
    { cbn [os set_os]. apply write_top_handles. by rewrite Hh1. }
    exists (rel :: rels). split.
    + constructor; [done|]. eapply Forall2_impl; [exact Hrels|].
      intros s' r' Hr'. cbn [os set_os self] in Hr'.
      rewrite write_top_cwd in Hr'. destruct Hc as (Hcwd & _ & _ & _ & _ & Hcd & _).
      by rewrite Hcwd, Hcd in Hr'.
    + rewrite Hh'. cbn [map concat_lines]. by rewrite sapp_assoc.
Qed.

(** When an import returns and no call of the transformer had the root file
    as its destination, the root file holds the header lines, the [mainmenu]
    line, and one [source] line per top-level source, in their order, with
    the path of the source relative to the common directory. *)
Lemma root_file_after_import n srcs st st' :
  import_sources n srcs st = (Ok tt, st') →
  (∀ s, s ∈ drop (length (calls st)) (calls st') →
        destination_key st' s ≠ Some (key_of (os st) (kconfig_root (self st)))) →
  ∃ rels,
    Forall2 (fun s rel =>
               posixpath.relpath (cwd (os st)) s (common_dir (self st')) = Ok rel)
      srcs rels
    ∧ text_at (os st') (key_of (os st) (kconfig_root (self st)))
      = Some (headers_text (headers (self st)) +:+ mainmenu_line (title (self st))
              +:+ concat_lines (map source_line rels)).
Proof.
  rewrite import_sources_unfold.
  destruct (posixpath.commonpath srcs) as [c|e|]; [|done|done].
  intros [(e & ? & _)|(st2 & Hb & ->)]%with_open_w_inv Hroot; [done|].
  cbn [self set_self with_common_dir kconfig_root os set_os] in Hb.
  fold (with_common_dir c st) in Hb.
  set (rk := key_of (os st) (kconfig_root (self st))) in *.
  match type of Hb with import_loop n srcs ?s = _ => set (st1 := s) in * end.
  assert (same_config (with_common_dir c st) st1) as Hc1.
  { eapply same_config_trans; [|apply write_config]. by apply same_config_set_os. }
  pose proof (import_loop_config _ _ _ _ _ Hb) as [Hc2 _].
  destruct (import_loop_output _ _ _ _ rk
              (EmptyString +:+ (headers_text (headers (self st))
                                +:+ mainmenu_line (title (self st))))
              (handles (os st)) Hb) as (rels & Hrels & Hh); [done|].
  apply import_loop_effect in Hb as (cs & Hcs & _ & Hk).
  exists rels. split.
  { eapply Forall2_impl; [exact Hrels|]. intros s rel Hr. cbn beta in Hr.
    destruct Hc1 as (Hcwd1 & _ & _ & _ & _ & Hcd1 & _).
    destruct Hc2 as (_ & _ & _ & _ & _ & Hcd2 & _).
    cbn [self set_os]. rewrite Hcd2. by rewrite Hcwd1 in Hr. }
  assert (fs (os st2) !! rk = Some (File EmptyString)) as Hrk.
  { assert (fs (os st1) !! rk = Some (File EmptyString)) as H0.
    { cbn [os set_os st1]. rewrite write_top_fs. apply fs_lookup_insert_eq. }
    destruct (Hk rk) as [H|[H _]]; [|congruence..].
    intros s Hs.
    assert (same_config st2 (set_os (close_top (os st2)) st2)) as Hc3
      by apply same_config_set_os, close_top_cwd.
    rewrite <- (destination_key_same_config st1 st2 s Hc2).
    rewrite <- (destination_key_same_config st2 _ s Hc3).
    apply Hroot. cbn [calls set_os]. rewrite Hcs. unfold st1.
    cbn [calls set_os with_common_dir set_self].
    by rewrite (drop_app_length' (calls st) cs (length (calls st)) eq_refl). }
  unfold text_at. cbn [os set_os]. unfold close_top. rewrite Hh. cbn [fs].
  rewrite fs_lookup_insert_eq, Hrk, overlay_nil_r. by rewrite sapp_nil_l, sapp_assoc.
Qed.

Lemma check_sources_Ok o srcs acc l :
  check_sources o srcs acc = Ok l → l = (acc ++ map (absolute o) srcs)%list.
Proof.
  revert acc. induction srcs as [|s srcs IH]; intros acc; cbn [check_sources map].
  - intros [= <-]. by rewrite app_nil_r.
  - destruct (negb (exists_ o (absolute o s))); [done|].
    destruct (negb (isfile o (absolute o s))); [done|].
    intros ->%IH. by rewrite <- app_assoc.
Qed.

(** C1, amended: when [main] returns and no call of the transformer had the
    root file as its destination, the root file consists of the banner line,
    the [mainmenu] line with the title, and one [source] line per top-level
    source, in the order of the sources, each with the path of the source
    relative to the common directory. *)
Theorem root_file_of_import fuel kconfig title_ srcs o st' o' :
  main fuel kconfig title_ srcs o = (Ok st', o') →
  (∀ s, s ∈ calls st' → destination_key st' s ≠ Some (key_of o kconfig)) →
  ∃ rels,
    Forall2 (fun s rel =>
               posixpath.relpath (cwd o) (absolute o s) (common_dir (self st')) = Ok rel)
      srcs rels
    ∧ text_at o' (key_of o kconfig) = Some (root_text title_ rels).
Proof.
  unfold main. destruct (check_sources o srcs []) as [l|e|] eqn:Hl; [|done|done].
  apply check_sources_Ok in Hl as ->. rewrite app_nil_l.
  unfold __init__.
  destruct (makedirs (posixpath.dirname kconfig) o) as [[u|e|] o1] eqn:Hm; [|done|done].
  apply makedirs_effect in Hm as (Hcwd & _ & _ & _).
  destruct (import_sources fuel _ _) as [[[]|e|] st1] eqn:Hi; [|done|done].
  intros [= <- <-] Hroot.
  assert (key_of o1 kconfig = key_of o kconfig) as Hkey.
  { unfold key_of. by rewrite Hcwd. }
  apply root_file_after_import in Hi as (rels & Hrels & Htext).
  - exists rels. cbn [os self calls kconfig_root title headers] in Hrels, Htext.
    rewrite Hkey in Htext. rewrite Hcwd in Hrels. split.
    + by apply Forall2_fmap_l in Hrels.
    + rewrite Htext. unfold root_text, headers_text. cbn [map concat_lines].
      by rewrite sapp_nil_r, sapp_assoc.
  - cbn [os self calls kconfig_root length drop]. intros s Hs.
    rewrite Hkey. by apply Hroot.
Qed.

Lemma root_file_of_import_witness :
  match main 3 "/out/Kconfig" "Demo" ["/src/a/Kconfig"; "/src/b/Kconfig"] demo_os with
  | (Ok _, o') =>
      text_at o' ["out"; "Kconfig"] = Some (root_text "Demo" ["a/Kconfig"; "b/Kconfig"])
  | _ => False
  end.
Proof.
  pose proof (root_file_of_import 3 "/out/Kconfig" "Demo"
                ["/src/a/Kconfig"; "/src/b/Kconfig"] demo_os) as H.
  assert (match main 3 "/out/Kconfig" "Demo" ["/src/a/Kconfig"; "/src/b/Kconfig"] demo_os with
          | (Ok st, _) =>
              destination_key st <$> calls st
              = [Some ["out"; "a"; "Kconfig"]; Some ["out"; "a"; "sub"; "x.kconfig"];
                 Some ["out"; "a"; "sub"; "x.kconfig"]; Some ["out"; "b"; "Kconfig"]]
              ∧ common_dir (self st) = "/src"
          | _ => False
          end) as Hrun by (vm_compute; split; reflexivity).
  destruct (main 3 "/out/Kconfig" "Demo" ["/src/a/Kconfig"; "/src/b/Kconfig"] demo_os)
    as [[st|e|] o'] eqn:E; [|done|done].
  destruct Hrun as [Hdest Hcommon].
  destruct (H st o' eq_refl) as (rels & Hrels & Htext).
  - intros s Hs Hk. apply (list_elem_of_fmap_2 (destination_key st)) in Hs.
    rewrite Hdest, Hk in Hs. apply list_elem_of_In in Hs.
    change (key_of demo_os "/out/Kconfig") with ["out"; "Kconfig"] in Hs.
    cbn [In] in Hs. by repeat destruct Hs as [Hs|Hs].
  - change (key_of demo_os "/out/Kconfig") with ["out"; "Kconfig"] in Htext.
    rewrite Htext. rewrite Hcommon in Hrels.
    apply Forall2_cons_inv_l in Hrels as (r1 & rels1 & Hr1 & Hrels & ->).
    apply Forall2_cons_inv_l in Hrels as (r2 & rels2 & Hr2 & Hrels & ->).
    apply Forall2_nil_inv_l in Hrels as ->.
    assert (posixpath.relpath (cwd demo_os) (absolute demo_os "/src/a/Kconfig") "/src"
            = Ok "a/Kconfig") as Ea by computed.
    assert (posixpath.relpath (cwd demo_os) (absolute demo_os "/src/b/Kconfig") "/src"
            = Ok "b/Kconfig") as Eb by computed.
    rewrite Ea in Hr1. rewrite Eb in Hr2. by injection Hr1 as <-; injection Hr2 as <-.
Defined.

(** C1 as stated fails: for the two sources [/src/Kconfig] and
    [/src/a/Kconfig] and the root file [/out/Kconfig], the first source is
    copied to the path of the root file while the root file is open, and
    when the root file is closed its lines overwrite only the head of that
    copy. [main] returns, and the root file holds the four lines of the root
    file followed by the rest of the copy. *)
Lemma import_overwrites_root_file :
  let run := main 2 "/out/Kconfig" "Demo" clash_sources clash_os in
  (match fst run with Ok _ => True | _ => False end)
  ∧ text_at (snd run) ["out"; "Kconfig"]
    = Some (root_text "Demo" ["Kconfig"; "a/Kconfig"]
            +:+ string_drop (String.length (root_text "Demo" ["Kconfig"; "a/Kconfig"]))
                  clash_top)
  ∧ text_at (snd run) ["out"; "Kconfig"]
    ≠ Some (root_text "Demo" ["Kconfig"; "a/Kconfig"]).
Proof.
  assert (text_at (snd (main 2 "/out/Kconfig" "Demo" clash_sources clash_os))
            ["out"; "Kconfig"]
          = Some (root_text "Demo" ["Kconfig"; "a/Kconfig"]
                  +:+ string_drop (String.length (root_text "Demo" ["Kconfig"; "a/Kconfig"]))
                        clash_top)) as Htext by computed.
  cbn zeta. split; [by vm_compute|]. split; [exact Htext|].
  rewrite Htext. vm_compute. discriminate.
Qed.

(** ** Components of paths *)

Lemma split_sep_nonnil s : split_sep s ≠ [].
Proof.
  destruct s as [|c s]; [done|]. simpl. destruct (Ascii.eqb c SEP); [done|].
  by destruct (split_sep s).
Qed.

Lemma split_sep_app_sep a b :
  split_sep (a +:+ String SEP b) = split_sep a ++ split_sep b.
Proof.
  induction a as [|c a IH].
  - rewrite sapp_nil_l. done.
  - rewrite sapp_cons. simpl. destruct (Ascii.eqb c SEP); [by rewrite IH|].
    rewrite IH. pose proof (split_sep_nonnil a). by destruct (split_sep a).
Qed.

Lemma split_sep_plain t : has_sep t = false → split_sep t = [t].
Proof.
  induction t as [|c t IH]; [done|]. simpl.
  destruct (Ascii.eqb c SEP); [done|]. simpl. intros H. by rewrite IH.
Qed.

Lemma split_sep_free s : Forall (fun x => has_sep x = false) (split_sep s).
Proof.
  induction s as [|c s IH]; simpl; [by repeat constructor|].
  destruct (Ascii.eqb c SEP) eqn:E; [by constructor|].
  destruct (split_sep s) as [|x xs]; [by repeat constructor; simpl; rewrite E|].
  inversion IH; subst. constructor; [|done]. simpl. by rewrite E.
Qed.

Lemma join_sep_cons x y l :
  join_sep (x :: y :: l) = x +:+ String SEP (join_sep (y :: l)).
Proof. done. Qed.

Lemma split_join l :
  l ≠ [] → Forall (fun x => has_sep x = false) l → split_sep (join_sep l) = l.
Proof.
  induction l as [|x [|y l] IH]; [done| |]; intros _ Hl.
  - inversion Hl; subst. by apply split_sep_plain.
  - rewrite join_sep_cons, split_sep_app_sep. inversion Hl; subst.
    rewrite IH by done. by rewrite split_sep_plain.
Qed.

Lemma split_seps k s : split_sep (seps k +:+ s) = repeat EmptyString k ++ split_sep s.
Proof.
  induction k as [|k IH]; [done|]. cbn [seps repeat]. rewrite sapp_cons.
  simpl. by rewrite IH.
Qed.

Lemma comps_of_app_sep a b : comps_of (a +:+ String SEP b) = comps_of a ++ comps_of b.
Proof. unfold comps_of. by rewrite split_sep_app_sep, filter_app. Qed.

Lemma comps_of_nil : comps_of EmptyString = [].
Proof. done. Qed.

Lemma comps_of_curdir : comps_of curdir = [].
Proof. done. Qed.

Lemma comps_of_plain s : Forall plain (comps_of s).
Proof.
  unfold comps_of. apply Forall_forall. intros x [[Hne _] Hx]%list_elem_of_filter.
  split; [done|]. pose proof (split_sep_free s) as H.
  rewrite Forall_forall in H. by apply H.
Qed.

Lemma comps_of_keep s :
  Forall (fun c => c ≠ EmptyString ∧ c ≠ curdir) (comps_of s).
Proof.
  unfold comps_of. apply Forall_forall. by intros x [H _]%list_elem_of_filter.
Qed.

Lemma filter_all {A} (P : A → Prop) `{∀ x, Decision (P x)} (l : list A) :
  Forall P l → filter P l = l.
Proof.
  induction 1 as [|x l Hx Hl IH]; [done|]. rewrite filter_cons_True by done.
  by rewrite IH.
Qed.

(** The components of the path [commonpath] returns for one absolute path are
    those of the path. *)
Lemma comps_of_join s : comps_of (String SEP (join_sep (comps_of s))) = comps_of s.
Proof.
  change (String SEP (join_sep (comps_of s)))
    with (EmptyString +:+ String SEP (join_sep (comps_of s))).
  rewrite comps_of_app_sep, comps_of_nil, app_nil_l.
  destruct (comps_of s) as [|x l] eqn:E; [done|]. unfold comps_of at 1.
  rewrite split_join.
  - rewrite <- E. apply filter_all, comps_of_keep.
  - done.
  - rewrite <- E. eapply Forall_impl; [apply comps_of_plain|]. by intros c [_ ?].
Qed.

(** *** [normpath] *)

Lemma norm_loop_filter k l acc :
  posixpath.norm_loop k l acc
  = posixpath.norm_loop k (filter (fun c => c ≠ EmptyString ∧ c ≠ curdir) l) acc.
Proof.
  revert acc. induction l as [|c l IH]; intros acc; [done|].
  cbn [posixpath.norm_loop].
  destruct (String.eqb c EmptyString) eqn:E1.
  { apply String.eqb_eq in E1 as ->. rewrite filter_cons_False by (by intros [? _]).
    cbn [orb]. apply IH. }
  destruct (String.eqb c curdir) eqn:E2.
  { apply String.eqb_eq in E2 as ->. rewrite filter_cons_False by (by intros [_ ?]).
    cbn [orb]. apply IH. }
  apply String.eqb_neq in E1, E2. rewrite filter_cons_True by done.
  cbn [orb posixpath.norm_loop].
  apply String.eqb_neq in E1, E2. rewrite E1, E2. cbn [orb].
  destruct (negb (String.eqb c pardir) || _ || _); [apply IH|].
  destruct acc; apply IH.
Qed.

Lemma norm_loop_abs k l acc :
  k ≠ 0 → posixpath.norm_loop k l acc = posixpath.norm_loop 1 l acc.
Proof.
  intros Hk. revert acc. induction l as [|c l IH]; intros acc; [done|].
  cbn [posixpath.norm_loop]. destruct (String.eqb c EmptyString || String.eqb c curdir);
    [apply IH|].
  assert (Nat.eqb k 0 = false) as -> by (by destruct k).
  cbn [Nat.eqb andb]. destruct (negb (String.eqb c pardir) || _ || _); [apply IH|].
  destruct acc; apply IH.
Qed.

Lemma norm_loop_plain k l acc :
  Forall (fun x => has_sep x = false) l → Forall plain acc →
  Forall plain (posixpath.norm_loop k l acc).
Proof.
  revert acc. induction l as [|c l IH]; intros acc Hl Hacc; [done|].
  inversion Hl; subst. cbn [posixpath.norm_loop].
  destruct (String.eqb c EmptyString) eqn:E1; [by apply IH|]. cbn [orb].
  destruct (String.eqb c curdir); [by apply IH|].
  apply String.eqb_neq in E1.
  destruct (negb (String.eqb c pardir) || _ || _).
  - apply IH; [done|]. by constructor.
  - destruct acc as [|a acc]; apply IH; try done. by inversion Hacc.
Qed.

Lemma startswith_sep s : startswith sep s = true ↔ ∃ r, s = String SEP r.
Proof.
  split.
  - unfold startswith. destruct (strip_prefix sep s) as [r|] eqn:E; [|done].
    apply strip_prefix_Some in E. intros _. exists r. by rewrite E.
  - by intros [r ->].
Qed.

Lemma initial_slashes_abs x : posixpath.isabs x = true → posixpath.initial_slashes x ≠ 0.
Proof.
  unfold posixpath.isabs, posixpath.initial_slashes. intros ->. cbn [negb].
  by destruct (_ && _).
Qed.

Lemma nonempty_comps_seps k cs :
  Forall plain cs → posixpath.nonempty_comps (seps k +:+ join_sep cs) = cs.
Proof.
  intros Hcs. unfold posixpath.nonempty_comps. rewrite split_seps, filter_app.
  assert (filter (fun x => x ≠ EmptyString) (repeat EmptyString k) = []) as ->.
  { induction k as [|k IH]; [done|]. cbn [repeat].
    rewrite filter_cons_False; [done|]. intros H. by apply H. }
  cbn [app]. destruct cs as [|x l]; [done|]. rewrite split_join.
  - apply filter_all. eapply Forall_impl; [exact Hcs|]. by intros c [? _].
  - done.
  - eapply Forall_impl; [exact Hcs|]. by intros c [_ ?].
Qed.

(** The key of an absolute path. *)
Lemma nonempty_comps_normpath x :
  posixpath.isabs x = true →
  posixpath.nonempty_comps (posixpath.normpath x)
  = rev (posixpath.norm_loop 1 (comps_of x) []).
Proof.
  intros Habs. pose proof (initial_slashes_abs x Habs) as Hk.
  unfold posixpath.normpath.
  assert (is_empty x = false) as ->.
  { apply startswith_sep in Habs as [r ->]. done. }
  cbn zeta.
  assert (is_empty (seps (posixpath.initial_slashes x)
                    +:+ join_sep (rev (posixpath.norm_loop (posixpath.initial_slashes x)
                                         (split_sep x) []))) = false) as ->.
  { destruct (posixpath.initial_slashes x); [done|]. done. }
  rewrite nonempty_comps_seps.
  - rewrite norm_loop_abs by done. by rewrite norm_loop_filter.
  - apply Forall_rev. apply norm_loop_plain; [apply split_sep_free|constructor].
Qed.

(** *** Keys *)

Lemma isabs_cons c r : posixpath.isabs (String c r) = Ascii.eqb SEP c.
Proof.
  unfold posixpath.isabs, startswith, sep. cbn [strip_prefix].
  by destruct (Ascii.eqb SEP c).
Qed.

Lemma isabs_app s t : s ≠ EmptyString → posixpath.isabs (s +:+ t) = posixpath.isabs s.
Proof. destruct s as [|c s]; [done|]. intros _. by rewrite sapp_cons, !isabs_cons. Qed.

Lemma sep_app x : sep +:+ x = String SEP x.
Proof. done. Qed.

Lemma comps_of_snoc_sep a : comps_of (a +:+ sep) = comps_of a.
Proof.
  unfold sep. by rewrite comps_of_app_sep, comps_of_nil, app_nil_r.
Qed.

Lemma endswith_sep_inv s : endswith_sep s = true → ∃ a, s = a +:+ sep.
Proof.
  induction s as [|c s IH]; [done|]. cbn [endswith_sep]. destruct s as [|d s].
  - intros ->%Ascii.eqb_eq. by exists EmptyString.
  - intros [a ->]%IH. by exists (String c a).
Qed.

Lemma key_of_abs o x :
  posixpath.isabs x = true →
  key_of o x = rev (posixpath.norm_loop 1 (comps_of x) []).
Proof.
  intros Habs. unfold key_of, posixpath.abspath. rewrite Habs.
  by apply nonempty_comps_normpath.
Qed.

Lemma join_relative cwd x :
  posixpath.isabs cwd = true → posixpath.isabs x = false →
  posixpath.isabs (posixpath.join cwd x) = true
  ∧ comps_of (posixpath.join cwd x) = comps_of cwd ++ comps_of x.
Proof.
  intros Hcwd Hx. unfold posixpath.join. fold (posixpath.isabs x). rewrite Hx.
  assert (cwd ≠ EmptyString) as Hne by (by intros ->).
  assert (is_empty cwd = false) as -> by (by apply is_empty_false).
  cbn [orb]. destruct (endswith_sep cwd) eqn:E.
  - apply endswith_sep_inv in E as [a ->]. split; [by rewrite isabs_app|].
    by rewrite sapp_assoc, sep_app, comps_of_app_sep, comps_of_snoc_sep.
  - rewrite sep_app. split; [by rewrite isabs_app|]. apply comps_of_app_sep.
Qed.

(** The key of a path, from its components and those of the working
    directory. *)
Lemma key_of_comps o x :
  posixpath.isabs (cwd o) = true →
  key_of o x = rev (posixpath.norm_loop 1 (abs_comps o x) []).
Proof.
  intros Hcwd. unfold abs_comps. destruct (posixpath.isabs x) eqn:Hx.
  - by apply key_of_abs.
  - destruct (join_relative (cwd o) x Hcwd Hx) as [Habs Hcomps].
    unfold key_of, posixpath.abspath. rewrite Hx.
    rewrite nonempty_comps_normpath by done. by rewrite Hcomps.
Qed.

(** *** [os.path.split] *)

Lemma upto_last_sep_nil s : upto_last_sep s = EmptyString ↔ has_sep s = false.
Proof.
  induction s as [|c s IH]; [done|]. cbn [upto_last_sep has_sep].
  destruct (Ascii.eqb c SEP); [done|]. cbn [orb].
  destruct (upto_last_sep s) eqn:E; cbn [is_empty negb].
  - by rewrite <- IH.
  - split; [done|]. intros H. apply IH in H. discriminate.
Qed.

Lemma upto_after s : upto_last_sep s +:+ after_last_sep s = s.
Proof.
  induction s as [|c s IH]; [done|]. cbn [upto_last_sep after_last_sep].
  destruct (Ascii.eqb c SEP || negb (is_empty (upto_last_sep s))); [|done].
  by rewrite sapp_cons, IH.
Qed.

Lemma upto_last_sep_shape s :
  upto_last_sep s = EmptyString ∨ ∃ a, upto_last_sep s = a +:+ sep.
Proof.
  induction s as [|c s IH]; [by left|]. cbn [upto_last_sep].
  destruct (Ascii.eqb c SEP) eqn:E; cbn [orb].
  - right. apply Ascii.eqb_eq in E as ->. destruct IH as [->|[a ->]].
    + by exists EmptyString.
    + by exists (String SEP a).
  - destruct IH as [->|[a ->]]; [by left|]. right.
    destruct (is_empty (a +:+ sep)) eqn:Ee.
    { apply is_empty_true in Ee. by destruct a. }
    by exists (String c a).
Qed.

Lemma comps_of_seps j : comps_of (seps j) = [].
Proof.
  unfold comps_of. rewrite <- (sapp_nil_r (seps j)), split_seps, filter_app.
  cbn [split_sep]. rewrite filter_cons_False by (intros [H _]; by apply H).
  rewrite app_nil_r. induction j as [|j IH]; [done|]. cbn [repeat].
  rewrite filter_cons_False by (intros [H _]; by apply H). done.
Qed.

Lemma comps_of_app_seps t j : comps_of (t +:+ seps j) = comps_of t.
Proof.
  destruct j as [|j]; [by rewrite sapp_nil_r|]. cbn [seps].
  by rewrite comps_of_app_sep, comps_of_seps, app_nil_r.
Qed.

Lemma rstrip_sep_decomp s : ∃ j, s = rstrip_sep s +:+ seps j.
Proof.
  induction s as [|c s [j IH]]; [by exists 0|]. cbn [rstrip_sep].
  destruct (Ascii.eqb c SEP && is_empty (rstrip_sep s)) eqn:E.
  - apply andb_prop in E as [->%Ascii.eqb_eq Ht%is_empty_true].
    rewrite Ht, sapp_nil_l in IH. exists (S j). rewrite sapp_nil_l. cbn [seps].
    by rewrite <- IH.
  - exists j. by rewrite sapp_cons, <- IH.
Qed.

Lemma comps_of_rstrip s : comps_of (rstrip_sep s) = comps_of s.
Proof.
  destruct (rstrip_sep_decomp s) as [j H]. rewrite H at 2.
  by rewrite comps_of_app_seps.
Qed.

Lemma rstrip_sep_nil s : rstrip_sep s = EmptyString → all_sep s = true.
Proof.
  induction s as [|c s IH]; [done|]. cbn [rstrip_sep all_sep].
  destruct (Ascii.eqb c SEP); [|done]. cbn [andb].
  destruct (rstrip_sep s) eqn:E; [by intros _; apply IH|done].
Qed.

Lemma isabs_rstrip s : all_sep s = false → posixpath.isabs (rstrip_sep s) = posixpath.isabs s.
Proof.
  destruct s as [|c s]; [done|]. intros Hs. cbn [rstrip_sep].
  destruct (Ascii.eqb c SEP && is_empty (rstrip_sep s)) eqn:E; [|by rewrite !isabs_cons].
  apply andb_prop in E as [Hc Ht%is_empty_true%rstrip_sep_nil].
  cbn [all_sep] in Hs. by rewrite Hc, Ht in Hs.
Qed.

(** The components of a path are those of its head and of its tail. *)
Lemma comps_of_split p h t :
  posixpath.split p = (h, t) → comps_of p = comps_of h ++ comps_of t.
Proof.
  unfold posixpath.split. intros [= <- <-].
  assert (comps_of (if negb (is_empty (upto_last_sep p)) && negb (all_sep (upto_last_sep p))
                    then rstrip_sep (upto_last_sep p) else upto_last_sep p)
          = comps_of (upto_last_sep p)) as ->.
  { destruct (_ && _); [apply comps_of_rstrip|done]. }
  rewrite <- (upto_after p) at 1.
  destruct (upto_last_sep_shape p) as [->|[a ->]]; [done|].
  by rewrite sapp_assoc, sep_app, comps_of_app_sep, comps_of_snoc_sep.
Qed.

Lemma isabs_split p h t :
  posixpath.split p = (h, t) → h ≠ EmptyString → posixpath.isabs p = posixpath.isabs h.
Proof.
  unfold posixpath.split. intros [= <- <-] Hh.
  assert (upto_last_sep p ≠ EmptyString) as Hu.
  { intros E. rewrite E in Hh. by apply Hh. }
  rewrite <- (upto_after p) at 1. rewrite isabs_app by done.
  apply is_empty_false in Hu. rewrite Hu. cbn [negb andb].
  destruct (all_sep (upto_last_sep p)) eqn:E; [done|]. cbn [negb].
  by rewrite isabs_rstrip.
Qed.

(** A path whose tail has no component has the key of its head. *)
Lemma key_of_split o p h t :
  posixpath.isabs (cwd o) = true →
  posixpath.split p = (h, t) → h ≠ EmptyString → comps_of t = [] →
  key_of o p = key_of o h.
Proof.
  intros Hcwd Hs Hh Ht. rewrite !key_of_comps by done. unfold abs_comps.
  rewrite (isabs_split _ _ _ Hs Hh), (comps_of_split _ _ _ Hs), Ht.
  by rewrite app_nil_r.
Qed.

(** *** The common directory of a single source *)

Lemma common_loop_diag l : posixpath.common_loop l l = Ok l.
Proof.
  induction l as [|c l IH]; [done|]. cbn [posixpath.common_loop].
  by rewrite String.eqb_refl, IH.
Qed.

Lemma commonprefix2_diag l : posixpath.commonprefix2 l l = Ok l.
Proof.
  unfold posixpath.commonprefix2, list_min, list_max. cbn [fold_left].
  destruct (list_ltb l l); apply common_loop_diag.
Qed.

Lemma commonpath_single src :
  posixpath.isabs src = true →
  posixpath.commonpath [src] = Ok (String SEP (join_sep (comps_of src))).
Proof.
  intros Habs. unfold posixpath.commonpath. cbn [forallb negb map list_min list_max fold_left].
  fold (comps_of src). by rewrite common_loop_diag, Habs.
Qed.

(** Relative to the common directory of a single absolute source, the source
    is the current directory. *)
Lemma relpath_single cwd_ src :
  posixpath.isabs src = true →
  posixpath.relpath cwd_ src (String SEP (join_sep (comps_of src))) = Ok curdir.
Proof.
  intros Habs. unfold posixpath.relpath.
  assert (is_empty src = false) as -> by (by destruct src).
  pose (o := mkOS cwd_ (FS []) []).
  change (posixpath.nonempty_comps (posixpath.abspath cwd_ ?p)) with (key_of o p).
  rewrite !key_of_abs by done. rewrite comps_of_join, commonprefix2_diag.
  by rewrite Nat.sub_diag, drop_all.
Qed.

(** *** [os.makedirs] leaves a directory *)

Lemma mkdir_exist_ok_Ok name o u o1 :
  mkdir_exist_ok name o = (Ok u, o1) → node_at o1 name = Some Dir.
Proof.
  unfold mkdir_exist_ok. destruct (mkdir name o) as [[u'|e|] o2] eqn:Hm.
  - intros [= <- <-]. revert Hm. unfold mkdir.
    destruct (node_at o name) as [nd|] eqn:Hn; [done|].
    destruct (is_empty name) eqn:He; [done|].
    destruct (lookup_key (fs o) (removelast (key_of o name))) as [[c|]|]; [done| |done].
    intros [= _ <-]. unfold node_at. rewrite He.
    change (key_of (set_fs _ o) name) with (key_of o name). cbn [set_fs fs].
    destruct (key_of o name) as [|a k]; [done|].
    cbn [lookup_key]. by rewrite fs_lookup_insert_eq.
  - unfold isdir. destruct (node_at o2 name) as [[c|]|] eqn:Hn; intros [=]; by subst.
  - done.
Qed.

Lemma mkdir_exist_ok_exists name o p o1 :
  mkdir_exist_ok name o = (Raise (FileExistsError p), o1) →
  ∃ c, node_at o name = Some (File c).
Proof.
  unfold mkdir_exist_ok. destruct (mkdir name o) as [[u'|e|] o2] eqn:Hm; [done| |done].
  assert (o2 = o) as ->.
  { revert Hm. unfold mkdir. destruct (node_at o name); [by intros [=]|].
    destruct (is_empty name); [by intros [=]|].
    by destruct (lookup_key (fs o) (removelast (key_of o name))) as [[c|]|]; intros [=]. }
  unfold isdir. destruct (node_at o name) as [[c|]|] eqn:Hn; [|done|].
  - intros _. by exists c.
  - intros [= -> <-]. revert Hm. unfold mkdir. rewrite Hn.
    destruct (is_empty name); [by intros [=]|].
    by destruct (lookup_key (fs o) (removelast (key_of o name))) as [[c|]|]; intros [=].
Qed.

Lemma node_at_kept_file o o' name c :
  cwd o' = cwd o → (∀ k, kept (fs o) (fs o') k) →
  node_at o' name = Some (File c) → node_at o name = Some (File c).
Proof.
  intros Hc Hk. unfold node_at. destruct (is_empty name); [done|].
  unfold key_of. rewrite Hc. destruct (posixpath.nonempty_comps _) as [|a k]; [done|].
  cbn [lookup_key]. apply kept_file_inv, Hk.
Qed.

Lemma makedirs_split_key o name h t :
  posixpath.isabs (cwd o) = true →
  makedirs_split name = (h, t) → h ≠ EmptyString → comps_of t = [] →
  key_of o name = key_of o h ∧ name ≠ EmptyString.
Proof.
  intros Hcwd. unfold makedirs_split.
  destruct (posixpath.split name) as [h0 t0] eqn:Hs.
  assert (h0 ≠ EmptyString → name ≠ EmptyString) as Hname.
  { intros Hh ->. by apply Hh; injection Hs as <- _. }
  destruct (is_empty t0) eqn:Ht0.
  - apply is_empty_true in Ht0 as ->. intros Hs' Hh Ht.
    assert (h0 ≠ EmptyString) as Hh0.
    { intros ->. by apply Hh; injection Hs' as <- _. }
    split; [|by apply Hname].
    rewrite (key_of_split _ _ _ _ Hcwd Hs Hh0 eq_refl).
    by apply (key_of_split _ _ _ _ Hcwd Hs' Hh Ht).
  - intros [= -> ->] Hh Ht. split; [|by apply Hname].
    by apply (key_of_split _ _ _ _ Hcwd Hs Hh Ht).
Qed.

Lemma makedirs_rec_exists n name o p o1 :
  makedirs_rec n name o = (Raise (FileExistsError p), o1) →
  ∃ c, node_at o name = Some (File c).
Proof.
  destruct n as [|n]; cbn [makedirs_rec]; destruct (makedirs_split name) as [h t];
    destruct (negb (is_empty h) && negb (is_empty t) && negb (exists_ o h));
    try apply mkdir_exist_ok_exists.
  destruct (makedirs_rec n h o) as [r1 o1'] eqn:Hrec.
  apply makedirs_rec_effect in Hrec as (Hc1 & _ & Hk1 & _).
  assert ((if String.eqb t curdir then (Ok tt, o1') else mkdir_exist_ok name o1')
          = (Raise (FileExistsError p), o1) → ∃ c, node_at o name = Some (File c)) as Hlast.
  { destruct (String.eqb t curdir); [done|].
    intros [c Hc]%mkdir_exist_ok_exists. exists c.
    by apply (node_at_kept_file o o1'). }
  destruct r1 as [u1|e|]; [done| |done]. by destruct e.
Qed.

Lemma makedirs_rec_Ok n name o u o1 :
  posixpath.isabs (cwd o) = true →
  makedirs_rec n name o = (Ok u, o1) → node_at o1 name = Some Dir.
Proof.
  revert name o u o1. induction n as [|n IH]; intros name o u o1 Hcwd;
    cbn [makedirs_rec]; destruct (makedirs_split name) as [h t] eqn:Hsplit;
    destruct (negb (is_empty h) && negb (is_empty t) && negb (exists_ o h)) eqn:Hcond;
    try apply mkdir_exist_ok_Ok.
  apply andb_prop in Hcond as [[Hh Ht]%andb_prop Hex].
  apply negb_true_iff, is_empty_false in Hh.
  destruct (makedirs_rec n h o) as [r1 o1'] eqn:Hrec.
  pose proof (makedirs_rec_effect _ _ _ _ _ Hrec) as (Hc1 & _ & Hk1 & _).
  destruct r1 as [u1|e|]; [| |done].
  - destruct (String.eqb t curdir) eqn:Et; [|apply mkdir_exist_ok_Ok].
    intros [= _ <-]. apply String.eqb_eq in Et as ->.
    apply IH in Hrec; [|done]. rewrite <- Hc1 in Hcwd.
    destruct (makedirs_split_key o1' name h curdir Hcwd Hsplit Hh comps_of_curdir)
      as [Hkey Hname].
    revert Hrec. unfold node_at.
    rewrite (proj2 (is_empty_false _) Hh), (proj2 (is_empty_false _) Hname).
    by rewrite Hkey.
  - destruct e; try done.
    apply makedirs_rec_exists in Hrec as [c Hc]. unfold exists_ in Hex.
    by rewrite Hc in Hex.
Qed.

Lemma makedirs_Ok name o u o1 :
  posixpath.isabs (cwd o) = true →
  makedirs name o = (Ok u, o1) → node_at o1 name = Some Dir.
Proof. apply makedirs_rec_Ok. Qed.

(** *** A destination that is a directory *)

Lemma after_last_sep_id b : has_sep b = false → after_last_sep b = b.
Proof.
  destruct b as [|c r]; [done|]. cbn [has_sep after_last_sep].
  intros [Hc Hr]%orb_false_elim. rewrite Hc.
  by rewrite (proj2 (upto_last_sep_nil r) Hr).
Qed.

Lemma upto_after_app a b :
  has_sep b = false →
  upto_last_sep (a +:+ String SEP b) = a +:+ sep
  ∧ after_last_sep (a +:+ String SEP b) = b.
Proof.
  intros Hb. induction a as [|c a [IHu IHa]].
  - rewrite !sapp_nil_l. cbn [upto_last_sep after_last_sep].
    rewrite ascii_eqb_refl, (proj2 (upto_last_sep_nil b) Hb). cbn [orb].
    split; [done|]. by apply after_last_sep_id.
  - rewrite !sapp_cons. cbn [upto_last_sep after_last_sep]. rewrite IHu, IHa.
    assert (is_empty (a +:+ sep) = false) as -> by (by destruct a).
    by rewrite orb_true_r.
Qed.

Lemma split_app_sep a b :
  has_sep b = false →
  ∃ h, posixpath.split (a +:+ String SEP b) = (h, b) ∧ h ≠ EmptyString.
Proof.
  intros Hb. unfold posixpath.split.
  destruct (upto_after_app a b Hb) as [-> ->]. eexists. split; [done|].
  assert (a +:+ sep ≠ EmptyString) as Hne by (by destruct a).
  destruct (negb (is_empty (a +:+ sep)) && negb (all_sep (a +:+ sep))) eqn:E; [|done].
  apply andb_prop in E as [_ E]. intros H%rstrip_sep_nil. by rewrite H in E.
Qed.

Lemma join_curdir p :
  p ≠ EmptyString → ∃ a, posixpath.join p curdir = a +:+ String SEP curdir.
Proof.
  intros Hp. unfold posixpath.join.
  change (startswith sep curdir) with false. cbn match.
  rewrite (proj2 (is_empty_false p) Hp). cbn [orb].
  destruct (endswith_sep p) eqn:E.
  - apply endswith_sep_inv in E as [a ->]. exists a. by rewrite sapp_assoc.
  - by exists p.
Qed.

(** The file a source is copied to when its relative path is the current
    directory is the directory it is to be put in. *)
Lemma destination_is_its_directory o p :
  posixpath.isabs (cwd o) = true → p ≠ EmptyString →
  node_at o (posixpath.dirname (posixpath.join p curdir)) = Some Dir →
  node_at o (posixpath.join p curdir) = Some Dir.
Proof.
  intros Hcwd Hp. destruct (join_curdir p Hp) as [a ->].
  destruct (split_app_sep a curdir eq_refl) as (h & Hs & Hh).
  unfold posixpath.dirname. rewrite Hs. cbn [fst]. unfold node_at.
  rewrite (proj2 (is_empty_false _) Hh).
  assert (is_empty (a +:+ String SEP curdir) = false) as -> by (by destruct a).
  by rewrite (key_of_split _ _ _ _ Hcwd Hs Hh comps_of_curdir).
Qed.

Lemma makedirs_empty o : makedirs EmptyString o = (Raise (FileNotFoundError EmptyString), o).
Proof. done. Qed.

Lemma prelude_makedirs f st rel dest st1 :
  prelude f st = (Ok (rel, dest), st1) →
  ∃ u, makedirs (posixpath.dirname dest) (os st) = (Ok u, os st1).
Proof.
  unfold prelude, bind, called, _get_parent_relpath, _get_source_relpath, bind,
    append_source, sys, ret. cbn beta iota. cbn [os self calls set_os set_self].
  destruct (posixpath.relpath (cwd (os st)) f (common_dir (self st)))
    as [r|e|]; [|done..].
  destruct (makedirs (posixpath.dirname
              (posixpath.join (parent_dir (self st)) r)) (os st))
    as [[u|e|] o1] eqn:Hm; cbn [os self calls set_os set_self]; [|done..].
  destruct (open_r f o1) as [ro o2] eqn:Ho.
  pose proof (open_r_effect _ _ _ _ Ho) as [-> _].
  destruct ro as [u2|e|]; [|done..].
  intros [= _ <- <-]. cbn [self os calls set_os set_self]. by exists u.
Qed.

(** A call of the transformer on a source whose relative path is the current
    directory never returns. *)
Lemma parse_kconfig_onto_directory n f st :
  posixpath.isabs (cwd (os st)) = true →
  posixpath.relpath (cwd (os st)) f (common_dir (self st)) = Ok curdir →
  ∀ rel, fst (_parse_kconfig n f st) ≠ Ok rel.
Proof.
  intros Hcwd Hrel rel. destruct n as [|n]; [done|]. rewrite parse_kconfig_S.
  destruct (prelude f st) as [[[rel' dest]|e|] st1] eqn:Hp; [|done..].
  pose proof (prelude_makedirs _ _ _ _ _ Hp) as [u Hm].
  apply prelude_effect in Hp as (Hc & _ & _ & _ & Hr & -> & _).
  rewrite Hrel in Hr. injection Hr as <-.
  destruct (decide (parent_dir (self st) = EmptyString)) as [Hpar|Hpar].
  { rewrite Hpar in Hm. by rewrite makedirs_empty in Hm. }
  apply makedirs_Ok in Hm; [|done].
  destruct Hc as [Hc _]. rewrite <- Hc in Hcwd.
  apply destination_is_its_directory in Hm; [|done..].
  unfold with_open_w, sys, open_w. by rewrite Hm.
Qed.

(** An import of a single source never returns: the common directory of a
    single source is the source itself, so the source is mapped to the
    current directory of the output tree, which is a directory by the time
    the transformer opens it for writing. *)
Theorem import_of_single_source_fails fuel src st :
  posixpath.isabs src = true →
  posixpath.isabs (cwd (os st)) = true →
  ∀ u, fst (import_sources fuel [src] st) ≠ Ok u.
Proof.
  intros Hsrc Hcwd u. rewrite import_sources_unfold, commonpath_single by done.
  destruct (with_open_w _ _ _) as [r st'] eqn:Hw.
  apply with_open_w_inv in Hw as [(e & -> & _)|(st2 & Hb & _)]; [done|].
  cbn [fst]. intros ->. cbn [import_loop] in Hb.
  apply bind_inv in Hb as [(rel & st3 & Hs & _)|[(e & _ & [=])|[_ [=]]]].
  eapply (parse_kconfig_onto_directory fuel src); [| |by rewrite Hs].
  - done.
  - apply relpath_single, Hsrc.
Qed.

(** ** The constructor and the path mapper *)

Lemma dirname_without_sep name :
  has_sep name = false → posixpath.dirname name = EmptyString.
Proof.
  intros H. unfold posixpath.dirname, posixpath.split.
  by rewrite (proj2 (upto_last_sep_nil name) H).
Qed.

Lemma exists_kept o o' name :
  cwd o' = cwd o → (∀ k, kept (fs o) (fs o') k) →
  exists_ o name = true → exists_ o' name = true.
Proof.
  intros Hc Hk. unfold exists_, node_at. destruct (is_empty name); [done|].
  rewrite (key_of_same_cwd o o' name Hc).
  destruct (key_of o name) as [|a k]; [done|]. cbn [lookup_key].
  destruct (Hk (a :: k)) as [->|[-> ->]]; done.
Qed.

(** After [os.makedirs] has returned, the head of the name exists. *)
Lemma makedirs_rec_head n name o u o1 h t :
  posixpath.isabs (cwd o) = true →
  makedirs_rec (S n) name o = (Ok u, o1) →
  makedirs_split name = (h, t) →
  negb (is_empty h) && negb (is_empty t) = true →
  exists_ o1 h = true.
Proof.
  intros Hcwd Hrun Hsplit Hht.
  pose proof (makedirs_rec_effect _ _ _ _ _ Hrun) as (Hc & _ & Hk & _).
  destruct (exists_ o h) eqn:Hex; [by apply (exists_kept o o1)|].
  revert Hrun. cbn [makedirs_rec]. rewrite Hsplit, Hht, Hex. cbn [negb andb].
  destruct (makedirs_rec n h o) as [r1 o1'] eqn:Hrec.
  pose proof (makedirs_rec_effect _ _ _ _ _ Hrec) as (Hc1 & _ & Hk1 & _).
  assert (∀ r2, (if String.eqb t curdir then (Ok tt, o1') else mkdir_exist_ok name o1')
                = (r2, o1) →
                exists_ o1' h = true → exists_ o1 h = true) as Hlast.
  { intros r2. destruct (String.eqb t curdir); [by intros [= _ <-]|].
    intros (Hc2 & _ & Hk2 & _)%mkdir_exist_ok_effect. by apply exists_kept. }
  destruct r1 as [u1|e|]; [| |done].
  - intros Hrest. apply (Hlast _ Hrest). apply makedirs_rec_Ok in Hrec; [|done].
    unfold exists_. by rewrite Hrec.
  - destruct e; try done. apply makedirs_rec_exists in Hrec as [c Hc0].
    unfold exists_ in Hex. by rewrite Hc0 in Hex.
Qed.

Lemma mkdir_exist_ok_on_dir name o :
  node_at o name = Some Dir → mkdir_exist_ok name o = (Ok tt, o).
Proof.
  intros H. unfold mkdir_exist_ok, mkdir, isdir. by rewrite !H.
Qed.

(** [os.makedirs(name, exist_ok=True)] a second time: it returns and changes
    nothing. *)
Lemma makedirs_again name o u o1 :
  posixpath.isabs (cwd o) = true →
  makedirs name o = (Ok u, o1) → makedirs name o1 = (Ok tt, o1).
Proof.
  intros Hcwd Hrun. pose proof (makedirs_Ok _ _ _ _ Hcwd Hrun) as Hdir.
  unfold makedirs in *. destruct (makedirs_split name) as [h t] eqn:Hsplit.
  destruct (negb (is_empty h) && negb (is_empty t)) eqn:Hht.
  - destruct name as [|c name]; [done|]. cbn [String.length] in *.
    pose proof (makedirs_rec_head _ _ _ _ _ _ _ Hcwd Hrun Hsplit Hht) as Hex.
    cbn [makedirs_rec]. rewrite Hsplit, Hht, Hex. cbn [negb andb].
    by apply mkdir_exist_ok_on_dir.
  - destruct (String.length name); cbn [makedirs_rec]; rewrite Hsplit, Hht;
      cbn [andb]; by apply mkdir_exist_ok_on_dir.
Qed.

Lemma check_sources_accepts o srcs acc :
  (∀ s, s ∈ srcs → isfile o (absolute o s) = true) →
  check_sources o srcs acc = Ok (acc ++ (absolute o <$> srcs))%list.
Proof.
  revert acc. induction srcs as [|s srcs IH]; intros acc Hall; cbn [check_sources fmap list_fmap].
  - by rewrite app_nil_r.
  - assert (isfile o (absolute o s) = true) as Hs by (apply Hall; left).
    assert (exists_ o (absolute o s) = true) as He.
    { revert Hs. unfold isfile, exists_. by destruct (node_at o (absolute o s)). }
    rewrite He, Hs. cbn [negb]. rewrite IH by (intros x Hx; apply Hall; by right).
    by rewrite <- app_assoc.
Qed.

(** An output root path without a directory part, as in [--kconfig Kconfig]:
    its parent directory is the empty path, which [os.makedirs] cannot make.
    The constructor raises, and so does [main] once the sources have passed
    validation; the file system is left as it was. *)
Theorem root_without_directory title_ kconfig ov o :
  has_sep kconfig = false →
  __init__ title_ kconfig ov o = (Raise (FileNotFoundError EmptyString), o)
  ∧ ∀ fuel srcs,
      (∀ s, s ∈ srcs → isfile o (absolute o s) = true) →
      main fuel kconfig title_ srcs o = (Raise (FileNotFoundError EmptyString), o).
Proof.
  intros Hk.
  assert (∀ ov', __init__ title_ kconfig ov' o
                 = (Raise (FileNotFoundError EmptyString), o)) as Hinit.
  { intros ov'. unfold __init__. by rewrite (dirname_without_sep _ Hk), makedirs_empty. }
  split; [apply Hinit|]. intros fuel srcs Hall. unfold main.
  by rewrite (check_sources_accepts o srcs [] Hall), Hinit.
Qed.

Lemma root_without_directory_witness :
  has_sep "Kconfig" = false
  ∧ main 3 "Kconfig" "Demo" ["/src/a/Kconfig"; "/src/b/Kconfig"] demo_os
    = (Raise (FileNotFoundError EmptyString), demo_os).
Proof.
  split; [reflexivity|].
  apply (root_without_directory "Demo" "Kconfig" "always" demo_os eq_refl).
  intros s Hs. apply list_elem_of_In in Hs. cbn [In] in Hs.
  destruct Hs as [<-|[<-|[]]]; computed.
Defined.

(** When the constructor returns, the object holds the title, the root path,
    its directory as parent directory, the overwrite policy, the banner as
    only header line and neither common directory nor records; the parent
    directory is a directory; and the file system differs from the one before
    by new directories only. *)
Theorem init_returns title_ kconfig ov o k o1 :
  posixpath.isabs (cwd o) = true →
  __init__ title_ kconfig ov o = (Ok k, o1) →
  k = mkKconfigMerge title_ kconfig [] (posixpath.dirname kconfig) EmptyString ov []
        [banner]
  ∧ isdir o1 (posixpath.dirname kconfig) = true
  ∧ cwd o1 = cwd o ∧ handles o1 = handles o
  ∧ ∀ key, kept (fs o) (fs o1) key.
Proof.
  intros Hcwd. unfold __init__.
  destruct (makedirs (posixpath.dirname kconfig) o) as [[u|e|] o'] eqn:Hm; [|done..].
  intros [= <- <-]. pose proof (makedirs_effect _ _ _ _ Hm) as (Hc & Hh & Hk & _).
  apply makedirs_Ok in Hm; [|done]. unfold isdir. by rewrite Hm.
Qed.

Lemma init_returns_witness :
  match __init__ "Demo" "/out/gen/Kconfig" "always" demo_os with
  | (Ok k, o1) => parent_dir k = "/out/gen" ∧ isdir o1 "/out/gen" = true
  | _ => False
  end.
Proof.
  pose proof (init_returns "Demo" "/out/gen/Kconfig" "always" demo_os) as H.
  destruct (__init__ "Demo" "/out/gen/Kconfig" "always" demo_os) as [[k|e|] o1] eqn:E.
  - destruct (H k o1 eq_refl eq_refl) as (-> & Hdir & _).
    split; [reflexivity|exact Hdir].
  - revert E. vm_compute. discriminate.
  - revert E. vm_compute. discriminate.
Defined.

(** The path mapper: the destination of a source is the parent directory of
    the root file joined with the path of the source relative to the common
    directory. When the mapper returns, the directory of the destination is a
    directory; whatever its outcome, it leaves the object and the open files
    alone and changes the file system by new directories only; and called
    again after it returned, it returns the same destination and changes
    nothing. *)
Theorem get_parent_relpath_maps source_path st r st' :
  posixpath.isabs (cwd (os st)) = true →
  _get_parent_relpath source_path st = (r, st') →
  self st' = self st ∧ calls st' = calls st
  ∧ cwd (os st') = cwd (os st) ∧ handles (os st') = handles (os st)
  ∧ (∀ key, kept (fs (os st)) (fs (os st')) key)
  ∧ match r with
    | Ok dest =>
        destination st source_path = Some dest
        ∧ isdir (os st') (posixpath.dirname dest) = true
        ∧ _get_parent_relpath source_path st' = (Ok dest, st')
    | Raise _ => True
    | OutOfFuel => False
    end.
Proof.
  intros Hcwd. unfold _get_parent_relpath, _get_source_relpath, destination, bind, sys, ret.
  destruct (posixpath.relpath (cwd (os st)) source_path (common_dir (self st)))
    as [rel|e|] eqn:Hrel.
  - destruct (makedirs _ (os st)) as [rm o1] eqn:Hm. cbn [os self calls set_os].
    pose proof (makedirs_effect _ _ _ _ Hm) as (Hc & Hh & Hk & Hne).
    destruct rm as [u|e|]; [| |done]; intros [= <- <-]; cbn [os self calls set_os];
      repeat (split; [done|]); [|done].
    rewrite Hc, Hrel.
    rewrite (makedirs_again _ _ _ _ Hcwd Hm). cbn [os self calls set_os].
    apply makedirs_Ok in Hm; [|done]. unfold isdir. rewrite Hm. split; [done|].
    by rewrite set_os_twice.
  - intros [= <- <-]. repeat (split; [done|]). split; [|done]. intros key. apply kept_refl.
  - by apply relpath_not_out_of_fuel in Hrel.
Qed.

Lemma get_parent_relpath_maps_witness :
  match _get_parent_relpath "/src/a/sub/x.kconfig" (fresh demo_job demo_os) with
  | (Ok dest, st') => dest = "/out/a/sub/x.kconfig" ∧ isdir (os st') "/out/a/sub" = true
  | _ => False
  end.
Proof.
  pose proof (get_parent_relpath_maps "/src/a/sub/x.kconfig" (fresh demo_job demo_os))
    as H.
  destruct (_get_parent_relpath "/src/a/sub/x.kconfig" (fresh demo_job demo_os))
    as [[dest|e|] st'] eqn:E.
  - destruct (H (Ok dest) st' eq_refl eq_refl) as (_ & _ & _ & _ & _ & Hd & Hdir & _).
    assert (destination (fresh demo_job demo_os) "/src/a/sub/x.kconfig"
            = Some "/out/a/sub/x.kconfig") as Ed by computed.
    rewrite Ed in Hd. injection Hd as <-. split; [reflexivity|exact Hdir].
  - revert E. vm_compute. discriminate.
  - revert E. vm_compute. discriminate.
Defined.

(** ** What a run leaves alone *)

(** Whatever the outcome of a call of the transformer (a return, an
    exception, no fuel left), the files it opened are closed again, the
    parameters of the job are as before, and the file system has changed
    only where a call made on the way had its destination, apart from new
    directories: nothing is removed, and no other file is written. *)
Theorem parse_kconfig_frame n f st r st' :
  _parse_kconfig n f st = (r, st') →
  handles (os st') = handles (os st)
  ∧ same_config st st'
  ∧ ∀ k, (∀ s, s ∈ drop (length (calls st)) (calls st') →
               destination_key st s ≠ Some k) →
         kept (fs (os st)) (fs (os st')) k.
Proof.
  intros H. pose proof (parse_kconfig_config _ _ _ _ _ H) as [Hc Hh].
  apply parse_kconfig_effect in H as (cs & Hcalls & _ & Hk).
  split; [done|]. split; [done|]. intros k Hdest. apply Hk. intros s Hs.
  apply Hdest. by rewrite Hcalls, (drop_app_length' (calls st) cs _ eq_refl).
Qed.

Lemma parse_kconfig_frame_witness :
  let st := fresh demo_job demo_os in
  let st' := snd (_parse_kconfig 3 "/src/a/Kconfig" st) in
  handles (os st') = handles (os st)
  ∧ kept (fs (os st)) (fs (os st')) ["src"; "a"; "Kconfig"].
Proof.
  cbn zeta.
  destruct (parse_kconfig_frame 3 "/src/a/Kconfig" (fresh demo_job demo_os)
              (fst (_parse_kconfig 3 "/src/a/Kconfig" (fresh demo_job demo_os)))
              (snd (_parse_kconfig 3 "/src/a/Kconfig" (fresh demo_job demo_os))))
    as (Hh & _ & Hk).
  { by destruct (_parse_kconfig 3 "/src/a/Kconfig" (fresh demo_job demo_os)). }
  split; [exact Hh|]. apply Hk.
  assert (drop (length (calls (fresh demo_job demo_os)))
            (calls (snd (_parse_kconfig 3 "/src/a/Kconfig" (fresh demo_job demo_os))))
          = ["/src/a/Kconfig"; "/src/a/sub/x.kconfig"; "/src/a/sub/x.kconfig"]) as ->
    by computed.
  assert (destination_key (fresh demo_job demo_os) "/src/a/Kconfig"
          = Some ["out"; "a"; "Kconfig"]) as E1 by computed.
  assert (destination_key (fresh demo_job demo_os) "/src/a/sub/x.kconfig"
          = Some ["out"; "a"; "sub"; "x.kconfig"]) as E2 by computed.
  intros s Hs. apply list_elem_of_In in Hs. cbn [In] in Hs.
  destruct Hs as [<-|[<-|[<-|[]]]]; rewrite ?E1, ?E2; discriminate.
Defined.

(** Whatever the outcome of [import_sources], the root file is closed again,
    the parameters of the job other than the common directory are as before,
    and the file system has changed only at the root file and where a call of
    the transformer had its destination, apart from new directories. When
    [os.path.commonpath] raises, nothing has changed at all. *)
Theorem import_sources_frame n srcs st r st' :
  import_sources n srcs st = (r, st') →
  handles (os st') = handles (os st)
  ∧ match posixpath.commonpath srcs with
    | Ok c => same_config (with_common_dir c st) st'
    | _ => st' = st
    end
  ∧ ∀ k, k ≠ key_of (os st) (kconfig_root (self st)) →
         (∀ s, s ∈ drop (length (calls st)) (calls st') →
               destination_key st' s ≠ Some k) →
         kept (fs (os st)) (fs (os st')) k.
Proof.
  rewrite import_sources_unfold.
  destruct (posixpath.commonpath srcs) as [c|e|];
    [|intros [= <- <-]; auto using kept_refl..].
  intros [(e & _ & ->)|(st2 & Hb & ->)]%with_open_w_inv.
  { split; [done|]. split; [apply same_config_refl|]. intros k _ _. apply kept_refl. }
  cbn [self set_self with_common_dir kconfig_root os set_os] in Hb.
  fold (with_common_dir c st) in Hb.
  set (rk := key_of (os st) (kconfig_root (self st))) in *.
  match type of Hb with import_loop n srcs ?s = _ => set (st1 := s) in * end.
  assert (same_config (with_common_dir c st) st1) as Hc1.
  { eapply same_config_trans; [|apply write_config]. by apply same_config_set_os. }
  pose proof (import_loop_config _ _ _ _ _ Hb) as [Hc2 Hh2].
  assert (same_config st2 (set_os (close_top (os st2)) st2)) as Hc3
    by apply same_config_set_os, close_top_cwd.
  assert (∃ b, handles (os st2) = (rk, b) :: handles (os st)) as [b Hh].
  { apply same_files_top with (b := EmptyString +:+ (headers_text (headers (self st))
                                       +:+ mainmenu_line (title (self st)))).
    exact Hh2. }
  apply import_loop_effect in Hb as (cs & Hcs & _ & Hk).
  split; [|split].
  - cbn [os set_os]. by apply close_top_handles with (k := rk) (b := b).
  - eapply same_config_trans; [exact Hc1|]. by eapply same_config_trans.
  - intros k Hroot Hdest. cbn [os set_os].
    apply kept_trans with (f2 := fs (os st1)).
    { cbn [os set_os st1]. rewrite write_top_fs. left. cbn [fs].
      by apply fs_lookup_insert_ne. }
    apply kept_trans with (f2 := fs (os st2)).
    + apply Hk. intros s Hs.
      rewrite <- (destination_key_same_config st1 st2 s Hc2).
      rewrite <- (destination_key_same_config st2 _ s Hc3).
      apply Hdest. cbn [calls set_os]. rewrite Hcs. unfold st1.
      cbn [calls set_os with_common_dir set_self].
      by rewrite (drop_app_length' (calls st) cs (length (calls st)) eq_refl).
    + by apply close_top_kept with (k := rk) (b := b) (hs := handles (os st)).
Qed.

Lemma import_sources_frame_witness :
  let st := fresh demo_job demo_os in
  let st' := snd (import_sources 3 ["/src/a/Kconfig"; "/src/b/Kconfig"] st) in
  handles (os st') = handles (os st)
  ∧ kept (fs (os st)) (fs (os st')) ["src"; "a"; "Kconfig"].
Proof.
  cbn zeta.
  destruct (import_sources_frame 3 ["/src/a/Kconfig"; "/src/b/Kconfig"]
              (fresh demo_job demo_os)
              (fst (import_sources 3 ["/src/a/Kconfig"; "/src/b/Kconfig"]
                      (fresh demo_job demo_os)))
              (snd (import_sources 3 ["/src/a/Kconfig"; "/src/b/Kconfig"]
                      (fresh demo_job demo_os))))
    as (Hh & _ & Hk).
  { by destruct (import_sources 3 _ (fresh demo_job demo_os)). }
  split; [exact Hh|]. apply Hk.
  { assert (key_of (os (fresh demo_job demo_os))
              (kconfig_root (self (fresh demo_job demo_os))) = ["out"; "Kconfig"]) as ->
      by computed.
    discriminate. }
  assert (destination_key
            (snd (import_sources 3 ["/src/a/Kconfig"; "/src/b/Kconfig"]
                    (fresh demo_job demo_os)))
          <$> drop (length (calls (fresh demo_job demo_os)))
                (calls (snd (import_sources 3 ["/src/a/Kconfig"; "/src/b/Kconfig"]
                               (fresh demo_job demo_os))))
          = [Some ["out"; "a"; "Kconfig"]; Some ["out"; "a"; "sub"; "x.kconfig"];
             Some ["out"; "a"; "sub"; "x.kconfig"]; Some ["out"; "b"; "Kconfig"]]) as E
    by computed.
  intros s Hs Hd.
  apply (list_elem_of_fmap_2
           (destination_key
              (snd (import_sources 3 ["/src/a/Kconfig"; "/src/b/Kconfig"]
                      (fresh demo_job demo_os))))) in Hs.
  rewrite E, Hd in Hs. apply list_elem_of_In in Hs. cbn [In] in Hs.
  by repeat destruct Hs as [Hs|Hs].
Defined.

(** ** Files that cannot be read, and files without directives *)

Lemma isfile_kept_inv o o' name :
  cwd o' = cwd o → (∀ k, kept (fs o) (fs o') k) →
  isfile o' name = true → isfile o name = true.
Proof.
  intros Hc Hk. unfold isfile.
  destruct (node_at o' name) as [[c|]|] eqn:E; [|done..].
  by rewrite (node_at_kept_file o o' name c Hc Hk E).
Qed.

(** A call of the transformer on a path that is no regular file raises (the
    fuel does not matter), after having made at most new directories: no file
    is created or written, and nothing stays open. A directive that names
    such a path makes the copy loop raise in the same way instead of writing
    a line. *)
Theorem transform_needs_regular_file n f st :
  isfile (os st) f = false →
  (∃ e, fst (_parse_kconfig (S n) f st) = Raise e)
  ∧ handles (os (snd (_parse_kconfig (S n) f st))) = handles (os st)
  ∧ (∀ k, kept (fs (os st)) (fs (os (snd (_parse_kconfig (S n) f st)))) k)
  ∧ ∀ dir line p,
      directive line = Some p → posixpath.join dir p = f →
      ∃ e, fst (parse_line (_parse_kconfig (S n)) dir line st) = Raise e.
Proof.
  intros Hf.
  assert (∃ e st1, _parse_kconfig (S n) f st = (Raise e, st1)
                   ∧ handles (os st1) = handles (os st)
                   ∧ ∀ k, kept (fs (os st)) (fs (os st1)) k) as (e & st1 & Hrun & Hh & Hk).
  { rewrite parse_kconfig_S. destruct (prelude f st) as [rp st1] eqn:Hp.
    apply prelude_effect in Hp as (Hc & Hh & _ & Hk & Hr).
    destruct rp as [[rel dest]|e|]; [|by eauto|done].
    destruct Hr as (_ & _ & _ & Hfile).
    apply (isfile_kept_inv (os st)) in Hfile; [congruence|apply Hc|done]. }
  rewrite Hrun. cbn [fst snd]. split; [by exists e|]. split; [done|]. split; [done|].
  intros dir line p Hd Hjoin. exists e. unfold parse_line, bind.
  by rewrite Hd, Hjoin, Hrun.
Qed.

Lemma transform_needs_regular_file_witness :
  isfile demo_os "/src/a/missing" = false
  ∧ ∃ e, fst (_parse_kconfig 1 "/src/a/missing" (fresh demo_job demo_os)) = Raise e.
Proof.
  split; [reflexivity|].
  apply (transform_needs_regular_file 0 "/src/a/missing" (fresh demo_job demo_os)).
  reflexivity.
Defined.

(** Iterating over a text loses nothing: the lines put together are the
    text. *)
Lemma readlines_concat s : concat_lines (readlines s) = s.
Proof.
  induction s as [|c s IH]; [done|]. cbn [readlines].
  destruct (Ascii.eqb c NL) eqn:E.
  - apply Ascii.eqb_eq in E as ->. cbn [concat_lines]. by rewrite IH.
  - destruct (readlines s) as [|l ls]; cbn [concat_lines] in *.
    + by rewrite <- IH.
    + by rewrite sapp_cons, IH.
Qed.

Lemma parse_lines_plain rec dir lines st :
  Forall (fun line => directive line = None) lines →
  parse_lines rec dir lines st
  = (Ok tt, set_os (write_top (concat_lines lines) (os st)) st).
Proof.
  intros H. revert st. induction H as [|l ls Hl _ IH]; intros st; cbn [parse_lines concat_lines].
  - unfold ret. by rewrite write_top_nil, set_os_same.
  - unfold bind. rewrite (parse_line_plain _ _ _ _ Hl), IH. cbn [os set_os].
    by rewrite write_top_twice, set_os_twice.
Qed.

(** A file without directive is copied as it is: when the call of the
    transformer on it returns and its destination is another file, the
    destination holds the text of the source, and no other call was made. *)
Theorem plain_file_copied n f st rel st' :
  Forall (fun line => directive line = None) (readlines (read_text f (os st))) →
  _parse_kconfig n f st = (Ok rel, st') →
  key_of (os st) f ≠ key_of (os st) (posixpath.join (parent_dir (self st)) rel) →
  text_at (os st') (key_of (os st) (posixpath.join (parent_dir (self st)) rel))
  = Some (read_text f (os st))
  ∧ calls st' = (calls st ++ [f])%list.
Proof.
  intros Hplain. destruct n as [|n]; [done|]. rewrite parse_kconfig_S.
  destruct (prelude f st) as [rp st1] eqn:Hp.
  pose proof (prelude_effect _ _ _ _ Hp) as (Hc1 & Hh1 & Hcalls1 & Hk1 & Hr).
  destruct rp as [[rel' dest]|e|]; [|done|done].
  destruct Hr as (Hrel & -> & Hrecs & Hfile).
  destruct (with_open_w _ (copy_body (_parse_kconfig n) f) st1)
    as [[[]|e|] st2] eqn:Hb; [|done|done].
  intros [= <- <-] Hne.
  set (dest := posixpath.join (parent_dir (self st)) rel') in *.
  apply with_open_w_inv in Hb as [(e & ? & _)|(st3 & Hb & ->)]; [done|].
  fold (opened_w dest st1) in Hb. unfold copy_body in Hb.
  assert (cwd (os st1) = cwd (os st)) as Hcwd by apply Hc1.
  set (kd := key_of (os st) dest) in *.
  assert (read_text f (os (opened_w dest st1)) = read_text f (os st)) as Hread.
  { apply isfile_lookup in Hfile as [c Hc].
    rewrite (key_of_same_cwd _ _ f Hcwd) in Hc.
    apply read_text_eq; [done|]. cbn [os set_os opened_w fs].
    rewrite (key_of_same_cwd _ _ dest Hcwd). fold kd.
    rewrite lookup_key_insert_ne by (by apply not_eq_sym).
    rewrite Hc. symmetry. by apply (kept_lookup_key_file _ _ _ c (Hk1 _)). }
  rewrite Hread, (parse_lines_plain _ _ _ _ Hplain) in Hb. injection Hb as <-.
  rewrite readlines_concat. cbn [calls set_os opened_w]. split; [|done].
  unfold text_at, close_top.
  cbn [os set_os opened_w handles write_top set_handles fs cwd].
  rewrite (key_of_same_cwd _ _ dest Hcwd). fold kd.
  rewrite fs_lookup_insert_eq. rewrite fs_lookup_insert_eq.
  by rewrite overlay_nil_r, sapp_nil_l.
Qed.

Lemma plain_file_copied_witness :
  let st := fresh demo_job demo_os in
  text_at (os (snd (_parse_kconfig 1 "/src/b/Kconfig" st))) ["out"; "b"; "Kconfig"]
  = Some ("config B" +:+ nl).
Proof.
  cbn zeta.
  destruct (plain_file_copied 1 "/src/b/Kconfig" (fresh demo_job demo_os) "b/Kconfig"
              (snd (_parse_kconfig 1 "/src/b/Kconfig" (fresh demo_job demo_os))))
    as [Htext _].
  - assert (readlines (read_text "/src/b/Kconfig" (os (fresh demo_job demo_os)))
            = ["config B" +:+ nl]) as -> by computed.
    by constructor.
  - computed.
  - assert (key_of (os (fresh demo_job demo_os)) "/src/b/Kconfig" = ["src"; "b"; "Kconfig"])
      as -> by computed.
    assert (key_of (os (fresh demo_job demo_os))
              (posixpath.join (parent_dir (self (fresh demo_job demo_os))) "b/Kconfig")
            = ["out"; "b"; "Kconfig"]) as -> by computed.
    discriminate.
  - exact Htext.
Defined.

(** ** The lines the transformer writes *)

Lemma join_nonempty a b : a ≠ EmptyString → posixpath.join a b ≠ EmptyString.
Proof.
  intros Ha. unfold posixpath.join. destruct (startswith sep b) eqn:Hb.
  - intros ->. done.
  - destruct a as [|c a]; [done|]. by destruct (is_empty _ || endswith_sep _).
Qed.

Lemma join_all_nonempty a p : a ≠ EmptyString → posixpath.join_all a p ≠ EmptyString.
Proof.
  unfold posixpath.join_all. revert a. induction p as [|b p IH]; intros a Ha; [done|].
  cbn [fold_left]. by apply IH, join_nonempty.
Qed.

(** The relative path [os.path.relpath] returns is never empty. *)
Lemma relpath_nonempty cwd_ path start rel :
  posixpath.relpath cwd_ path start = Ok rel → rel ≠ EmptyString.
Proof.
  unfold posixpath.relpath. destruct (is_empty path); [done|].
  destruct (posixpath.commonprefix2 _ _) as [pre|e|]; [|done..].
  match goal with |- context [repeat pardir ?k ++ drop ?i ?l] =>
    destruct (repeat pardir k ++ drop i l) as [|a p] eqn:E
  end; intros [= <-]; [done|].
  apply join_all_nonempty.
  assert (a ∈ a :: p) as Ha by left. rewrite <- E in Ha.
  apply elem_of_app in Ha as [Ha|Ha].
  - apply list_elem_of_In, repeat_spec in Ha. by subst.
  - apply list_elem_of_lookup in Ha as [j Hj]. rewrite lookup_drop in Hj.
    apply list_elem_of_lookup_2, list_elem_of_filter in Hj. apply Hj.
Qed.



(** ** Validation and the sources handed to the import *)

Lemma normpath_isabs x :
  posixpath.isabs x = true → posixpath.isabs (posixpath.normpath x) = true.
Proof.
  intros Habs. pose proof (initial_slashes_abs x Habs) as Hk.
  unfold posixpath.normpath. destruct (is_empty x) eqn:E.
  { apply is_empty_true in E as ->. done. }
  destruct (posixpath.initial_slashes x) as [|k]; [done|]. by cbn [seps].
Qed.

Lemma absolute_isabs o s :
  posixpath.isabs (cwd o) = true → posixpath.isabs (absolute o s) = true.
Proof.
  intros Hcwd. unfold absolute. destruct (posixpath.isabs s) eqn:Hs; [done|].
  unfold posixpath.abspath. rewrite Hs. apply normpath_isabs.
  by apply join_relative.
Qed.

Lemma absolute_idemp o s :
  posixpath.isabs (cwd o) = true → absolute o (absolute o s) = absolute o s.
Proof. intros H. unfold absolute at 1. by rewrite absolute_isabs. Qed.


(** A source given by a relative path is treated as its absolute form: [main]
    behaves on the sources as on their absolute paths. *)
Theorem relative_sources_made_absolute fuel kconfig title_ srcs o :
  posixpath.isabs (cwd o) = true →
  main fuel kconfig title_ (absolute o <$> srcs) o = main fuel kconfig title_ srcs o.
Proof.
  intros Hcwd. unfold main.
  assert (∀ acc, check_sources o (absolute o <$> srcs) acc = check_sources o srcs acc)
    as ->; [|done].
  induction srcs as [|s srcs IH]; intros acc; [done|].
  cbn [fmap list_fmap check_sources]. rewrite absolute_idemp by done.
  fold (fmap (M := list) (absolute o) srcs). by rewrite IH.
Qed.

Lemma relative_sources_made_absolute_witness :
  posixpath.isabs (cwd demo_os) = true
  ∧ main 3 "/out/Kconfig" "Demo" ["/src/a/Kconfig"; "/src/b/Kconfig"] demo_os
    = main 3 "/out/Kconfig" "Demo" ["../src/a/Kconfig"; "/src/b/Kconfig"] demo_os.
Proof.
  split; [reflexivity|].
  apply (relative_sources_made_absolute 3 "/out/Kconfig" "Demo"
           ["../src/a/Kconfig"; "/src/b/Kconfig"] demo_os).
  reflexivity.
Defined.

(** An import of a single source through [main] never returns: whatever the
    source, the output root and the file system, [main] raises or runs out of
    fuel. *)
Theorem single_source_never_imported fuel kconfig title_ s o :
  posixpath.isabs (cwd o) = true →
  ∀ st, fst (main fuel kconfig title_ [s] o) ≠ Ok st.
Proof.
  intros Hcwd st. unfold main.
  destruct (check_sources o [s] []) as [l|e|] eqn:Hl; [|done..].
  apply check_sources_Ok in Hl as ->. cbn [app map].
  destruct (__init__ title_ kconfig "always" o) as [[k|e|] o1] eqn:Hi; [|done..].
  unfold __init__ in Hi.
  destruct (makedirs (posixpath.dirname kconfig) o) as [[u|e|] o'] eqn:Hm; [|done..].
  apply makedirs_effect in Hm as (Hc & _). injection Hi as <- <-.
  match goal with |- context [import_sources fuel ?l0 ?s0] =>
    pose proof (import_of_single_source_fails fuel (absolute o s) s0
                  (absolute_isabs o _ Hcwd)) as H;
    destruct (import_sources fuel l0 s0) as [[[]|e|] st1] eqn:E
  end; [|done..].
  exfalso. apply (H (eq_trans (f_equal posixpath.isabs Hc) Hcwd) tt). reflexivity.
Qed.

Lemma single_source_never_imported_witness :
  posixpath.isabs (cwd demo_os) = true
  ∧ ∀ st, fst (main 3 "/out/Kconfig" "Demo" ["/src/a/Kconfig"] demo_os) ≠ Ok st.
Proof.
  split; [reflexivity|].
  apply (single_source_never_imported 3 "/out/Kconfig" "Demo" "/src/a/Kconfig" demo_os).
  reflexivity.
Defined.

(** [import_sources] asks for the common directory before it opens the root
    file: for an empty list of sources, and for a list that mixes absolute and
    relative paths, it raises the [ValueError] of [os.path.commonpath] and the
    state is as before (no root file is created or truncated). *)
Theorem import_rejects_before_writing n st :
  import_sources n [] st
  = (Raise (ValueError "commonpath() arg is an empty sequence"), st)
  ∧ ∀ p0 ps,
      (∃ p, p ∈ ps ∧ posixpath.isabs p ≠ posixpath.isabs p0) →
      import_sources n (p0 :: ps) st
      = (Raise (ValueError "Can't mix absolute and relative paths"), st).
Proof.
  split; [done|]. intros p0 ps (p & Hp & Hne). rewrite import_sources_unfold.
  unfold posixpath.commonpath.
  assert (forallb (fun q => Bool.eqb (posixpath.isabs q) (posixpath.isabs p0)) ps = false)
    as ->; [|done].
  apply not_true_is_false. intros Hall. rewrite forallb_forall in Hall.
  apply list_elem_of_In, Hall, Bool.eqb_prop in Hp. done.
Qed.

Lemma import_rejects_before_writing_witness :
  import_sources 3 ["/src/a/Kconfig"; "b/Kconfig"] (fresh demo_job demo_os)
  = (Raise (ValueError "Can't mix absolute and relative paths"), fresh demo_job demo_os).
Proof.
  apply (proj2 (import_rejects_before_writing 3 (fresh demo_job demo_os))).
  exists "b/Kconfig". split; [by left|]. discriminate.
Defined.

(** ** The root file after an import that does not return *)

Lemma import_loop_written n srcs st r st' k b hs :
  import_loop n srcs st = (r, st') →
  handles (os st) = (k, b) :: hs →
  ∃ rels,
    Forall2 (fun s rel =>
               posixpath.relpath (cwd (os st)) s (common_dir (self st)) = Ok rel)
      (take (length rels) srcs) rels
    ∧ handles (os st') = (k, b +:+ concat_lines (map source_line rels)) :: hs
    ∧ (r = Ok tt → length rels = length srcs).
Proof.
  revert st b. induction srcs as [|s srcs IH]; intros st b; cbn [import_loop].
  - intros [= <- <-] Hh. exists []. split; [constructor|]. cbn.
    by rewrite sapp_nil_r.
  - intros [(rel & st1 & Hs & Hrest)|[(e & Hs & ->)|[Hs ->]]]%bind_inv Hh.
    + apply bind_inv in Hrest as [([] & st2 & Hw & Hrest)|[(e & ? & _)|[? _]]];
        [|done..].
      injection Hw as <-.
      pose proof (parse_kconfig_result _ _ _ _ _ Hs) as Hrel.
      apply parse_kconfig_config in Hs as [Hc Hh1].
      destruct (IH _ (b +:+ source_line rel) Hrest) as (rels & Hrels & Hh' & Hlen).
      { cbn [os set_os]. apply write_top_handles. by rewrite Hh1. }
      exists (rel :: rels). split; [|split].
      * cbn [length take]. constructor; [done|].
        eapply Forall2_impl; [exact Hrels|].
        intros s' r' Hr'. cbn [os set_os self] in Hr'.
        rewrite write_top_cwd in Hr'. destruct Hc as (Hcwd & _ & _ & _ & _ & Hcd & _).
        by rewrite Hcwd, Hcd in Hr'.
      * rewrite Hh'. cbn [map concat_lines]. by rewrite sapp_assoc.
      * intros Hr. cbn [length]. by rewrite Hlen.
    + apply parse_kconfig_config in Hs as [_ Hh1]. exists [].
      split; [constructor|]. split; [|done]. cbn. by rewrite sapp_nil_r, Hh1.
    + apply parse_kconfig_config in Hs as [_ Hh1]. exists [].
      split; [constructor|]. split; [|done]. cbn. by rewrite sapp_nil_r, Hh1.
Qed.



(** ** The exceptions of a run *)

Lemma list_ltb_irrefl l : list_ltb l l = false.
Proof. induction l as [|x l IH]; [done|]. cbn [list_ltb]. by rewrite String.eqb_refl. Qed.

(** The loop of [commonprefix] does not run past the end of the greater
    list. *)
Lemma common_loop_le s1 s2 :
  list_ltb s2 s1 = false → ∃ l, posixpath.common_loop s1 s2 = Ok l.
Proof.
  revert s2. induction s1 as [|c r1 IH]; intros s2; [by exists []|].
  destruct s2 as [|c2 r2]; [done|]. cbn [list_ltb posixpath.common_loop].
  rewrite (String.eqb_sym c2 c). destruct (String.eqb c c2); [|by exists []].
  intros [l ->]%IH. by exists (c :: l).
Qed.

Lemma list_min_le_max m a b :
  list_ltb b a = false → list_ltb (list_max b m) (list_min a m) = false.
Proof.
  unfold list_min, list_max. revert a b.
  induction m as [|y m IH]; intros a b Hab; [done|]. cbn [fold_left]. apply IH.
  destruct (list_ltb y a) eqn:E1, (list_ltb b y) eqn:E2; auto using list_ltb_irrefl.
Qed.

Lemma commonprefix2_Ok a b : ∃ l, posixpath.commonprefix2 a b = Ok l.
Proof. apply common_loop_le, list_min_le_max, list_ltb_irrefl. Qed.

(** [os.path.relpath] raises for the empty path only. *)
Lemma relpath_Ok cwd_ path start :
  path ≠ EmptyString → ∃ rel, posixpath.relpath cwd_ path start = Ok rel.
Proof.
  intros Hp. unfold posixpath.relpath. rewrite (proj2 (is_empty_false path) Hp).
  match goal with |- context [posixpath.commonprefix2 ?a ?b] =>
    destruct (commonprefix2_Ok a b) as [pre ->]
  end.
  match goal with |- context [match ?l with [] => _ | _ :: _ => _ end] =>
    destruct l end; eauto.
Qed.

(** [os.path.commonpath] returns on every list of absolute paths that is not
    empty. *)
Lemma commonpath_Ok srcs :
  srcs ≠ [] → Forall (fun s => posixpath.isabs s = true) srcs →
  ∃ c, posixpath.commonpath srcs = Ok c.
Proof.
  destruct srcs as [|p0 ps]; [done|]. intros _ [H0 Hps]%Forall_cons.
  unfold posixpath.commonpath.
  assert (forallb (fun p => Bool.eqb (posixpath.isabs p) (posixpath.isabs p0)) ps = true)
    as ->.
  { apply forallb_forall. intros p Hp%list_elem_of_In.
    rewrite Forall_forall in Hps. by rewrite (Hps p Hp), H0. }
  cbn [negb].
  match goal with |- context [posixpath.common_loop ?a ?b] =>
    destruct (common_loop_le a b) as [l ->]
  end; [|eauto].
  apply list_min_le_max, list_ltb_irrefl.
Qed.

Lemma join_nonempty_r a b : b ≠ EmptyString → posixpath.join a b ≠ EmptyString.
Proof.
  intros Hb. unfold posixpath.join. destruct (startswith sep b); [done|].
  destruct (is_empty a || endswith_sep a).
  - destruct a; [by rewrite sapp_nil_l|done].
  - by destruct a.
Qed.

Lemma mkdir_exist_ok_raises name o e o1 :
  mkdir_exist_ok name o = (Raise e, o1) → os_error e = true.
Proof.
  unfold mkdir_exist_ok, mkdir. destruct (node_at o name).
  { destruct (isdir o name); [done|]. intros [= <- _]. by destruct (is_empty name). }
  destruct (is_empty name).
  { destruct (isdir o name); [done|]. by intros [= <- _]. }
  destruct (lookup_key (fs o) (removelast (key_of o name))) as [[c|]|]; [|done|].
  - destruct (isdir o name); [done|]. by intros [= <- _].
  - destruct (isdir o name); [done|]. by intros [= <- _].
Qed.

Lemma makedirs_rec_raises n name o e o1 :
  makedirs_rec n name o = (Raise e, o1) → os_error e = true.
Proof.
  revert name o e o1. induction n as [|n IH]; intros name o e o1;
    cbn [makedirs_rec]; destruct (makedirs_split name) as [h t];
    destruct (negb (is_empty h) && negb (is_empty t) && negb (exists_ o h));
    try apply mkdir_exist_ok_raises.
  destruct (makedirs_rec n h o) as [r1 o1'] eqn:Hrec.
  assert ((if String.eqb t curdir then (Ok tt, o1') else mkdir_exist_ok name o1')
          = (Raise e, o1) → os_error e = true) as Hlast.
  { destruct (String.eqb t curdir); [done|]. apply mkdir_exist_ok_raises. }
  destruct r1 as [u|e1|]; [done| |done].
  destruct e1; try done; intros [= <- _]; by apply IH in Hrec.
Qed.

Lemma open_r_raises path o e o1 : open_r path o = (Raise e, o1) → os_error e = true.
Proof.
  unfold open_r. destruct (node_at o path) as [[c|]|]; [done|..]; by intros [= <- _].
Qed.

Lemma open_w_raises path o e o1 : open_w path o = (Raise e, o1) → os_error e = true.
Proof.
  unfold open_w. destruct (node_at o path) as [[c|]|]; [done|by intros [= <- _]|].
  destruct (is_empty path); [by intros [= <- _]|].
  destruct (lookup_key (fs o) (removelast (key_of o path))) as [[c|]|];
    [|done|]; by intros [= <- _].
Qed.

Lemma with_open_w_raises {A} path (body : M A) st e st' :
  (∀ st1 st2, body st1 = (Raise e, st2) → os_error e = true) →
  with_open_w path body st = (Raise e, st') → os_error e = true.
Proof.
  intros Hbody. unfold with_open_w, sys.
  destruct (open_w path (os st)) as [[u|e1|] o1] eqn:Ho.
  - destruct (body _) as [rb st2] eqn:Hb. intros [= -> _]. by apply Hbody in Hb.
  - intros [= <- _]. by apply open_w_raises in Ho.
  - done.
Qed.

Lemma prelude_raises f st e st1 :
  f ≠ EmptyString → prelude f st = (Raise e, st1) → os_error e = true.
Proof.
  intros Hf.
  unfold prelude, bind, called, _get_parent_relpath, _get_source_relpath, bind,
    append_source, sys, ret. cbn beta iota. cbn [os self calls set_os set_self].
  destruct (relpath_Ok (cwd (os st)) f (common_dir (self st)) Hf) as [rel ->].
  destruct (makedirs _ (os st)) as [[u|e1|] o1] eqn:Hm;
    cbn [os self calls set_os set_self].
  - destruct (open_r f o1) as [[u2|e2|] o2] eqn:Ho; [done| |done].
    intros [= <- _]. by apply open_r_raises in Ho.
  - intros [= <- _]. by apply makedirs_rec_raises in Hm.
  - done.
Qed.

Lemma parse_lines_raises rec dir lines st e st' :
  (∀ p st1 st2, p ≠ EmptyString → rec p st1 = (Raise e, st2) → os_error e = true) →
  parse_lines rec dir lines st = (Raise e, st') → os_error e = true.
Proof.
  intros Hrec. revert st. induction lines as [|l ls IH]; intros st; [done|].
  cbn [parse_lines]. intros [(u & st1 & _ & Hrest)|[(e1 & Hl & [= ->])|[_ ?]]]%bind_inv;
    [by apply IH in Hrest| |done].
  revert Hl. unfold parse_line. destruct (directive l) as [p|] eqn:Hd; [|done].
  intros [(rel & st1 & _ & ?)|[(e2 & Hr & [= ->])|[_ ?]]]%bind_inv; [done| |done].
  apply Hrec in Hr; [done|]. apply join_nonempty_r.
  by apply directive_Some in Hd as [? _].
Qed.

(** The path computations of the transformer never fail: an exception of a
    call on a path that is not empty is an [OSError] of a file-system
    operation. *)
Lemma parse_kconfig_raises n f st e st' :
  f ≠ EmptyString → _parse_kconfig n f st = (Raise e, st') → os_error e = true.
Proof.
  revert f st st'. induction n as [|n IH]; intros f st st' Hf; [done|].
  rewrite parse_kconfig_S. destruct (prelude f st) as [[[rel dest]|e1|] st1] eqn:Hp.
  - destruct (with_open_w _ _ _) as [[[]|e2|] st2] eqn:Hw; [done| |done].
    intros [= <- _]. apply with_open_w_raises in Hw; [done|].
    intros st3 st4. unfold copy_body. apply parse_lines_raises.
    intros p st5 st6 Hp'. by apply IH.
  - intros [= <- _]. by apply prelude_raises in Hp.
  - done.
Qed.

Lemma import_loop_raises n srcs st e st' :
  Forall (fun s => s ≠ EmptyString) srcs →
  import_loop n srcs st = (Raise e, st') → os_error e = true.
Proof.
  intros Hsrcs. revert st. induction Hsrcs as [|s srcs Hs _ IH]; intros st; [done|].
  cbn [import_loop].
  intros [(rel & st1 & _ & Hrest)|[(e1 & Hr & [= ->])|[_ ?]]]%bind_inv;
    [|by apply parse_kconfig_raises in Hr|done].
  apply bind_inv in Hrest as [(u & st2 & _ & Hrest)|[(e1 & ? & _)|[_ ?]]]; [|done..].
  by apply IH in Hrest.
Qed.

Lemma check_sources_raises o srcs acc e :
  check_sources o srcs acc = Raise e → ∃ msg, e = Exception msg.
Proof.
  revert acc. induction srcs as [|s srcs IH]; intros acc; [done|]. cbn [check_sources].
  destruct (negb (exists_ o (absolute o s))); [intros [= <-]; eauto|].
  destruct (negb (isfile o (absolute o s))); [intros [= <-]; eauto|]. apply IH.
Qed.



(** ** The records, call by call *)

Lemma record_of_same_config st st' s :
  same_config st st' → record_of st' s = record_of st s.
Proof. intros H. unfold record_of. by rewrite (destination_same_config _ _ _ H). Qed.

Lemma recorded_refl st : recorded st st.
Proof. exists [], []. rewrite !app_nil_r. by repeat split. Qed.

Lemma recorded_trans st1 st2 st3 :
  same_config st1 st2 → recorded st1 st2 → recorded st2 st3 → recorded st1 st3.
Proof.
  intros Hc (r1 & c1 & Hr1 & Hc1 & H1) (r2 & c2 & Hr2 & Hc2 & H2).
  exists (r1 ++ r2), (c1 ++ c2). rewrite Hr2, Hr1, Hc2, Hc1, !app_assoc.
  split; [done|]. split; [done|]. apply Forall2_app; [done|].
  eapply Forall2_impl; [exact H2|]. intros s r Hs.
  by rewrite <- (record_of_same_config _ _ _ Hc).
Qed.

Lemma recorded_set_os o st : recorded st (set_os o st).
Proof. exists [], []. cbn. rewrite !app_nil_r. by repeat split. Qed.

Section recorded.

Variable rec : string → M string.
Hypothesis rec_config : ∀ f st r st',
  rec f st = (r, st') → same_config st st' ∧ handles (os st') = handles (os st).
Hypothesis rec_recorded : ∀ f st rel st',
  rec f st = (Ok rel, st') → recorded st st'.

Lemma parse_line_recorded dir line st st' :
  parse_line rec dir line st = (Ok tt, st') → recorded st st'.
Proof.
  unfold parse_line. destruct (directive line) as [p|].
  - intros [(rel & st1 & Hrec & Hw)|[(e & _ & ?)|[_ ?]]]%bind_inv; [|done..].
    injection Hw as <-. pose proof (rec_config _ _ _ _ Hrec) as [Hc _].
    eapply recorded_trans; [done|by eapply rec_recorded|apply recorded_set_os].
  - intros [= <-]. apply recorded_set_os.
Qed.

Lemma parse_lines_recorded dir lines st st' :
  parse_lines rec dir lines st = (Ok tt, st') → recorded st st'.
Proof.
  revert st. induction lines as [|line lines IH]; intros st; cbn [parse_lines].
  - intros [= <-]. apply recorded_refl.
  - intros [([] & st1 & Hl & Hrest)|[(e & _ & ?)|[_ ?]]]%bind_inv; [|done..].
    pose proof (parse_line_config rec rec_config _ _ _ _ _ Hl) as [Hc _].
    eapply recorded_trans; [done|by eapply parse_line_recorded|by apply IH].
Qed.

End recorded.

Lemma parse_kconfig_recorded n f st rel st' :
  _parse_kconfig n f st = (Ok rel, st') → recorded st st'.
Proof.
  revert f st rel st'. induction n as [|n IH]; intros f st rel st'; [done|].
  rewrite parse_kconfig_S. destruct (prelude f st) as [rp st1] eqn:Hp.
  pose proof (prelude_effect _ _ _ _ Hp) as (Hc1 & _ & Hcalls & _ & Hr).
  destruct rp as [[rel' dest]|e|]; [|done|done].
  apply prelude_destination in Hp. destruct Hr as (_ & _ & Hrecs & _).
  destruct (with_open_w dest (copy_body (_parse_kconfig n) f) st1)
    as [[u|e|] st2] eqn:Hb; [|done|done].
  intros [= <- <-].
  apply with_open_w_inv in Hb as [(e & ? & _)|(st3 & Hb & ->)]; [done|].
  unfold copy_body in Hb. destruct u.
  apply (parse_lines_recorded _ (parse_kconfig_config n) IH) in Hb
    as (recs & cs & Hr3 & Hc3 & H3).
  exists (({[ f ]} ∪ {[ dest ]}) :: recs), (f :: cs). cbn [self calls set_os] in *.
  rewrite Hr3, Hc3, Hrecs, Hcalls, <- !app_assoc. split; [done|]. split; [done|].
  constructor.
  - unfold record_of. by rewrite Hp.
  - eapply Forall2_impl; [exact H3|]. intros s r Hs. cbn beta in Hs.
    rewrite <- Hs. symmetry. apply record_of_same_config.
    eapply same_config_trans; [exact Hc1|]. by apply same_config_set_os.
Qed.

Lemma import_loop_recorded n srcs st st' :
  import_loop n srcs st = (Ok tt, st') → recorded st st'.
Proof.
  revert st. induction srcs as [|s srcs IH]; intros st; cbn [import_loop].
  - intros [= <-]. apply recorded_refl.
  - intros [(rel & st1 & Hs & Hrest)|[(e & _ & ?)|[_ ?]]]%bind_inv; [|done..].
    apply bind_inv in Hrest as [([] & st2 & Hw & Hrest)|[(e & _ & ?)|[_ ?]]]; [|done..].
    injection Hw as <-. pose proof (parse_kconfig_config _ _ _ _ _ Hs) as [Hc _].
    eapply recorded_trans; [done|by eapply parse_kconfig_recorded|].
    eapply recorded_trans; [apply write_config|apply recorded_set_os|by apply IH].
Qed.

(** After [main] has returned, the records are those of the calls of the
    transformer, one per call and in the order of the calls: the record of a
    call is the set of its source and its destination (one element when the
    two are the same string). *)
Theorem records_follow_calls fuel kconfig title_ srcs o st o' :
  main fuel kconfig title_ srcs o = (Ok st, o') →
  Forall2 (fun s r => record_of st s = Some r) (calls st) (kconfig_sources (self st)).
Proof.
  unfold main. destruct (check_sources o srcs []) as [l|e|]; [|done|done].
  unfold __init__. destruct (makedirs _ o) as [[u|e|] o1]; [|done|done].
  destruct (import_sources fuel l _) as [[[]|e|] st1] eqn:Hi; [|done|done].
  intros [= <- _]. revert Hi. rewrite import_sources_unfold.
  destruct (posixpath.commonpath l) as [c|e|]; [|done|done].
  intros [(e & ? & _)|(st2 & Hb & ->)]%with_open_w_inv; [done|].
  pose proof (import_loop_config _ _ _ _ _ Hb) as [Hc _].
  apply import_loop_recorded in Hb as (recs & cs & Hr & Hcs & H).
  cbn [self calls set_os with_common_dir set_self kconfig_sources app] in *.
  rewrite Hr, Hcs. eapply Forall2_impl; [exact H|]. intros s r Hs.
  rewrite <- Hs. apply record_of_same_config.
  eapply same_config_trans; [exact Hc|]. apply same_config_set_os, close_top_cwd.
Qed.

Lemma records_follow_calls_witness :
  match main 3 "/out/Kconfig" "Demo" ["/src/a/Kconfig"; "/src/b/Kconfig"] demo_os with
  | (Ok st, _) =>
      Forall2 (fun s r => record_of st s = Some r) (calls st) (kconfig_sources (self st))
  | _ => False
  end.
Proof.
  destruct (main 3 "/out/Kconfig" "Demo" ["/src/a/Kconfig"; "/src/b/Kconfig"] demo_os)
    as [[st|e|] o'] eqn:E.
  - exact (records_follow_calls 3 "/out/Kconfig" "Demo"
             ["/src/a/Kconfig"; "/src/b/Kconfig"] demo_os st o' E).
  - revert E. vm_compute. discriminate.
  - revert E. vm_compute. discriminate.
Defined.

(** ** The relative path of a source *)

(** [_get_source_relpath] leaves the state as it is; it raises [ValueError]
    for the empty path, and for every other path it returns a relative path
    that is not empty. *)
Theorem get_source_relpath_total source_path st :
  snd (_get_source_relpath source_path st) = st
  ∧ (source_path = EmptyString →
     fst (_get_source_relpath source_path st) = Raise (ValueError "no path specified"))
  ∧ (source_path ≠ EmptyString →
     ∃ rel, fst (_get_source_relpath source_path st) = Ok rel ∧ rel ≠ EmptyString).
Proof.
  unfold _get_source_relpath. cbn [fst snd]. split; [done|]. split.
  - by intros ->.
  - intros Hne.
    destruct (relpath_Ok (cwd (os st)) source_path (common_dir (self st)) Hne)
      as [rel Hrel].
    exists rel. split; [done|]. by apply relpath_nonempty in Hrel.
Qed.

Lemma get_source_relpath_total_witness :
  ∃ rel, fst (_get_source_relpath "/src/a/sub/x.kconfig" (fresh demo_job demo_os)) = Ok rel
         ∧ rel ≠ EmptyString.
Proof.
  apply (proj2 (proj2 (get_source_relpath_total "/src/a/sub/x.kconfig"
                         (fresh demo_job demo_os)))).
  discriminate.
Defined.
